(** * n8n-nodes-stagehand: the per-item dispatchers and the field-list schema

    A shallow embedding of the [execute] methods of the Playwright node
    (src/unnamed/part_000, lines 362-556) and of the Stagehand node
    (src/nodes/Stagehand/Stagehand.node.ts, lines 475-590), and of
    [fieldsToZodSchema] (same file, lines 598-628).

    The nodes are asynchronous JavaScript that talks to a remote browser.
    A run is embedded as a value of [Exec]: the records pushed on [results],
    the log of the remote calls issued, and how the block completed
    (normally, or by a thrown error).  The answers of the remote side are
    read from a [World]: one answer per item index and call, which is enough
    to replay any run, since an iteration issues each call at most once.

    The CDP Tools node (src/nodes/CdpTools/CdpTools.node.ts) is embedded the
    same way, with its two helpers and with the text operations of its
    renumbering loop written out on UTF-16 code units. *)

From Stdlib Require Import String ZArith Lia.
From Stdlib Require DecimalNat DecimalFacts.
From stdpp Require Import base list.

Local Open Scope string_scope.
Local Open Scope list_scope.

(** ** Errors, completions and the execution monad *)

Module Effects.

(** The classes of the values the code throws or receives as rejections. *)
Inductive Error : Type :=
| ApplicationError (message : string)   (* new ApplicationError(message) *)
| AssertError (message : string)        (* new Error(message), thrown by n8n's assert *)
| RemoteError (message : string).       (* a rejection of the engine or of a helper *)

(** How an awaited call or a block completes. *)
Inductive outcome (A : Type) : Type :=
| Resolved (a : A)
| Rejected (e : Error).
Arguments Resolved {A} a.
Arguments Rejected {A} e.

Definition is_resolved {A} (o : outcome A) : bool :=
  match o with Resolved _ => true | Rejected _ => false end.

(** new NodeOperationError(node, error, { message }) *)
Record NodeOperationError : Type := mkNodeOperationError {
  cause : Error;
  message : string
}.

(** The [json] member of an output record: {}, { operation } or
    { operation, result }.  Payloads of the engine are opaque text. *)
Record Json : Type := mkJson {
  j_operation : option string;
  j_result : option string
}.

Definition BinaryData : Type := string.

(** INodeExecutionData, with the members the nodes set. *)
Record INodeExecutionData : Type := mkData {
  json : Json;
  binary : option (string * BinaryData);
  error : option NodeOperationError
}.

Section Exec.
Context {Ev : Type}.

(** The effect of running a block: what it pushed on [results], the calls
    it logged, and its completion. *)
Record Exec (A : Type) : Type := mkExec {
  results : list INodeExecutionData;
  trace : list Ev;
  completion : outcome A
}.
Arguments mkExec {A} _ _ _.
Arguments results {A} _.
Arguments trace {A} _.
Arguments completion {A} _.

Definition ret {A} (a : A) : Exec A := mkExec [] [] (Resolved a).

Definition throw {A} (e : Error) : Exec A := mkExec [] [] (Rejected e).

Definition bind {A B} (m : Exec A) (k : A -> Exec B) : Exec B :=
  match completion m with
  | Resolved a =>
      let n := k a in
      mkExec (results m ++ results n) (trace m ++ trace n) (completion n)
  | Rejected e => mkExec (results m) (trace m) (Rejected e)
  end.

(** results.push(r) *)
Definition push (r : INodeExecutionData) : Exec unit :=
  mkExec [r] [] (Resolved tt).

(** A marker in the log. *)
Definition emit (ev : Ev) : Exec unit := mkExec [] [ev] (Resolved tt).

(** await of a call: the call is logged, its completion is the world's. *)
Definition await {A} (ev : Ev) (o : outcome A) : Exec A := mkExec [] [ev] o.

(** try { body } catch (error) { handler error } *)
Definition try_catch (body : Exec unit) (handler : Error -> Exec unit) : Exec unit :=
  match completion body with
  | Resolved _ => body
  | Rejected e =>
      let h := handler e in
      mkExec (results body ++ results h) (trace body ++ trace h) (completion h)
  end.

(** try { body } finally { fin }: [fin] always runs; an error thrown by
    [fin] replaces the completion of [body]. *)
Definition try_finally (body : Exec unit) (fin : Exec unit) : Exec unit :=
  mkExec (results body ++ results fin) (trace body ++ trace fin)
    (match completion fin with
     | Resolved _ => completion body
     | Rejected e => Rejected e
     end).

(** try { body } catch (error) { handler error } finally { fin } *)
Definition try_catch_finally (body : Exec unit) (handler : Error -> Exec unit)
    (fin : Exec unit) : Exec unit :=
  try_finally (try_catch body handler) fin.

#[global] Instance exec_ret : MRet Exec := @ret.
#[global] Instance exec_bind : MBind Exec := fun A B k m => bind m k.

(** for (let i = start; i < items.length; i++) { body i items[i] } *)
Fixpoint for_items {P} (body : nat -> P -> Exec unit) (i : nat) (items : list P)
    : Exec unit :=
  match items with
  | [] => mret tt
  | p :: rest => body i p ;; for_items body (S i) rest
  end.

(** How many turns of that loop are started: all of them, or those up to
    and including the first that throws. *)
Fixpoint turns {P} (body : nat -> P -> Exec unit) (i : nat) (items : list P) : nat :=
  match items with
  | [] => 0
  | p :: rest =>
      match completion (body i p) with
      | Resolved _ => S (turns body (S i) rest)
      | Rejected _ => 1
      end
  end.

(** The number of logged events that satisfy [f]. *)
Definition count (f : Ev -> bool) (tr : list Ev) : nat := length (List.filter f tr).

(** return [results]; *)
Definition return_results (m : Exec unit) : Exec (list (list INodeExecutionData)) :=
  mkExec (results m) (trace m)
    (match completion m with
     | Resolved _ => Resolved [results m]
     | Rejected e => Rejected e
     end).
End Exec.

Arguments Exec : clear implicits.
Arguments mkExec {Ev A} _ _ _.
Arguments results {Ev A} _.
Arguments trace {Ev A} _.
Arguments completion {Ev A} _.

End Effects.

Import Effects.

(** ** The Playwright node (src/unnamed/part_000) *)

Module Playwright.

(** The parameters the host resolves for one item: getNodeParameter(name, i,
    default) is the member [name] of the item's record (the host has applied
    the default).  Numbers are integers here. *)
Record Params : Type := mkParams {
  operation : string;
  cdpUrl : string;
  timeout : Z;        (* options.timeout *)
  url : string;
  fullPage : bool;
  quality : Z;
  selector : string;
  text : string;
  key : string;
  value : string;
  state : string;
  duration : Z;
  script : string
}.

(** The bounds the node description declares for [quality] (typeOptions,
    lines 211-214).  They are metadata for the host's editor; [execute]
    never reads them. *)
Definition quality_minValue : Z := 0.
Definition quality_maxValue : Z := 100.

(** The calls on [page], with their arguments. *)
Inductive PageCall : Type :=
| Goto (url : string) (timeout : Z)
| Screenshot (fullPage : bool) (quality : Z) (timeout : Z)
| Click (selector : string) (timeout : Z)
| Fill (selector text : string) (timeout : Z)
| SelectOption (selector value : string) (timeout : Z)
| Press (selector key : string) (timeout : Z)
| WaitForTimeout (duration : Z)
| WaitForSelector (selector : string) (timeout : Z)
| WaitForLoadState (state : string) (timeout : Z)
| Evaluate (script : string) (timeout : Z).

Inductive Call : Type :=
| ConnectOverCDP (cdpUrl : string)   (* chromium.connectOverCDP(cdpUrl) *)
| NewContext                         (* browser.newContext() *)
| NewPage                            (* context.newPage() *)
| Page (c : PageCall)                (* page.<c>(...) *)
| PrepareBinaryData                  (* this.helpers.prepareBinaryData(...) *)
| Close.                             (* browser.close() *)

(** The log of a run: the calls issued while item [i] is processed, and a
    marker for the point where [browser], [context] and [page] are all bound
    (line 384 done, the [try] of line 386 entered). *)
Inductive Event : Type :=
| Called (i : nat) (c : Call)
| SessionAcquired (i : nat).

(** What the remote side and the host helpers answer during item [i]. *)
Record World : Type := mkWorld {
  chromium_executablePath : string;
  connectOverCDP : nat -> string -> outcome unit;
  contexts_0 : nat -> bool;            (* browser.contexts()[0] is defined *)
  newContext : nat -> outcome unit;
  pages_0 : nat -> bool;               (* context.pages()[0] is defined *)
  newPage : nat -> outcome unit;
  page : nat -> PageCall -> outcome string;   (* the Buffer, for a screenshot *)
  prepareBinaryData : nat -> string -> outcome BinaryData;
  close : nat -> outcome unit
}.

Abbreviation M := (Exec Event).

Definition call {A} (i : nat) (c : Call) (o : outcome A) : M A :=
  await (Called i c) o.

(** { json: { operation } } *)
Definition succeeded (operation : string) : INodeExecutionData :=
  mkData (mkJson (Some operation) None) None None.

(** Lines 382-384: connect, then reuse or create the context and the page. *)
Definition acquire (w : World) (i : nat) (cdpUrl : string) : M unit :=
  call i (ConnectOverCDP cdpUrl) (connectOverCDP w i cdpUrl) ;;
  (if contexts_0 w i then mret tt else call i NewContext (newContext w i)) ;;
  (if pages_0 w i then mret tt else call i NewPage (newPage w i)) ;;
  emit (SessionAcquired i).

(** Whether the three awaits of [acquire] resolve. *)
Definition acquires (w : World) (i : nat) (cdpUrl : string) : bool :=
  is_resolved (connectOverCDP w i cdpUrl)
  && (contexts_0 w i || is_resolved (newContext w i))
  && (pages_0 w i || is_resolved (newPage w i)).

(** await page.<c>(...); results.push({ json: { operation } }); *)
Definition simple (w : World) (i : nat) (operation : string) (c : PageCall) : M unit :=
  call i (Page c) (page w i c) ;;
  push (succeeded operation).

Definition is_load_state (state : string) : bool :=
  String.eqb state "load" || String.eqb state "domcontentloaded"
  || String.eqb state "networkidle".

(** The switch of lines 387-542. *)
Definition dispatch (w : World) (i : nat) (p : Params) : M unit :=
  let operation := operation p in
  let timeout := timeout p in
  if String.eqb operation "goto" then
    simple w i operation (Goto (url p) timeout)
  else if String.eqb operation "screenshot" then
    screenshot ← call i (Page (Screenshot (fullPage p) (quality p) timeout))
                   (page w i (Screenshot (fullPage p) (quality p) timeout));
    data ← call i PrepareBinaryData (prepareBinaryData w i screenshot);
    push (mkData (mkJson (Some operation) None) (Some ("screenshot", data)) None)
  else if String.eqb operation "click" then
    simple w i operation (Click (selector p) timeout)
  else if String.eqb operation "fill" || String.eqb operation "type" then
    simple w i operation (Fill (selector p) (text p) timeout)
  else if String.eqb operation "selectOption" then
    simple w i operation (SelectOption (selector p) (value p) timeout)
  else if String.eqb operation "press" then
    simple w i operation (Press (selector p) (key p) timeout)
  else if String.eqb operation "waitForTimeout" then
    simple w i operation (WaitForTimeout (duration p))
  else if String.eqb operation "waitForSelector" then
    simple w i operation (WaitForSelector (selector p) timeout)
  else if String.eqb operation "waitForLoadState" then
    if negb (is_load_state (state p)) then
      throw (ApplicationError (String.append "Unsupported load state: " (state p)))
    else
      simple w i operation (WaitForLoadState (state p) timeout)
  else if String.eqb operation "evaluate" then
    simple w i operation (Evaluate (script p) timeout)
  else
    throw (ApplicationError (String.append "Unsupported operation: " operation)).

(** The record of the catch block, lines 544-549, for the caught [e]. *)
Definition failed (e : Error) : INodeExecutionData :=
  mkData (mkJson None None) None
    (Some (mkNodeOperationError e "Failed to execute Playwright operation")).

(** The catch block of lines 543-549. *)
Definition on_error (error : Error) : M unit := push (failed error).

(** The body of the loop, lines 367-552. *)
Definition processItem (w : World) (i : nat) (p : Params) : M unit :=
  if String.eqb (operation p) "executablePath" then
    push (mkData (mkJson (Some (operation p)) (Some (chromium_executablePath w))) None None)
  else
    acquire w i (cdpUrl p) ;;
    try_catch_finally (dispatch w i p) on_error (call i Close (close w i)).

(** execute, lines 362-556. *)
Definition execute (w : World) (items : list Params)
    : M (list (list INodeExecutionData)) :=
  return_results (for_items (processItem w) 0 items).

(** The operations of the switch, and of the node. *)
Definition switch_operations : list string :=
  ["goto"; "screenshot"; "click"; "fill"; "type"; "selectOption"; "press";
   "waitForTimeout"; "waitForSelector"; "waitForLoadState"; "evaluate"].

Definition supported (operation : string) : bool :=
  String.eqb operation "executablePath"
  || existsb (String.eqb operation) switch_operations.

(** A world in which every call resolves and nothing is open yet. *)
Definition calm : World :=
  mkWorld "/usr/bin/chromium" (fun _ _ => Resolved tt) (fun _ => false)
    (fun _ => Resolved tt) (fun _ => false) (fun _ => Resolved tt)
    (fun _ _ => Resolved "bytes") (fun _ _ => Resolved "screenshot.jpg")
    (fun _ => Resolved tt).

Definition item (operation : string) : Params :=
  mkParams operation "ws://localhost:9222" 30000 "https://example.com" false 80
    "#q" "hello" "Enter" "v" "load" 1000 "1+1".

(** *** The vocabulary of the properties *)

(** The item during which an event was logged. *)
Definition event_item (ev : Event) : nat :=
  match ev with Called i _ | SessionAcquired i => i end.

Definition is_acquired (ev : Event) : bool :=
  match ev with SessionAcquired _ => true | _ => false end.

Definition is_close (ev : Event) : bool :=
  match ev with Called _ Close => true | _ => false end.

(** Neither the acquisition of a session nor a release. *)
Definition quiet (ev : Event) : Prop := is_acquired ev = false /\ is_close ev = false.

(** The calls the switch issues for item [i]. *)
Definition in_try (i : nat) (ev : Event) : Prop :=
  match ev with
  | Called j (Page _) | Called j PrepareBinaryData => j = i
  | _ => False
  end.

(** Item [i] gets a session: it is not the short-circuited operation, and
    connect, context and page are all obtained. *)
Definition session_acquired (w : World) (i : nat) (p : Params) : bool :=
  negb (String.eqb (operation p) "executablePath") && acquires w i (cdpUrl p).

(** The log of a turn that acquired a session: the session is acquired once
    and the turn ends with its one and only release. *)
Definition released_once (i : nat) (tr : list Event) : Prop :=
  exists pre acts,
    tr = pre ++ SessionAcquired i :: acts ++ [Called i Close]
    /\ Forall quiet pre /\ Forall quiet acts.

Definition lifecycle (w : World) (i : nat) (p : Params) (tr : list Event) : Prop :=
  if session_acquired w i p then released_once i tr else Forall quiet tr.

(** The turn of item [i] can complete: the item needs no session, or its
    session is acquired and its release resolves. *)
Definition serviceable (w : World) (i : nat) (p : Params) : bool :=
  String.eqb (operation p) "executablePath"
  || (acquires w i (cdpUrl p) && is_resolved (close w i)).

(** One record per item, the record at [i] being the one the turn of item
    [i] pushed; a record without error names the item's operation. *)
Definition one_per_item (w : World) (items : list Params)
    (rs : list INodeExecutionData) : Prop :=
  length rs = length items
  /\ forall i p, items !! i = Some p ->
       exists r, rs !! i = Some r /\ results (processItem w i p) = [r]
                 /\ (error r = None -> j_operation (json r) = Some (operation p)).

Definition with_operation (operation : string) (p : Params) : Params :=
  mkParams operation (cdpUrl p) (timeout p) (url p) (fullPage p) (quality p)
    (selector p) (text p) (key p) (value p) (state p) (duration p) (script p).

Definition with_quality (quality : Z) (p : Params) : Params :=
  mkParams (operation p) (cdpUrl p) (timeout p) (url p) (fullPage p) quality
    (selector p) (text p) (key p) (value p) (state p) (duration p) (script p).

Definition with_state (state : string) (p : Params) : Params :=
  mkParams (operation p) (cdpUrl p) (timeout p) (url p) (fullPage p) (quality p)
    (selector p) (text p) (key p) (value p) state (duration p) (script p).

(** The record [r] with its operation name, if it has one, replaced. *)
Definition relabel (operation : string) (r : INodeExecutionData) : INodeExecutionData :=
  mkData (mkJson (match j_operation (json r) with
                  | Some _ => Some operation
                  | None => None
                  end) (j_result (json r)))
    (binary r) (error r).

(** *** Three statements of the specification, as it words them *)

(** A call that connected a browser. *)
Definition is_connected (w : World) (ev : Event) : bool :=
  match ev with
  | Called i (ConnectOverCDP u) => is_resolved (connectOverCDP w i u)
  | _ => false
  end.

(** The turn of item [i] connects a browser and then leaves the loop from
    line 383 or 384: there is no context, or no page, and none is created. *)
Definition connection_left_open (w : World) (i : nat) (p : Params) : bool :=
  negb (String.eqb (operation p) "executablePath")
  && is_resolved (connectOverCDP w i (cdpUrl p))
  && negb (acquires w i (cdpUrl p)).

(** "For every request in which a session is acquired (browser connected),
    that session is released exactly once: after any run, the number of
    acquire calls equals the number of release calls." *)
Definition connections_all_closed (w : World) (items : list Params) : Prop :=
  count (is_connected w) (trace (execute w items))
  = count is_close (trace (execute w items)).

(** "runAll produces exactly one OperationResult per input OperationRequest,
    in the same order." *)
Definition one_result_per_request (w : World) (items : list Params) : Prop :=
  exists rs, completion (execute w items) = Resolved [rs] /\ one_per_item w items rs.

(** "An operation identifier outside the fixed enumeration produces zero
    session-acquire calls." *)
Definition unknown_operation_before_acquire (w : World) (items : list Params) : Prop :=
  forall i p, items !! i = Some p -> supported (operation p) = false ->
    forall u, Called i (ConnectOverCDP u) ∉ trace (execute w items).

(** "A capture-screenshot request with a quality out of the declared bound
    is rejected before any remote call." *)
Definition quality_validated (w : World) (items : list Params) : Prop :=
  forall i p, items !! i = Some p -> operation p = "screenshot" ->
    (quality p < quality_minValue \/ quality_maxValue < quality p)%Z ->
    forall c, Called i c ∉ trace (execute w items).

(** "type produces the same OperationResult as fill." *)
Definition type_same_as_fill (w : World) (p : Params) : Prop :=
  execute w [with_operation "type" p] = execute w [with_operation "fill" p].

(** A world in which every action on the page is rejected. *)
Definition stormy : World :=
  mkWorld "/usr/bin/chromium" (fun _ _ => Resolved tt) (fun _ => true)
    (fun _ => Resolved tt) (fun _ => true) (fun _ => Resolved tt)
    (fun _ _ => Rejected (RemoteError "Timeout 30000ms exceeded"))
    (fun _ _ => Resolved "screenshot.jpg")
    (fun _ => Resolved tt).

(** A world whose browser has no context and refuses to create one. *)
Definition barren : World :=
  mkWorld "/usr/bin/chromium" (fun _ _ => Resolved tt) (fun _ => false)
    (fun _ => Rejected (RemoteError "Target closed")) (fun _ => false)
    (fun _ => Resolved tt) (fun _ _ => Resolved "bytes")
    (fun _ _ => Resolved "screenshot.jpg") (fun _ => Resolved tt).

End Playwright.

(** ** Structured-extraction schemas (zod) and the field list *)

Module Schema.

(** What a z.object does with keys its shape does not name. *)
Inductive UnknownKeys : Type := Strip | Passthrough.

(** The zod types the node builds. *)
#[warnings="-register-all"]
Inductive ZodType : Type :=
| ZString                                   (* z.string() *)
| ZNumber                                   (* z.number() *)
| ZBoolean                                  (* z.boolean() *)
| ZAny                                      (* z.any() *)
| ZArray (element : ZodType)                (* z.array(element) *)
| ZObject (shape : list (string * ZodType)) (unknownKeys : UnknownKeys)
                                            (* z.object(shape), .passthrough() *)
| ZOptional (inner : ZodType).              (* inner.optional() *)

(** type Field, lines 232-236. *)
Record Field : Type := mkField {
  fieldName : string;
  fieldType : string;
  optional : bool
}.

(** *** The own properties of an ordinary object *)

(** The value of a decimal digit. *)
Definition digit (c : Ascii.ascii) : option N :=
  let n := Ascii.N_of_ascii c in
  if ((48 <=? n) && (n <=? 57))%N then Some (n - 48)%N else None.

Fixpoint digits_value (s : string) (acc : N) : option N :=
  match s with
  | EmptyString => Some acc
  | String c rest =>
      match digit c with
      | Some d => digits_value rest (10 * acc + d)%N
      | None => None
      end
  end.

(** An array index: a key that is the canonical decimal text (no leading
    zero) of a number from 0 to 2^32 - 2. *)
Definition array_index (key : string) : option N :=
  match key with
  | EmptyString => None
  | String c rest =>
      if (Ascii.N_of_ascii c =? 48)%N && negb (String.eqb rest "") then None
      else
        match digits_value key 0 with
        | Some n => if (n <=? 4294967294)%N then Some n else None
        | None => None
        end
  end.

(** The own keys of an object are listed array indices first, in ascending
    order, then the other keys in the order they were created.  Whether a
    new key [key] is listed before the key [k]: *)
Definition listed_before (key k : string) : bool :=
  match array_index key, array_index k with
  | Some n, Some m => (n <? m)%N
  | Some _, None => true
  | None, _ => false
  end.

(** The own properties of a shape, in the order the object lists them. *)
Fixpoint shape_get (shape : list (string * ZodType)) (key : string) : option ZodType :=
  match shape with
  | [] => None
  | (k, t) :: rest => if String.eqb k key then Some t else shape_get rest key
  end.

(** An own key takes a new value and keeps its place. *)
Fixpoint shape_replace (shape : list (string * ZodType)) (key : string) (zType : ZodType)
    : list (string * ZodType) :=
  match shape with
  | [] => []
  | (k, t) :: rest =>
      if String.eqb k key then (k, zType) :: rest
      else (k, t) :: shape_replace rest key zType
  end.

(** A new key takes its place in the listing. *)
Fixpoint shape_insert (shape : list (string * ZodType)) (key : string) (zType : ZodType)
    : list (string * ZodType) :=
  match shape with
  | [] => [(key, zType)]
  | (k, t) :: rest =>
      if listed_before key k then (key, zType) :: shape
      else (k, t) :: shape_insert rest key zType
  end.

(** *** Assignment to shape[key] *)

(** The shape of line 599 starts as {}, whose prototype is Object.prototype.
    Assigning the key __proto__ runs the setter of Object.prototype: the
    assigned zod type becomes the prototype of the shape and no own property
    is created.  From then on an assignment to a key the shape does not own
    is looked up on that prototype first, and what it finds there belongs to
    the zod library: *)
Inductive Inherited : Type :=
| OwnKey               (* nothing, or a writable member: the shape gets the key *)
| NoKey                (* a setter takes the value: the shape gets no key *)
| Thrown (e : Error).  (* a getter without setter, a read-only member: the
                          assignment throws in strict code *)

(** What the prototype chain does with an assignment of [zType] to [key],
    after the assignments made so far (oldest first). *)
Definition Chain : Type := list (string * ZodType) -> string -> ZodType -> Inherited.

(** The shape while the loop runs: its own properties and the assignments
    made so far. *)
Record Shape : Type := mkShape {
  own : list (string * ZodType);
  assigned : list (string * ZodType)
}.

(** Whether a zod type has become the prototype of the shape. *)
Definition inherits (assigned : list (string * ZodType)) : bool :=
  existsb (fun kv => String.eqb (fst kv) "__proto__") assigned.

(** shape[key] = zType, line 624. *)
Definition assign (chain : Chain) (shape : Shape) (key : string) (zType : ZodType)
    : outcome Shape :=
  let done := assigned shape ++ [(key, zType)] in
  match shape_get (own shape) key with
  | Some _ => Resolved (mkShape (shape_replace (own shape) key zType) done)
  | None =>
      if String.eqb key "__proto__" then Resolved (mkShape (own shape) done)
      else if inherits (assigned shape) then
        match chain (assigned shape) key zType with
        | OwnKey => Resolved (mkShape (shape_insert (own shape) key zType) done)
        | NoKey => Resolved (mkShape (own shape) done)
        | Thrown e => Rejected e
        end
      else Resolved (mkShape (shape_insert (own shape) key zType) done)
  end.

(** The switch of lines 604-622. *)
Definition zType_of (fieldType : string) : ZodType :=
  if String.eqb fieldType "string" then ZString
  else if String.eqb fieldType "number" then ZNumber
  else if String.eqb fieldType "boolean" then ZBoolean
  else if String.eqb fieldType "array" then ZArray ZAny
  else if String.eqb fieldType "object" then ZObject [] Passthrough
  else ZAny.

(** The zod type a field contributes, lines 602-624. *)
Definition field_zod (f : Field) : ZodType :=
  let zType := zType_of (fieldType f) in
  if optional f then ZOptional zType else zType.

(** One turn of the loop of lines 601-625. *)
Definition add_field (chain : Chain) (shape : Shape) (f : Field) : outcome Shape :=
  assign chain shape (fieldName f) (field_zod f).

(** The loop of lines 601-625: a thrown error ends it. *)
Fixpoint add_fields (chain : Chain) (fields : list Field) (shape : Shape) : outcome Shape :=
  match fields with
  | [] => Resolved shape
  | f :: rest =>
      match add_field chain shape f with
      | Resolved next => add_fields chain rest next
      | Rejected e => Rejected e
      end
  end.

(** fieldsToZodSchema, lines 598-628.  The object schema is told by the own
    properties of its shape. *)
Definition fieldsToZodSchema (chain : Chain) (fields : list Field) : outcome ZodType :=
  match add_fields chain fields (mkShape [] []) with
  | Resolved shape => Resolved (ZObject (own shape) Strip)
  | Rejected e => Rejected e
  end.

Arguments fieldsToZodSchema : simpl never.

(** The named fields of an object schema. *)
Definition fields_of (schema : ZodType) : list (string * ZodType) :=
  match schema with
  | ZObject shape _ => shape
  | _ => []
  end.

Definition field_names (schema : ZodType) : list string := map fst (fields_of schema).

(** A key of an object schema must be present unless its type is optional. *)
Definition required (t : ZodType) : bool :=
  match t with ZOptional _ => false | _ => true end.

(** *** The field list as the specification words it *)

(** The kinds of a FieldList entry. *)
Inductive Kind : Type := KString | KNumber | KBoolean | KArray | KObject.

(** The option values of the [fieldType] parameter, lines 362-386. *)
Definition kind_value (k : Kind) : string :=
  match k with
  | KString => "string"
  | KNumber => "number"
  | KBoolean => "boolean"
  | KArray => "array"
  | KObject => "object"
  end.

(** An entry {name, kind, optional} of a FieldList. *)
Record Entry : Type := mkEntry {
  name : string;
  kind : Kind;
  is_optional : bool
}.

Definition to_field (e : Entry) : Field :=
  mkField (name e) (kind_value (kind e)) (is_optional e).

(** The canonical field of an entry, in the specification's words: the
    stated kind, an array of unconstrained elements for [array], an open
    object for [object], wrapped as optional when the entry says so. *)
Definition canonical_kind (k : Kind) : ZodType :=
  match k with
  | KString => ZString
  | KNumber => ZNumber
  | KBoolean => ZBoolean
  | KArray => ZArray ZAny
  | KObject => ZObject [] Passthrough
  end.

Definition canonical (e : Entry) : ZodType :=
  if is_optional e then ZOptional (canonical_kind (kind e)) else canonical_kind (kind e).

(** What the loop keeps true of the shape: no key is listed twice, and
    __proto__ is no own key. *)
Definition well_keyed (shape : Shape) : Prop :=
  NoDup (map fst (own shape)) /\ "__proto__" ∉ map fst (own shape).

(** A zod library whose types stand in the way of no assignment. *)
Definition plain : Chain := fun _ _ _ => OwnKey.

(** "Each entry maps directly to a canonical field of the stated kind." *)
Definition each_entry_resolved (chain : Chain) (entries : list Entry) : Prop :=
  exists schema,
    fieldsToZodSchema chain (map to_field entries) = Resolved schema
    /\ forall e, e ∈ entries ->
         shape_get (fields_of schema) (name e) = Some (canonical e).

(** The entry that decides the field [key]: the last one of that name. *)
Fixpoint deciding_entry (entries : list Entry) (key : string) : option Entry :=
  match entries with
  | [] => None
  | e :: rest =>
      match deciding_entry rest key with
      | Some later => Some later
      | None => if String.eqb (name e) key then Some e else None
      end
  end.

End Schema.

(** ** The Stagehand node (src/nodes/Stagehand/Stagehand.node.ts) *)

Module Stagehand.
Import Schema.

(** The parameters the host resolves for one item. *)
Record Params : Type := mkParams {
  operation : string;
  cdpUrl : string;
  enableCaching : bool;       (* options.enableCaching *)
  instruction : string;
  schemaSource : string;
  fields : list Field;        (* fields.field *)
  exampleJson : string;
  jsonSchema : string;
  manualZod : string
}.

(** A member of the attached model object: a string, or a value whose typeof
    is not 'string'. *)
Inductive Member : Type :=
| Str (s : string)
| NotStr.

(** The object on the AiLanguageModel input, as far as [execute] inspects
    it.  [None] for a member is "the key is not in the object". *)
Record ModelObject : Type := mkModel {
  lc_namespace : option (list string);
  model : option Member;
  apiKey : option Member
}.

(** What [execute] holds once the five asserts have passed. *)
Record ModelCredential : Type := mkCredential {
  providerNamespace : list string;
  modelName : string;
  credentialKey : string
}.

(** The options of new StagehandCore({...}), lines 492-502. *)
Record Config : Type := mkConfig {
  env : string;
  cfg_enableCaching : bool;
  cfg_modelName : string;
  cfg_apiKey : string;
  cfg_cdpUrl : string
}.

Inductive Call : Type :=
| Init (c : Config)                                  (* stagehand.init() *)
| Act (instruction : string)                         (* stagehand.page.act *)
| Extract (instruction : string) (schema : ZodType)  (* stagehand.page.extract *)
| Observe (instruction : string)                     (* stagehand.page.observe *)
| Close.                                             (* stagehand.close() *)

Inductive Event : Type :=
| Called (i : nat) (c : Call)
| SessionAcquired (i : nat).   (* init() resolved, the try of line 505 entered *)

(** What the engine answers during item [i], what evaluating the three
    textual schema sources yields (JSON.parse, the converters and
    new Function, lines 533, 539 and 545), and what the zod library does
    with an assignment that reaches the prototype chain of one of its types
    (line 624, after a field named __proto__). *)
Record World : Type := mkWorld {
  init : nat -> Config -> outcome unit;
  act : nat -> string -> outcome string;
  extract : nat -> string -> ZodType -> outcome string;
  observe : nat -> string -> outcome string;
  close : nat -> outcome unit;
  schema_of_example : nat -> string -> outcome ZodType;
  schema_of_jsonSchema : nat -> string -> outcome ZodType;
  schema_of_manual : nat -> string -> outcome ZodType;
  zod_chain : Chain              (* the prototype chains of the zod types *)
}.

Abbreviation M := (Exec Event).

Definition call {A} (i : nat) (c : Call) (o : outcome A) : M A :=
  await (Called i c) o.

(** A local computation that may throw; nothing is logged. *)
Definition eval {A} (o : outcome A) : M A := mkExec [] [] o.

(** isChatInstance, lines 592-596; [None] is undefined or null. *)
Definition namespace_of (m : option ModelObject) : list string :=
  match m with
  | Some o => match lc_namespace o with Some ns => ns | None => [] end
  | None => []
  end.

Definition isChatInstance (m : option ModelObject) : bool :=
  existsb (String.eqb "chat_models") (namespace_of m).

(** assert(condition, msg) of n8n-workflow: throws new Error(msg). *)
Definition assert (condition : bool) (msg : string) : M unit :=
  if condition then mret tt else throw (AssertError msg).

(** 'key' in model *)
Definition has_key (m : option ModelObject) (get : ModelObject -> option Member) : bool :=
  match m with
  | Some o => match get o with Some _ => true | None => false end
  | None => false
  end.

(** typeof model.key === 'string' *)
Definition is_string (m : option ModelObject) (get : ModelObject -> option Member) : bool :=
  match m with
  | Some o => match get o with Some (Str _) => true | _ => false end
  | None => false
  end.

(** model.key, read as a string once the asserts have narrowed its type. *)
Definition string_of (m : option ModelObject) (get : ModelObject -> option Member) : string :=
  match m with
  | Some o => match get o with Some (Str s) => s | _ => "" end
  | None => ""
  end.

(** The messages of the five asserts. *)
Definition assert_messages : list string :=
  ["A Chat Model is required";
   "Model is not defined in the input connection data";
   "API Key is not defined in the input connection data";
   "Model must be a string";
   "API Key must be a string"].

(** The members the loop reads from the narrowed model. *)
Definition credential_of (m : option ModelObject) : ModelCredential :=
  mkCredential (namespace_of m) (string_of m model) (string_of m apiKey).

(** The asserts of lines 480-484, in order. *)
Definition check_model (m : option ModelObject) : M ModelCredential :=
  assert (isChatInstance m) "A Chat Model is required" ;;
  assert (has_key m model) "Model is not defined in the input connection data" ;;
  assert (has_key m apiKey) "API Key is not defined in the input connection data" ;;
  assert (is_string m model) "Model must be a string" ;;
  assert (is_string m apiKey) "API Key must be a string" ;;
  mret (credential_of m).

(** s.includes(sub) *)
Fixpoint includes (s sub : string) : bool :=
  String.prefix sub s
  || match s with
     | EmptyString => false
     | String _ rest => includes rest sub
     end.

(** Lines 491-502; lc_namespace[2] of a shorter array is undefined, which the
    concatenation prints as "undefined". *)
Definition config (c : ModelCredential) (p : Params) : Config :=
  let provider :=
    if includes (modelName c) "deepseek" then "deepseek"
    else nth 2 (providerNamespace c) "undefined" in
  mkConfig "LOCAL" (enableCaching p)
    (String.append provider (String.append "/" (modelName c)))
    (credentialKey c) (cdpUrl p).

(** { json: { operation, result } } *)
Definition succeeded (operation result : string) : INodeExecutionData :=
  mkData (mkJson (Some operation) (Some result)) None None.

(** The inner switch of lines 524-552. *)
Definition resolve_schema (w : World) (i : nat) (p : Params) : M ZodType :=
  let schemaSource := schemaSource p in
  if String.eqb schemaSource "fieldList" then
    eval (fieldsToZodSchema (zod_chain w) (fields p))
  else if String.eqb schemaSource "example" then eval (schema_of_example w i (exampleJson p))
  else if String.eqb schemaSource "jsonSchema" then eval (schema_of_jsonSchema w i (jsonSchema p))
  else if String.eqb schemaSource "manual" then eval (schema_of_manual w i (manualZod p))
  else throw (ApplicationError (String.append "Unsupported schema source: " schemaSource)).

(** The switch of lines 506-583. *)
Definition dispatch (w : World) (i : nat) (p : Params) : M unit :=
  let operation := operation p in
  if String.eqb operation "act" then
    result ← call i (Act (instruction p)) (act w i (instruction p));
    push (succeeded operation result)
  else if String.eqb operation "extract" then
    schema ← resolve_schema w i p;
    result ← call i (Extract (instruction p) schema) (extract w i (instruction p) schema);
    push (succeeded operation result)
  else if String.eqb operation "observe" then
    result ← call i (Observe (instruction p)) (observe w i (instruction p));
    push (succeeded operation result)
  else
    throw (ApplicationError (String.append "Unsupported operation: " operation)).

(** Lines 492-503. *)
Definition acquire (w : World) (c : ModelCredential) (i : nat) (p : Params) : M unit :=
  call i (Init (config c p)) (init w i (config c p)) ;;
  emit (SessionAcquired i).

(** The body of the loop, lines 487-586: there is no catch. *)
Definition processItem (w : World) (c : ModelCredential) (i : nat) (p : Params) : M unit :=
  acquire w c i p ;;
  try_finally (dispatch w i p) (call i Close (close w i)).

(** execute, lines 475-590. *)
Definition execute (w : World) (m : option ModelObject) (items : list Params)
    : M (list (list INodeExecutionData)) :=
  return_results (c ← check_model m; for_items (processItem w c) 0 items).

Definition supported (operation : string) : bool :=
  existsb (String.eqb operation) ["act"; "extract"; "observe"].

(** A world in which every call resolves. *)
Definition calm : World :=
  mkWorld (fun _ _ => Resolved tt) (fun _ _ => Resolved "acted")
    (fun _ _ _ => Resolved "extracted") (fun _ _ => Resolved "observed")
    (fun _ => Resolved tt)
    (fun _ _ => Resolved (ZObject [] Strip)) (fun _ _ => Resolved (ZObject [] Strip))
    (fun _ _ => Resolved (ZObject [] Strip)) plain.

Definition item (operation : string) : Params :=
  mkParams operation "ws://localhost:9222" true "find the title" "fieldList"
    [mkField "title" "string" false] "{}" "{}" "z.object({})".

Definition chat_model : ModelObject :=
  mkModel (Some ["langchain"; "chat_models"; "openai"]) (Some (Str "gpt-4o"))
    (Some (Str "sk-test")).

(** *** The vocabulary of the properties *)

Definition event_item (ev : Event) : nat :=
  match ev with Called i _ | SessionAcquired i => i end.

Definition is_acquired (ev : Event) : bool :=
  match ev with SessionAcquired _ => true | _ => false end.

Definition is_close (ev : Event) : bool :=
  match ev with Called _ Close => true | _ => false end.

Definition quiet (ev : Event) : Prop := is_acquired ev = false /\ is_close ev = false.

(** The calls the switch issues for item [i]. *)
Definition in_try (i : nat) (ev : Event) : Prop :=
  match ev with
  | Called j (Act _) | Called j (Extract _ _) | Called j (Observe _) => j = i
  | _ => False
  end.

(** Item [i] gets a session: init() resolves. *)
Definition session_acquired (w : World) (c : ModelCredential) (i : nat) (p : Params) : bool :=
  is_resolved (init w i (config c p)).

Definition released_once (i : nat) (tr : list Event) : Prop :=
  exists pre acts,
    tr = pre ++ SessionAcquired i :: acts ++ [Called i Close]
    /\ Forall quiet pre /\ Forall quiet acts.

Definition lifecycle (w : World) (c : ModelCredential) (i : nat) (p : Params)
    (tr : list Event) : Prop :=
  if session_acquired w c i p then released_once i tr else Forall quiet tr.

(** The turn of item [i] can complete: nothing it awaits is rejected and
    nothing in its switch throws. *)
Definition serviceable (w : World) (c : ModelCredential) (i : nat) (p : Params) : bool :=
  is_resolved (init w i (config c p))
  && is_resolved (completion (dispatch w i p))
  && is_resolved (close w i).

Definition one_per_item (w : World) (c : ModelCredential) (items : list Params)
    (rs : list INodeExecutionData) : Prop :=
  length rs = length items
  /\ forall i p, items !! i = Some p ->
       exists r, rs !! i = Some r /\ results (processItem w c i p) = [r]
                 /\ error r = None /\ j_operation (json r) = Some (operation p).

(** A ModelCredential in the specification's words: a chat model with a
    string model name and a string API key. *)
Definition has_credential (m : option ModelObject) : bool :=
  match m with
  | Some (mkModel (Some namespace) (Some (Str _)) (Some (Str _))) =>
      existsb (String.eqb "chat_models") namespace
  | _ => false
  end.

(** "An operation identifier outside the fixed enumeration produces zero
    session-acquire calls." *)
Definition unknown_operation_before_acquire (w : World) (m : option ModelObject)
    (items : list Params) : Prop :=
  forall i p, items !! i = Some p -> supported (operation p) = false ->
    forall cfg, Called i (Init cfg) ∉ trace (execute w m items).

(** "A failure on item i becomes a Failed record for item i, and the batch
    produces results for all items it receives." *)
Definition failure_contained (w : World) (m : option ModelObject)
    (items : list Params) : Prop :=
  exists rs, completion (execute w m items) = Resolved [rs] /\ length rs = length items.

(** "runAll produces exactly one OperationResult per input OperationRequest,
    in the same order." *)
Definition one_result_per_request (w : World) (m : option ModelObject)
    (items : list Params) : Prop :=
  exists rs,
    completion (execute w m items) = Resolved [rs]
    /\ one_per_item w (credential_of m) items rs.

(** A world in which every natural-language action is rejected. *)
Definition stormy : World :=
  mkWorld (fun _ _ => Resolved tt)
    (fun _ _ => Rejected (RemoteError "Timeout 30000ms exceeded"))
    (fun _ _ _ => Rejected (RemoteError "Timeout 30000ms exceeded"))
    (fun _ _ => Rejected (RemoteError "Timeout 30000ms exceeded"))
    (fun _ => Resolved tt)
    (fun _ _ => Resolved (ZObject [] Strip)) (fun _ _ => Resolved (ZObject [] Strip))
    (fun _ _ => Resolved (ZObject [] Strip)) plain.

Definition credential : ModelCredential :=
  mkCredential ["langchain"; "chat_models"; "openai"] "gpt-4o" "sk-test".

End Stagehand.


(** ** Further vocabulary: what a log contains *)

Module Observations.

(** A call on the page issued for item [i] of the Playwright node. *)
Definition pw_page_call_of (i : nat) (ev : Playwright.Event) : bool :=
  match ev with
  | Playwright.Called j (Playwright.Page _) => Nat.eqb j i
  | _ => false
  end.

(** A natural-language action issued for item [i] of the Stagehand node. *)
Definition sh_action_of (i : nat) (ev : Stagehand.Event) : bool :=
  match ev with
  | Stagehand.Called j (Stagehand.Act _)
  | Stagehand.Called j (Stagehand.Extract _ _)
  | Stagehand.Called j (Stagehand.Observe _) => Nat.eqb j i
  | _ => false
  end.

(** The record of the short-circuited operation, lines 370-375 of part_000. *)
Definition pw_path_record (w : Playwright.World) (p : Playwright.Params)
    : INodeExecutionData :=
  mkData (mkJson (Some (Playwright.operation p))
            (Some (Playwright.chromium_executablePath w))) None None.

(** The log of lines 382-384 of part_000, call by call: each await is
    reached only if the one before it resolved, and the two creations are
    asked for only when there is nothing to reuse. *)
Definition pw_acquisition_log (w : Playwright.World) (i : nat) (cdpUrl : string)
    : list Playwright.Event :=
  Playwright.Called i (Playwright.ConnectOverCDP cdpUrl)
  :: if is_resolved (Playwright.connectOverCDP w i cdpUrl) then
       (if Playwright.contexts_0 w i then [] else [Playwright.Called i Playwright.NewContext])
       ++ if Playwright.contexts_0 w i || is_resolved (Playwright.newContext w i) then
            (if Playwright.pages_0 w i then [] else [Playwright.Called i Playwright.NewPage])
            ++ if Playwright.pages_0 w i || is_resolved (Playwright.newPage w i)
               then [Playwright.SessionAcquired i] else []
          else []
     else [].

(** The timeout option a page call carries, if it carries one. *)
Definition pw_timeout_of (c : Playwright.PageCall) : option Z :=
  match c with
  | Playwright.Goto _ t | Playwright.Screenshot _ _ t | Playwright.Click _ t
  | Playwright.Fill _ _ t | Playwright.SelectOption _ _ t | Playwright.Press _ _ t
  | Playwright.WaitForSelector _ t | Playwright.WaitForLoadState _ t
  | Playwright.Evaluate _ t => Some t
  | Playwright.WaitForTimeout _ => None
  end.

(** The operations of the Stagehand node. *)
Definition sh_operations : list string := ["act"; "extract"; "observe"].

(** The four values of schemaSource the inner switch has a case for. *)
Definition schema_sources : list string :=
  ["fieldList"; "example"; "jsonSchema"; "manual"].

(** The kinds of field the switch of fieldsToZodSchema has a case for. *)
Definition field_kinds : list string :=
  ["string"; "number"; "boolean"; "array"; "object"].

(** The field that decides the key [key]: the last one of that name. *)
Fixpoint deciding_field (fields : list Schema.Field) (key : string)
    : option Schema.Field :=
  match fields with
  | [] => None
  | f :: rest =>
      match deciding_field rest key with
      | Some later => Some later
      | None => if String.eqb (Schema.fieldName f) key then Some f else None
      end
  end.

End Observations.

(** ** JavaScript text operations used by the CDP Tools node *)

Module Text.

(** A JavaScript string as the sequence of its UTF-16 code units. *)
Abbreviation Text := (list N).

(** \d of a regular expression without the u flag: "0" to "9". *)
Definition is_digit (c : N) : bool := ((48 <=? c) && (c <=? 57))%N.

(** The longest prefix of [s] whose code units satisfy [f], and the rest. *)
Fixpoint take_while (f : N -> bool) (s : Text) : Text :=
  match s with
  | [] => []
  | c :: rest => if f c then c :: take_while f rest else []
  end.

Fixpoint drop_while (f : N -> bool) (s : Text) : Text :=
  match s with
  | [] => []
  | c :: rest => if f c then drop_while f rest else s
  end.

(** An index argument of slice, made relative to the start and clamped to
    the length: a negative one counts from the end. *)
Definition clamp (len : nat) (k : Z) : nat :=
  if (k <? 0)%Z then Z.to_nat (Z.max (Z.of_nat len + k) 0)
  else Nat.min (Z.to_nat k) len.

(** s.slice(start, end) *)
Definition slice (s : Text) (start finish : Z) : Text :=
  let from := clamp (length s) start in
  let to := clamp (length s) finish in
  take (to - from) (drop from s).

(** s.slice(start) *)
Definition slice_from (s : Text) (start : Z) : Text :=
  drop (clamp (length s) start) s.

(** The decimal digits of a number, most significant first. *)
Fixpoint uint_text (d : Decimal.uint) : Text :=
  match d with
  | Decimal.Nil => []
  | Decimal.D0 d => 48%N :: uint_text d
  | Decimal.D1 d => 49%N :: uint_text d
  | Decimal.D2 d => 50%N :: uint_text d
  | Decimal.D3 d => 51%N :: uint_text d
  | Decimal.D4 d => 52%N :: uint_text d
  | Decimal.D5 d => 53%N :: uint_text d
  | Decimal.D6 d => 54%N :: uint_text d
  | Decimal.D7 d => 55%N :: uint_text d
  | Decimal.D8 d => 56%N :: uint_text d
  | Decimal.D9 d => 57%N :: uint_text d
  end.

(** `${n}` for a counter n *)
Definition decimal (n : nat) : Text := uint_text (Nat.to_uint n).

(** Whether [sep] stands at the head of [s]. *)
Fixpoint starts_with (sep s : Text) : bool :=
  match sep, s with
  | [], _ => true
  | a :: sep', b :: s' => (a =? b)%N && starts_with sep' s'
  | _ :: _, [] => false
  end.

(** The text before the first occurrence of [sep] (all of [s] without one),
    and the text after it, if there is one. *)
Fixpoint before_first (sep s : Text) : Text :=
  if starts_with sep s then []
  else match s with
       | [] => []
       | c :: rest => c :: before_first sep rest
       end.

Fixpoint after_first (sep s : Text) : option Text :=
  if starts_with sep s then Some (drop (length sep) s)
  else match s with
       | [] => None
       | _ :: rest => after_first sep rest
       end.

(** s.split(sep)[1] for a non-empty separator: the piece between the first
    and the second occurrence; undefined (None) without an occurrence. *)
Definition split_1 (sep s : Text) : option Text :=
  before_first sep <$> after_first sep s.

(** s.includes(c) for a single code unit *)
Definition includes (c : N) (s : Text) : bool := existsb (N.eqb c) s.

(** a === b on strings *)
Fixpoint eqb (a b : Text) : bool :=
  match a, b with
  | [], [] => true
  | x :: a', y :: b' => (x =? y)%N && eqb a' b'
  | _, _ => false
  end.

(** White space and line terminators: TAB, LF, VT, FF, CR, SP, NBSP,
    U+1680, U+2000 to U+200A, LS, PS, U+202F, U+205F, U+3000, U+FEFF. *)
Definition is_space (c : N) : bool :=
  (((9 <=? c) && (c <=? 13)) || (c =? 32) || (c =? 160) || (c =? 5760)
   || ((8192 <=? c) && (c <=? 8202)) || (c =? 8232) || (c =? 8233)
   || (c =? 8239) || (c =? 8287) || (c =? 12288) || (c =? 65279))%N.

(** s.trim() *)
Definition trim (s : Text) : Text :=
  rev (drop_while is_space (rev (drop_while is_space s))).

(** A literal of printable ASCII. *)
Definition text (s : string) : Text := map Ascii.N_of_ascii (list_ascii_of_string s).

End Text.

(** ** The CDP Tools node (src/nodes/CdpTools/CdpTools.node.ts): the labels *)

Module Labels.
Import Text.

(** A match of /\[((?:\d+-)?\d+)\] /g: match.index, match[0], match[1]. *)
Record Match : Type := mkMatch {
  index : nat;
  whole : Text;
  group : Text
}.

(** "[" id "] " *)
Definition bracketed (id : Text) : Text := 91%N :: id ++ [93%N; 32%N].

(** One attempt of the pattern at the head of [s], giving the captured id.
    After "[" (91) the pattern reads digits, then either "] " (93, 32) or
    "-" (45), digits and "] ".  Backtracking cannot change the outcome:
    shortening a run of digits leaves a digit where "-" or "]" is required,
    and leaving out the optional group leaves "-" where "]" is required. *)
Definition match_here (s : Text) : option Text :=
  match s with
  | c :: r =>
      if (c =? 91)%N then
        let d1 := take_while is_digit r in
        let r1 := drop_while is_digit r in
        match d1 with
        | [] => None
        | _ :: _ =>
            if starts_with [93%N; 32%N] r1 then Some d1
            else
              match r1 with
              | h :: r2 =>
                  if (h =? 45)%N then
                    let d2 := take_while is_digit r2 in
                    match d2 with
                    | [] => None
                    | _ :: _ =>
                        if starts_with [93%N; 32%N] (drop_while is_digit r2)
                        then Some (d1 ++ h :: d2)
                        else None
                    end
                  else None
              | [] => None
              end
        end
      else None
  | [] => None
  end.

(** The matches of the global pattern in [s], from position [pos] on, the
    next [skip] code units being part of the match just found: each attempt
    starts where the last match ended, or one code unit further after a
    failed attempt. *)
Fixpoint scan (s : Text) (pos skip : nat) : list Match :=
  match s with
  | [] => []
  | _ :: rest =>
      match skip with
      | S k => scan rest (S pos) k
      | 0 =>
          match match_here s with
          | Some id => mkMatch pos (bracketed id) id :: scan rest (S pos) (length id + 2)
          | None => scan rest (S pos) 0
          end
      end
  end.

(** [...tree.matchAll(/\[((?:\d+-)?\d+)\] /g)] *)
Definition matchAll (s : Text) : list Match := scan s 0 0.

(** nodesMap: a Record<string, string>, as the list of its own entries.  The
    object is never enumerated; it is read by key, under ids of the pattern
    (line 63), which are no names of Object.prototype, so that nodesMap[key]
    is the own property or undefined. *)
Fixpoint map_get (m : list (Text * Text)) (key : Text) : option Text :=
  match m with
  | [] => None
  | (k, v) :: rest => if Text.eqb k key then Some v else map_get rest key
  end.

Fixpoint map_set (m : list (Text * Text)) (key value : Text) : list (Text * Text) :=
  match m with
  | [] => [(key, value)]
  | (k, v) :: rest =>
      if Text.eqb k key then (k, value) :: rest else (k, v) :: map_set rest key value
  end.

(** The variables of the loop of lines 55-65: tree, offset, i and xpaths. *)
Record Loop : Type := mkLoop {
  tree : Text;
  offset : Z;
  counter : nat;
  xpaths : list (option Text)
}.

(** One turn of the loop of lines 55-65. *)
Definition step (nodesMap : list (Text * Text)) (st : Loop) (m : Match) : Loop :=
  let before := slice (tree st) 0 (Z.of_nat (index m) + offset st) in
  let after :=
    slice_from (tree st) (Z.of_nat (index m) + Z.of_nat (length (whole m)) + offset st) in
  let replace := bracketed (decimal (counter st)) in
  mkLoop (before ++ replace ++ after)
    (offset st + (Z.of_nat (length replace) - Z.of_nat (length (whole m))))
    (S (counter st))
    (xpaths st ++ [map_get nodesMap (group m)]).

(** Lines 50-65: the tree and the xpaths after the loop.  The matches are
    those of the tree as it was before the loop. *)
Definition renumber (nodesMap : list (Text * Text)) (tree : Text) : Loop :=
  fold_left (step nodesMap) (matchAll tree) (mkLoop tree 0 0 []).

(** *** The same rewriting in one pass *)

(** [s] copied from left to right, each match replaced by the next number
    in brackets, starting from [k]. *)
Fixpoint relabel (s : Text) (k skip : nat) : Text :=
  match s with
  | [] => []
  | c :: rest =>
      match skip with
      | S n => relabel rest k n
      | 0 =>
          match match_here s with
          | Some id => bracketed (decimal k) ++ relabel rest (S k) (length id + 2)
          | None => c :: relabel rest k 0
          end
      end
  end.

(** [s] without its matches. *)
Fixpoint erase (s : Text) (skip : nat) : Text :=
  match s with
  | [] => []
  | c :: rest =>
      match skip with
      | S n => erase rest n
      | 0 =>
          match match_here s with
          | Some id => erase rest (length id + 2)
          | None => c :: erase rest 0
          end
      end
  end.

(** No "[" *)
Definition not_open (c : N) : bool := negb (c =? 91)%N.

(** An id of the pattern: digits, or digits, a hyphen and digits. *)
Definition all_digits (s : Text) : Prop := s <> [] /\ Forall (fun c => is_digit c = true) s.

Definition is_id (id : Text) : Prop :=
  all_digits id
  \/ exists a b, id = a ++ 45%N :: b /\ all_digits a /\ all_digits b.

End Labels.

(** ** The CDP Tools node: execute and its two helpers *)

Module CdpTools.
Import Text Labels.

(** What a statement throws or an await rejects with. *)
Inductive Thrown : Type :=
| TypeError                       (* a member read on undefined *)
| Rejection (message : string).   (* a rejection of Stagehand *)

Inductive outcome (A : Type) : Type :=
| Resolved (a : A)
| Rejected (e : Thrown).
Arguments Resolved {A} a.
Arguments Rejected {A} e.

Definition is_resolved {A} (o : outcome A) : bool :=
  match o with Resolved _ => true | Rejected _ => false end.

(** An ObserveResult of Stagehand, with the members the node reads. *)
Record ObserveResult : Type := mkObserveResult {
  description : Text;
  selector : Text
}.

(** An element of the answer of the stand-in language model, lines 143-148. *)
Record Element : Type := mkElement {
  elementId : Text;
  e_description : Text;
  method : Text;
  arguments : list Text
}.

(** The two Stagehand instances of a turn: the one getAccessibilityTree
    creates and the one getNodesMap creates. *)
Inductive Session : Type := TreeSession | MapSession.

Inductive Call : Type :=
| Init (cdpUrl : Text)          (* stagehand.init(), on localBrowserLaunchOptions.cdpUrl *)
| Observe (instruction : Text)  (* page.observe(instruction) *)
| Close.                        (* stagehand.close() *)

(** The log of a run: the calls issued while item [i] is processed. *)
Inductive Event : Type := Called (i : nat) (s : Session) (c : Call).

(** What Stagehand answers during item [i].  [prompt] is what
    prompt.toString() gives once observe is over: the text of
    options.messages[1].content the stand-in model of getAccessibilityTree
    was last given, or nothing when [prompt] was left undefined.  The answer
    of observe in getNodesMap may depend on the elements its stand-in model
    offers; the completion of close() in getNodesMap may depend on how often
    it was called before. *)
Record World : Type := mkWorld {
  tree_init : nat -> Text -> outcome unit;
  tree_observe : nat -> outcome unit;
  prompt : nat -> option Text;
  tree_close : nat -> outcome unit;
  map_init : nat -> Text -> outcome unit;
  map_observe : nat -> list Element -> outcome (list ObserveResult);
  map_close : nat -> nat -> outcome unit
}.

(** new NodeOperationError(node, error, { message }) *)
Record NodeOperationError : Type := mkNodeOperationError {
  cause : Thrown;
  message : string
}.

(** The [json] member of an output record: {} or { accessibilityTree,
    xpaths }; an entry of xpaths is a selector or undefined. *)
Inductive Json : Type :=
| EmptyJson
| PageJson (accessibilityTree : Text) (xpaths : list (option Text)).

Record Data : Type := mkData {
  json : Json;
  error : option NodeOperationError
}.

(** The effect of running a block: what it pushed on [results], the calls
    it logged, and its completion. *)
Record Job (A : Type) : Type := mkJob {
  pushed : list Data;
  log : list Event;
  completion : outcome A
}.
Arguments mkJob {A} _ _ _.
Arguments pushed {A} _.
Arguments log {A} _.
Arguments completion {A} _.

Definition ret {A} (a : A) : Job A := mkJob [] [] (Resolved a).

Definition throw {A} (e : Thrown) : Job A := mkJob [] [] (Rejected e).

Definition bind {A B} (m : Job A) (k : A -> Job B) : Job B :=
  match completion m with
  | Resolved a =>
      let n := k a in
      mkJob (pushed m ++ pushed n) (log m ++ log n) (completion n)
  | Rejected e => mkJob (pushed m) (log m) (Rejected e)
  end.

#[global] Instance job_ret : MRet Job := @ret.
#[global] Instance job_bind : MBind Job := fun A B k m => bind m k.

(** results.push(r) *)
Definition push (r : Data) : Job unit := mkJob [r] [] (Resolved tt).

(** await of a call: the call is logged, its completion is the world's. *)
Definition await {A} (ev : Event) (o : outcome A) : Job A := mkJob [] [ev] o.

(** try { body } catch { handler } *)
Definition try_catch {A} (body : Job A) (handler : Thrown -> Job A) : Job A :=
  match completion body with
  | Resolved _ => body
  | Rejected e =>
      let h := handler e in
      mkJob (pushed body ++ pushed h) (log body ++ log h) (completion h)
  end.

(** try { body } finally { fin }: [fin] always runs; an error thrown by
    [fin] replaces the completion of [body]. *)
Definition try_finally {A} (body : Job A) (fin : Job unit) : Job A :=
  mkJob (pushed body ++ pushed fin) (log body ++ log fin)
    (match completion fin with
     | Resolved _ => completion body
     | Rejected e => Rejected e
     end).

(** for (let i = start; i < items.length; i++) { body i items[i] } *)
Fixpoint for_items {P} (body : nat -> P -> Job unit) (i : nat) (items : list P)
    : Job unit :=
  match items with
  | [] => mret tt
  | p :: rest => body i p ;; for_items body (S i) rest
  end.

(** return [results]; *)
Definition return_results (m : Job unit) : Job (list (list Data)) :=
  mkJob (pushed m) (log m)
    (match completion m with
     | Resolved _ => Resolved [pushed m]
     | Rejected e => Rejected e
     end).

Definition is_close (s : Session) (ev : Event) : bool :=
  match ev, s with
  | Called _ TreeSession Close, TreeSession => true
  | Called _ MapSession Close, MapSession => true
  | _, _ => false
  end.

(** How often close() of session [s] was called in a log. *)
Definition closes (s : Session) (tr : list Event) : nat :=
  length (List.filter (is_close s) tr).

(** 'Accessibility Tree: \n' *)
Definition separator : Text := text "Accessibility Tree: " ++ [10%N].

(** getAccessibilityTree, lines 91-120.  The stand-in model stores the
    prompt and throws; whatever observe makes of that is caught. *)
Definition getAccessibilityTree (w : World) (i : nat) (cdpUrl : Text) : Job Text :=
  await (Called i TreeSession (Init cdpUrl)) (tree_init w i cdpUrl) ;;
  try_finally
    (try_catch (await (Called i TreeSession (Observe [])) (tree_observe w i))
       (fun _ => mret tt))
    (await (Called i TreeSession Close) (tree_close w i)) ;;
  match prompt w i with
  | None => throw TypeError                     (* undefined.toString() *)
  | Some content =>
      match split_1 separator content with
      | None => throw TypeError                 (* undefined.trim() *)
      | Some piece => mret (trim piece)
      end
  end.

(** data.elements of the stand-in model of getNodesMap, lines 137-149: the
    ids of [tree] that include "-" (45). *)
Definition elements (tree : Text) : list Element :=
  map (fun m => mkElement (group m) (group m) [] [])
    (List.filter (fun m => includes 45 (group m)) (matchAll tree)).

(** acc[result.description] = result.selector on an object made as {}: the
    own property is set, created if need be; but the key __proto__ runs the
    setter of Object.prototype, which ignores a string, and nothing is
    created. *)
Definition assign_selector (acc : list (Text * Text)) (result : ObserveResult)
    : list (Text * Text) :=
  if Text.eqb (description result) (text "__proto__") then acc
  else map_set acc (description result) (selector result).

(** results.reduce((acc, result) => { acc[result.description] =
    result.selector; return acc }, {}), lines 165-171. *)
Definition reduce (results : list ObserveResult) : list (Text * Text) :=
  fold_left assign_selector results [].

(** getNodesMap, lines 125-178.  The try block ends in a return statement:
    it completes with [Some] of the returned value, the empty catch block
    with [None], after which line 177 returns {}.  The finally block runs
    either way, after the close() of line 164 if that was reached. *)
Definition getNodesMap (w : World) (i : nat) (cdpUrl tree : Text)
    : Job (list (Text * Text)) :=
  await (Called i MapSession (Init cdpUrl)) (map_init w i cdpUrl) ;;
  let body : Job (option (list (Text * Text))) :=
    results ← await (Called i MapSession (Observe (text "x")))
                (map_observe w i (elements tree));
    await (Called i MapSession Close) (map_close w i 0) ;;
    mret (Some (reduce results)) in
  returned ← try_finally (try_catch body (fun _ => mret None))
               (await (Called i MapSession Close)
                  (map_close w i (closes MapSession (log body))));
  match returned with
  | Some nodesMap => mret nodesMap
  | None => mret []
  end.

(** { json: { accessibilityTree: tree, xpaths } } *)
Definition page_record (nodesMap : list (Text * Text)) (tree : Text) : Data :=
  let out := renumber nodesMap tree in
  mkData (PageJson (Labels.tree out) (Labels.xpaths out)) None.

(** The record of the catch block, lines 74-79, for the caught [e]. *)
Definition failed (e : Thrown) : Data :=
  mkData EmptyJson (Some (mkNodeOperationError e "Failed to get data from the page")).

(** The body of the loop, lines 47-81, [cdpUrl] being the parameter 'url'
    of item [i]. *)
Definition processItem (w : World) (i : nat) (cdpUrl : Text) : Job unit :=
  try_catch
    (tree ← getAccessibilityTree w i cdpUrl;
     nodesMap ← getNodesMap w i cdpUrl tree;
     push (page_record nodesMap tree))
    (fun error => push (failed error)).

(** execute, lines 42-85. *)
Definition execute (w : World) (items : list Text) : Job (list (list Data)) :=
  return_results (for_items (processItem w) 0 items).

(** *** The vocabulary of the properties *)

(** The tree getAccessibilityTree returns for item [i], if it returns. *)
Definition tree_of (w : World) (i : nat) (cdpUrl : Text) : option Text :=
  match completion (getAccessibilityTree w i cdpUrl) with
  | Resolved tree => Some tree
  | Rejected _ => None
  end.

(** A world in which every call resolves; the prompt shows two nodes, and
    observe finds the one with a hyphenated id. *)
Definition calm : World :=
  mkWorld (fun _ _ => Resolved tt) (fun _ => Rejected (Rejection "Intentional error to stop execution"))
    (fun _ => Some (text "instruction: " ++ [10%N] ++ separator
                    ++ text "[0-12] link: Home" ++ [10%N] ++ text "[7] text: x" ++ [10%N]))
    (fun _ => Resolved tt) (fun _ _ => Resolved tt)
    (fun _ es => Resolved (map (fun e => mkObserveResult (e_description e)
                                          (text "xpath=/html/body/a")) es))
    (fun _ _ => Resolved tt).

Definition with_tree_observe (o : nat -> outcome unit) (w : World) : World :=
  mkWorld (tree_init w) o (prompt w) (tree_close w) (map_init w)
    (map_observe w) (map_close w).

Definition with_prompt (p : option Text) (w : World) : World :=
  mkWorld (tree_init w) (tree_observe w) (fun _ => p) (tree_close w) (map_init w)
    (map_observe w) (map_close w).

Definition with_map_observe (o : outcome (list ObserveResult)) (w : World) : World :=
  mkWorld (tree_init w) (tree_observe w) (prompt w) (tree_close w) (map_init w)
    (fun _ _ => o) (map_close w).

End CdpTools.

(** ** Proof automation *)

(** Case analysis on the string tests of a switch. *)
Ltac case_strings :=
  repeat match goal with
         | |- context [String.eqb ?a ?b] => destruct (String.eqb a b) eqn:?
         end.

(** Runs the primitive effects of a block. *)
Ltac run := unfold await, push, throw, emit; cbn.

(** Case analysis on what the world answers to the calls of a switch. *)
Ltac pw_answers :=
  repeat match goal with
         | |- context [Playwright.page ?w ?i ?c] =>
             destruct (Playwright.page w i c) eqn:?; cbn
         | |- context [Playwright.prepareBinaryData ?w ?i ?c] =>
             destruct (Playwright.prepareBinaryData w i c) eqn:?; cbn
         | |- context [Playwright.is_load_state ?s] =>
             destruct (Playwright.is_load_state s) eqn:?; cbn
         end.

Ltac sh_answers :=
  repeat match goal with
         | |- context [Stagehand.act ?w ?i ?s] => destruct (Stagehand.act w i s) eqn:?; cbn
         | |- context [Stagehand.observe ?w ?i ?s] =>
             destruct (Stagehand.observe w i s) eqn:?; cbn
         | |- context [Stagehand.schema_of_example ?w ?i ?s] =>
             destruct (Stagehand.schema_of_example w i s) eqn:?; cbn
         | |- context [Stagehand.schema_of_jsonSchema ?w ?i ?s] =>
             destruct (Stagehand.schema_of_jsonSchema w i s) eqn:?; cbn
         | |- context [Stagehand.schema_of_manual ?w ?i ?s] =>
             destruct (Stagehand.schema_of_manual w i s) eqn:?; cbn
         | |- context [Schema.fieldsToZodSchema ?c ?f] =>
             destruct (Schema.fieldsToZodSchema c f) eqn:?; cbn
         | |- context [Stagehand.extract ?w ?i ?s ?z] =>
             destruct (Stagehand.extract w i s z) eqn:?; cbn
         end.

(** Case analysis on the five answers that decide an acquisition. *)
Ltac pw_acquisitions w i u :=
  destruct (Playwright.connectOverCDP w i u) as [[]|?], (Playwright.contexts_0 w i),
    (Playwright.newContext w i) as [[]|?], (Playwright.pages_0 w i),
    (Playwright.newPage w i) as [[]|?]; cbn.

(** * Facts about the execution monad *)

Section ExecFacts.
Context {Ev : Type}.
Implicit Types (fin : Exec Ev unit) (handler : Error -> Exec Ev unit).

Lemma bind_trace {A B} (m : Exec Ev A) (k : A -> Exec Ev B) :
  trace (m ≫= k) =
  trace m ++ match completion m with Resolved a => trace (k a) | Rejected _ => [] end.
Proof.
  unfold mbind, exec_bind, bind. destruct (completion m); simpl; [done|].
  by rewrite app_nil_r.
Qed.

Lemma bind_results {A B} (m : Exec Ev A) (k : A -> Exec Ev B) :
  results (m ≫= k) =
  results m ++ match completion m with Resolved a => results (k a) | Rejected _ => [] end.
Proof.
  unfold mbind, exec_bind, bind. destruct (completion m); simpl; [done|].
  by rewrite app_nil_r.
Qed.

Lemma bind_completion {A B} (m : Exec Ev A) (k : A -> Exec Ev B) :
  completion (m ≫= k) =
  match completion m with Resolved a => completion (k a) | Rejected e => Rejected e end.
Proof. unfold mbind, exec_bind, bind. by destruct (completion m). Qed.

(** A catch block that only pushes a record logs nothing and absorbs the
    error. *)
Lemma try_catch_trace (body : Exec Ev unit) handler :
  (forall e, trace (handler e) = []) -> trace (try_catch body handler) = trace body.
Proof.
  intros H. unfold try_catch. destruct (completion body); [done|]. simpl.
  by rewrite H, app_nil_r.
Qed.

Lemma try_catch_completion (body : Exec Ev unit) handler :
  (forall e, completion (handler e) = Resolved tt) ->
  completion (try_catch body handler) = Resolved tt.
Proof.
  intros H. unfold try_catch. destruct (completion body) as [[]|e] eqn:E; [done|]. apply H.
Qed.

Lemma try_catch_results (body : Exec Ev unit) handler :
  results (try_catch body handler) =
  results body ++
  match completion body with Resolved _ => [] | Rejected e => results (handler e) end.
Proof.
  unfold try_catch. destruct (completion body); [|done]. by rewrite app_nil_r.
Qed.

(** The finally block runs whatever the body did. *)
Lemma try_finally_trace (body : Exec Ev unit) fin :
  trace (try_finally body fin) = trace body ++ trace fin.
Proof. done. Qed.

Lemma try_finally_results (body : Exec Ev unit) fin :
  results (try_finally body fin) = results body ++ results fin.
Proof. done. Qed.

Lemma count_app (f : Ev -> bool) t1 t2 : count f (t1 ++ t2) = count f t1 + count f t2.
Proof. unfold count. by rewrite List.filter_app, length_app. Qed.

Lemma count_cons (f : Ev -> bool) ev t :
  count f (ev :: t) = (if f ev then 1 else 0) + count f t.
Proof. unfold count. simpl. by destruct (f ev). Qed.

Lemma count_zero (f : Ev -> bool) t : Forall (fun ev => f ev = false) t -> count f t = 0.
Proof.
  induction 1 as [|ev t Hev _ IH]; [done|]. by rewrite count_cons, Hev, IH.
Qed.

Section Loop.
Context {P : Type} (body : nat -> P -> Exec Ev unit).

Lemma turns_le i items : turns body i items ≤ length items.
Proof.
  revert i. induction items as [|p rest IH]; intros i; simpl; [lia|].
  destruct (completion (body i p)); [specialize (IH (S i))|]; lia.
Qed.

(** The log of the loop is the logs of the turns it started, in order. *)
Lemma for_items_trace i items :
  trace (for_items body i items) =
  concat (imap (fun j p => trace (body (i + j) p)) (take (turns body i items) items)).
Proof.
  revert i. induction items as [|p rest IH]; intros i; simpl; [done|].
  rewrite bind_trace. destruct (completion (body i p)) as [[]|e]; simpl.
  - rewrite Nat.add_0_r. f_equal. rewrite IH. f_equal.
    apply imap_ext. intros j x _. simpl. by rewrite Nat.add_succ_r.
  - by rewrite Nat.add_0_r.
Qed.

(** The loop completes normally exactly when every turn does. *)
Lemma for_items_resolved i items :
  completion (for_items body i items) = Resolved tt <->
  forall j p, items !! j = Some p -> completion (body (i + j) p) = Resolved tt.
Proof.
  revert i. induction items as [|p rest IH]; intros i; simpl.
  - split; [intros _ j p Hj; by rewrite lookup_nil in Hj | done].
  - rewrite bind_completion. split.
    + intros H j q Hj. destruct (completion (body i p)) as [[]|e] eqn:E; [|done].
      destruct j as [|j]; simpl in Hj.
      * injection Hj as <-. by rewrite Nat.add_0_r.
      * rewrite Nat.add_succ_r. by apply (proj1 (IH (S i)) H j q).
    + intros H. pose proof (H 0 p eq_refl) as H0. rewrite Nat.add_0_r in H0.
      rewrite H0. apply IH. intros j q Hj.
      specialize (H (S j) q Hj). by rewrite Nat.add_succ_r in H.
Qed.

(** When it does, the records on [results] are those of the turns, one
    turn after the other. *)
Lemma for_items_results i items :
  completion (for_items body i items) = Resolved tt ->
  results (for_items body i items) =
  concat (imap (fun j p => results (body (i + j) p)) items).
Proof.
  revert i. induction items as [|p rest IH]; intros i; simpl; [done|].
  rewrite bind_completion, bind_results.
  destruct (completion (body i p)) as [[]|e]; [|done].
  intros H. rewrite Nat.add_0_r. f_equal. rewrite (IH _ H).
  f_equal. apply imap_ext. intros j x _. simpl. by rewrite Nat.add_succ_r.
Qed.

(** Every logged event was logged by the turn of some item. *)
Lemma for_items_trace_elem i items ev :
  ev ∈ trace (for_items body i items) ->
  exists j p, items !! j = Some p /\ ev ∈ trace (body (i + j) p).
Proof.
  revert i. induction items as [|p rest IH]; intros i; simpl.
  - intros H. by apply elem_of_nil in H.
  - rewrite bind_trace. intros [H|H]%elem_of_app.
    + exists 0, p. by rewrite Nat.add_0_r.
    + destruct (completion (body i p)) as [[]|e]; [|by apply elem_of_nil in H].
      destruct (IH _ H) as (j & q & Hj & Hev).
      exists (S j), q. by rewrite Nat.add_succ_r.
Qed.

(** A property of logs that the empty log has and that appending keeps
    holds of the loop's log once it holds of each turn's. *)
Lemma for_items_trace_ind (Q : list Ev -> Prop) i items :
  Q [] ->
  (forall t1 t2, Q t1 -> Q t2 -> Q (t1 ++ t2)) ->
  (forall j p, Q (trace (body j p))) ->
  Q (trace (for_items body i items)).
Proof.
  intros Hnil Happ Hbody. revert i.
  induction items as [|p rest IH]; intros i; simpl; [done|].
  rewrite bind_trace. apply Happ; [done|].
  destruct (completion (body i p)); [apply IH | done].
Qed.

(** Counting over a run whose turns balance two kinds of event, up to the
    turn that ends it. *)
Lemma for_items_count_eq (f g : Ev -> bool) i items :
  (forall j p, items !! j = Some p ->
     count f (trace (body (i + j) p)) = count g (trace (body (i + j) p))) ->
  count f (trace (for_items body i items)) = count g (trace (for_items body i items)).
Proof.
  revert i. induction items as [|p rest IH]; intros i H; simpl; [done|].
  rewrite bind_trace, !count_app.
  pose proof (H 0 p eq_refl) as H0. rewrite Nat.add_0_r in H0. rewrite H0. f_equal.
  destruct (completion (body i p)); [|done].
  apply IH. intros j q Hj. specialize (H (S j) q Hj).
  by rewrite Nat.add_succ_r in H.
Qed.

Lemma for_items_count_surplus (f g : Ev -> bool) i items k p e :
  items !! k = Some p ->
  (forall j q, j < k -> items !! j = Some q ->
     completion (body (i + j) q) = Resolved tt
     /\ count f (trace (body (i + j) q)) = count g (trace (body (i + j) q))) ->
  completion (body (i + k) p) = Rejected e ->
  count f (trace (body (i + k) p)) = S (count g (trace (body (i + k) p))) ->
  count f (trace (for_items body i items))
  = S (count g (trace (for_items body i items)))
  /\ completion (for_items body i items) = Rejected e.
Proof.
  revert i k. induction items as [|q rest IH]; intros i k Hk Hbefore Hfail Hsurplus.
  - by rewrite lookup_nil in Hk.
  - simpl. rewrite bind_trace, bind_completion, !count_app.
    destruct k as [|k]; simpl in Hk.
    + injection Hk as ->. rewrite Nat.add_0_r in Hfail, Hsurplus.
      rewrite Hfail, Hsurplus. simpl. split; [|done].
      replace (count f []) with 0 by reflexivity.
      replace (count g []) with 0 by reflexivity. lia.
    + destruct (Hbefore 0 q (Nat.lt_0_succ k) eq_refl) as [H0 H0c].
      rewrite Nat.add_0_r in H0, H0c. rewrite H0, H0c.
      destruct (IH (S i) k Hk) as [Hc He].
      * intros j r Hj Hr. rewrite Nat.add_succ_l, <- Nat.add_succ_r.
        apply Hbefore; [lia|done].
      * by rewrite Nat.add_succ_l, <- Nat.add_succ_r.
      * by rewrite Nat.add_succ_l, <- Nat.add_succ_r.
      * rewrite Hc. split; [lia|done].
Qed.

(** Concatenating one-record lists: the record at [j] is the one of turn [j]. *)
Lemma singletons_lookup (rs : nat -> P -> list INodeExecutionData) items :
  (forall j p, items !! j = Some p -> exists r, rs j p = [r]) ->
  length (concat (imap rs items)) = length items
  /\ forall j p, items !! j = Some p ->
       exists r, concat (imap rs items) !! j = Some r /\ rs j p = [r].
Proof.
  revert rs. induction items as [|q rest IH]; intros rs H; simpl.
  - split; [done|]. intros j p Hj. by rewrite lookup_nil in Hj.
  - destruct (H 0 q eq_refl) as [r0 Hr0]. rewrite Hr0. simpl.
    destruct (IH (rs ∘ S)) as [Hlen Hlk].
    { intros j p Hj. apply (H (S j) p Hj). }
    split; [by rewrite Hlen|].
    intros [|j] p Hj; simpl in *.
    + injection Hj as <-. eauto.
    + apply (Hlk j p Hj).
Qed.
End Loop.
End ExecFacts.

(** * Facts about the Playwright node *)

Module PlaywrightFacts.
Import Playwright.

Lemma pw_in_try_quiet i ev : in_try i ev -> quiet ev.
Proof. destruct ev as [j [| | |c| |]|j]; simpl; by intros. Qed.

Lemma pw_in_try_item i ev : in_try i ev -> event_item ev = i.
Proof. destruct ev as [j [| | |c| |]|j]; simpl; by intros. Qed.

(** The switch only calls the page and the binary helper. *)
Lemma pw_dispatch_in_try w i p : Forall (in_try i) (trace (dispatch w i p)).
Proof.
  unfold dispatch, simple, call. case_strings; run; pw_answers; repeat constructor.
Qed.

(** The switch pushes one record when it completes, none when it throws. *)
Lemma pw_dispatch_results w i p :
  match completion (dispatch w i p) with
  | Resolved _ =>
      exists r, results (dispatch w i p) = [r] /\ error r = None /\
                j_operation (json r) = Some (operation p)
  | Rejected _ => results (dispatch w i p) = []
  end.
Proof.
  unfold dispatch, simple, call. case_strings; run; pw_answers.
  all: try reflexivity; eexists; repeat split.
Qed.

Lemma pw_acquire_results w i u : results (acquire w i u) = [].
Proof. unfold acquire, call; run. pw_acquisitions w i u; reflexivity. Qed.

Lemma pw_acquire_true w i u :
  acquires w i u = true ->
  completion (acquire w i u) = Resolved tt /\
  exists pre, trace (acquire w i u) = pre ++ [SessionAcquired i] /\ Forall quiet pre.
Proof.
  unfold acquires, acquire, call; run.
  pw_acquisitions w i u; try discriminate; intros _.
  all: split; [reflexivity|].
  all: match goal with |- ex (fun pre => ?l = _ /\ _) => exists (removelast l) end.
  all: split; [reflexivity|]; cbn; repeat constructor.
Qed.

Lemma pw_acquire_false w i u :
  acquires w i u = false ->
  (exists e, completion (acquire w i u) = Rejected e) /\ Forall quiet (trace (acquire w i u)).
Proof.
  unfold acquires, acquire, call; run.
  pw_acquisitions w i u; try discriminate; intros _.
  all: split; [eexists; reflexivity|]; repeat constructor.
Qed.

(** The connection is asked for before anything else. *)
Lemma pw_acquire_connects w i u :
  exists rest, trace (acquire w i u) = Called i (ConnectOverCDP u) :: rest.
Proof. unfold acquire, call; run. pw_acquisitions w i u; eexists; reflexivity. Qed.

Lemma pw_acquire_item w i u ev : ev ∈ trace (acquire w i u) -> event_item ev = i.
Proof.
  unfold acquire, call; run. pw_acquisitions w i u.
  all: rewrite ?elem_of_cons, elem_of_nil; intuition (subst; reflexivity).
Qed.

(** Acquisition calls neither the page nor the helper. *)
Lemma pw_acquire_no_page w i u j c :
  Called j (Page c) ∉ trace (acquire w i u).
Proof.
  unfold acquire, call; run. pw_acquisitions w i u.
  all: rewrite ?elem_of_cons, elem_of_nil; intuition discriminate.
Qed.

Lemma pw_processItem_connects w i p :
  String.eqb (operation p) "executablePath" = false ->
  processItem w i p =
  (acquire w i (cdpUrl p) ;;
   try_catch_finally (dispatch w i p) on_error (call i Close (close w i))).
Proof. intros H. unfold processItem. by rewrite H. Qed.

(** What a turn does once its session is acquired: the switch runs inside
    the try, the catch block absorbs what it throws, and the finally block
    closes the browser. *)
Lemma pw_processItem_acquired w i p :
  session_acquired w i p = true ->
  exists pre,
    Forall quiet pre /\
    trace (acquire w i (cdpUrl p)) = pre ++ [SessionAcquired i] /\
    trace (processItem w i p) =
      pre ++ SessionAcquired i :: trace (dispatch w i p) ++ [Called i Close] /\
    results (processItem w i p) = results (try_catch (dispatch w i p) on_error) /\
    completion (processItem w i p) = close w i.
Proof.
  unfold session_acquired. intros [Hop Hacq]%andb_prop.
  apply negb_true_iff in Hop. rewrite !(pw_processItem_connects _ _ _ Hop).
  destruct (pw_acquire_true _ _ _ Hacq) as (Hc & pre & Htr & Hpre).
  exists pre. split; [done|]. split; [done|].
  rewrite bind_trace, bind_results, bind_completion, Hc, Htr, pw_acquire_results.
  unfold try_catch_finally.
  rewrite try_finally_trace, try_finally_results, try_catch_trace by done.
  repeat split.
  - cbn. by rewrite <- !app_assoc.
  - cbn. by rewrite app_nil_r.
  - cbn. rewrite try_catch_completion by done. by destruct (close w i) as [[]|].
Qed.

(** What a turn does otherwise: the short-circuit, or a failed acquisition
    that leaves the loop. *)
Lemma pw_processItem_not_acquired w i p :
  session_acquired w i p = false ->
  Forall quiet (trace (processItem w i p)) /\
  if String.eqb (operation p) "executablePath" then
    processItem w i p =
    push (mkData (mkJson (Some (operation p)) (Some (chromium_executablePath w))) None None)
  else
    trace (processItem w i p) = trace (acquire w i (cdpUrl p)) /\
    results (processItem w i p) = [] /\
    exists e, completion (processItem w i p) = Rejected e.
Proof.
  unfold session_acquired.
  destruct (String.eqb (operation p) "executablePath") eqn:Hop; cbn.
  - intros _. unfold processItem. rewrite Hop. split; [constructor | done].
  - intros Hacq. rewrite !(pw_processItem_connects _ _ _ Hop).
    destruct (pw_acquire_false _ _ _ Hacq) as ((e & Hc) & Hq).
    rewrite bind_trace, bind_results, bind_completion, Hc, pw_acquire_results, app_nil_r.
    repeat split; eauto.
Qed.

(** Acquisition is not atomic: when the connection is made but no context
    exists and none can be created, the turn leaves the loop from line 383,
    before the try, and close() is not called on the connected browser. *)
Lemma pw_connection_without_context w i p e :
  String.eqb (operation p) "executablePath" = false ->
  connectOverCDP w i (cdpUrl p) = Resolved tt ->
  contexts_0 w i = false ->
  newContext w i = Rejected e ->
  processItem w i p
  = mkExec [] [Called i (ConnectOverCDP (cdpUrl p)); Called i NewContext] (Rejected e).
Proof.
  intros Hop Hconnect Hctx Hnew. rewrite (pw_processItem_connects _ _ _ Hop).
  unfold acquire, call. run. by rewrite Hconnect, Hctx, Hnew.
Qed.

Example barren_goto :
  execute barren [item "goto"]
  = mkExec [] [Called 0 (ConnectOverCDP "ws://localhost:9222"); Called 0 NewContext]
      (Rejected (RemoteError "Target closed")).
Proof. reflexivity. Qed.

Example calm_batch :
  results (execute calm [item "goto"; item "teleport"; item "executablePath"])
  = [succeeded "goto";
     failed (ApplicationError "Unsupported operation: teleport");
     mkData (mkJson (Some "executablePath") (Some "/usr/bin/chromium")) None None].
Proof. reflexivity. Qed.

Lemma pw_processItem_lifecycle w i p : lifecycle w i p (trace (processItem w i p)).
Proof.
  unfold lifecycle. destruct (session_acquired w i p) eqn:H.
  - destruct (pw_processItem_acquired _ _ _ H) as (pre & Hpre & _ & Htr & _).
    exists pre, (trace (dispatch w i p)). split; [done|]. split; [done|].
    eapply Forall_impl; [apply pw_dispatch_in_try | apply pw_in_try_quiet].
  - apply (pw_processItem_not_acquired _ _ _ H).
Qed.

Lemma pw_released_once_counts i tr :
  released_once i tr -> count is_acquired tr = 1 /\ count is_close tr = 1.
Proof.
  intros (pre & acts & -> & Hpre & Hacts).
  rewrite !count_app, !count_cons, !count_app, !count_cons. simpl.
  rewrite !(count_zero is_acquired), !(count_zero is_close); [done|..].
  all: try (eapply Forall_impl; [eassumption | by intros ? []]).
  all: constructor.
Qed.

Lemma pw_processItem_counts w i p :
  count is_acquired (trace (processItem w i p)) = count is_close (trace (processItem w i p)).
Proof.
  pose proof (pw_processItem_lifecycle w i p) as H. unfold lifecycle in H.
  destruct (session_acquired w i p).
  - by destruct (pw_released_once_counts _ _ H) as [-> ->].
  - rewrite (count_zero is_acquired), (count_zero is_close); [done|..].
    all: eapply Forall_impl; [eassumption | by intros ? []].
Qed.

(** Every event of a turn carries the index of its item. *)
Lemma pw_processItem_item w i p ev : ev ∈ trace (processItem w i p) -> event_item ev = i.
Proof.
  destruct (session_acquired w i p) eqn:H.
  - destruct (pw_processItem_acquired _ _ _ H) as (pre & _ & Hacq & -> & _).
    rewrite elem_of_app, elem_of_cons, elem_of_app, list_elem_of_singleton.
    intros [Hev|[->|[Hev| ->]]]; try reflexivity.
    + apply (pw_acquire_item w i (cdpUrl p)). rewrite Hacq. apply elem_of_app. by left.
    + apply pw_in_try_item.
      by apply (proj1 (Forall_forall _ _) (pw_dispatch_in_try w i p)).
  - destruct (pw_processItem_not_acquired _ _ _ H) as [_ Hrest].
    destruct (String.eqb (operation p) "executablePath").
    + rewrite Hrest. cbn. by intros ?%elem_of_nil.
    + destruct Hrest as (-> & _). apply pw_acquire_item.
Qed.

(** A turn completes exactly when the item is serviceable. *)
Lemma pw_processItem_resolved w i p :
  completion (processItem w i p) = Resolved tt <-> serviceable w i p = true.
Proof.
  unfold serviceable. destruct (session_acquired w i p) eqn:H.
  - destruct (pw_processItem_acquired _ _ _ H) as (pre & _ & _ & _ & _ & ->).
    unfold session_acquired in H. apply andb_prop in H as [Hop Hacq].
    apply negb_true_iff in Hop. rewrite Hop, Hacq. cbn.
    destruct (close w i) as [[]|]; cbn; split; done.
  - destruct (pw_processItem_not_acquired _ _ _ H) as [_ Hrest].
    unfold session_acquired in H.
    destruct (String.eqb (operation p) "executablePath"); cbn in *.
    + by rewrite Hrest.
    + destruct Hrest as (_ & _ & e & ->). rewrite H. cbn. split; done.
Qed.

(** A turn that completes has pushed exactly one record. *)
Lemma pw_processItem_one_record w i p :
  completion (processItem w i p) = Resolved tt ->
  exists r, results (processItem w i p) = [r]
            /\ (error r = None -> j_operation (json r) = Some (operation p)).
Proof.
  intros Hc. destruct (session_acquired w i p) eqn:H.
  - destruct (pw_processItem_acquired _ _ _ H) as (pre & _ & _ & _ & -> & _).
    rewrite try_catch_results. pose proof (pw_dispatch_results w i p) as Hd.
    destruct (completion (dispatch w i p)).
    + destruct Hd as (r & -> & _ & Hop). exists r. by rewrite app_nil_r.
    + rewrite Hd. cbn. eexists. split; [reflexivity|]. discriminate.
  - destruct (pw_processItem_not_acquired _ _ _ H) as [_ Hrest].
    destruct (String.eqb (operation p) "executablePath").
    + rewrite Hrest. cbn. eauto.
    + destruct Hrest as (_ & _ & e & He). congruence.
Qed.

Lemma pw_execute_trace w items :
  trace (execute w items) = trace (for_items (processItem w) 0 items).
Proof. done. Qed.

(** execute returns the records of the loop, or throws what the loop threw. *)
Lemma pw_execute_returns w items rss :
  completion (execute w items) = Resolved rss ->
  completion (for_items (processItem w) 0 items) = Resolved tt
  /\ rss = [results (for_items (processItem w) 0 items)].
Proof.
  unfold execute, return_results. cbn.
  destruct (completion (for_items (processItem w) 0 items)) as [[]|]; [|done].
  intros [= <-]. done.
Qed.

Lemma pw_execute_one_per_item w items rss :
  completion (execute w items) = Resolved rss ->
  exists rs, rss = [rs] /\ one_per_item w items rs.
Proof.
  intros [Hc ->]%pw_execute_returns. eexists. split; [reflexivity|].
  rewrite (for_items_results _ _ _ Hc).
  pose proof (proj1 (for_items_resolved _ _ _) Hc) as Hall.
  destruct (singletons_lookup (fun j p => results (processItem w (0 + j) p)) items) as [Hlen Hlk].
  { intros j p Hj. destruct (pw_processItem_one_record w j p (Hall j p Hj)) as (r & Hr & _).
    eauto. }
  split; [done|]. intros i p Hi. destruct (Hlk i p Hi) as (r & Hr & Hone).
  exists r. split; [done|]. split; [done|].
  destruct (pw_processItem_one_record w i p (Hall i p Hi)) as (r' & Hr' & Hop).
  cbn in Hone. assert (r' = r) as -> by congruence. done.
Qed.

(** The switch on an operation outside its cases throws at once. *)
Lemma pw_dispatch_unsupported w i p :
  supported (operation p) = false ->
  String.eqb (operation p) "executablePath" = false
  /\ dispatch w i p
     = throw (ApplicationError (String.append "Unsupported operation: " (operation p))).
Proof.
  unfold supported, switch_operations. cbn. intros H.
  repeat (apply orb_false_elim in H as [? H]). split; [done|].
  unfold dispatch.
  repeat match goal with Hx : String.eqb _ _ = false |- _ => rewrite Hx; clear Hx end.
  reflexivity.
Qed.

(** A switch that throws before calling anything: the turn logs the
    acquisition and the close, and its record is the catch block's. *)
Lemma pw_processItem_throws w i p e :
  String.eqb (operation p) "executablePath" = false ->
  dispatch w i p = throw e ->
  trace (processItem w i p)
  = trace (acquire w i (cdpUrl p))
    ++ (if acquires w i (cdpUrl p) then [Called i Close] else [])
  /\ (acquires w i (cdpUrl p) = true ->
      results (processItem w i p) = [failed e]
      /\ completion (processItem w i p) = close w i).
Proof.
  intros Hop Hd. destruct (acquires w i (cdpUrl p)) eqn:Hacq.
  - assert (session_acquired w i p = true) as H.
    { unfold session_acquired. by rewrite Hop, Hacq. }
    destruct (pw_processItem_acquired _ _ _ H) as (pre & _ & -> & -> & -> & ->).
    rewrite Hd. cbn. split; [by rewrite <- app_assoc | done].
  - assert (session_acquired w i p = false) as H.
    { unfold session_acquired. by rewrite Hop, Hacq. }
    destruct (pw_processItem_not_acquired _ _ _ H) as [_ Hrest].
    rewrite Hop in Hrest. destruct Hrest as (-> & _). by rewrite app_nil_r.
Qed.

Lemma pw_load_state_enumeration s :
  is_load_state s = true <-> s ∈ ["load"; "domcontentloaded"; "networkidle"].
Proof.
  unfold is_load_state. rewrite !elem_of_cons, elem_of_nil, !orb_true_iff.
  rewrite !String.eqb_eq. tauto.
Qed.

(** The events of item [i] in the log of a run are those of its turn. *)
Lemma pw_execute_trace_elem w items i p ev :
  items !! i = Some p -> event_item ev = i ->
  ev ∈ trace (execute w items) -> ev ∈ trace (processItem w i p).
Proof.
  intros Hi Hev (j & q & Hj & Hin)%for_items_trace_elem. cbn in Hin.
  apply pw_processItem_item in Hin as Hitem.
  assert (j = i) as -> by congruence. by assert (q = p) as -> by congruence.
Qed.

(** A turn whose switch calls nothing calls nothing on the page. *)
Lemma pw_processItem_no_page w i p j c :
  trace (dispatch w i p) = [] -> Called j (Page c) ∉ trace (processItem w i p).
Proof.
  intros Hd. destruct (session_acquired w i p) eqn:H.
  - destruct (pw_processItem_acquired _ _ _ H) as (pre & _ & Hacq & -> & _).
    rewrite Hd. cbn. intros Hin.
    apply (pw_acquire_no_page w i (cdpUrl p) j c). rewrite Hacq.
    rewrite elem_of_app, elem_of_cons in Hin. rewrite elem_of_app, list_elem_of_singleton.
    destruct Hin as [?|[?|Hin]]; [by left|done|].
    apply list_elem_of_singleton in Hin. done.
  - destruct (pw_processItem_not_acquired _ _ _ H) as [_ Hrest].
    destruct (String.eqb (operation p) "executablePath").
    + rewrite Hrest. cbn. apply not_elem_of_nil.
    + destruct Hrest as (-> & _). apply pw_acquire_no_page.
Qed.

(** Connections against closes, turn by turn: they balance unless the turn
    leaves its connection open, which makes one connection more. *)
Lemma pw_acquire_connected w i u :
  count (is_connected w) (trace (acquire w i u))
  = if is_resolved (connectOverCDP w i u) then 1 else 0.
Proof.
  unfold acquire, call; run. unfold count.
  destruct (connectOverCDP w i u) as [[]|?] eqn:Hc, (contexts_0 w i),
    (newContext w i) as [[]|?], (pages_0 w i), (newPage w i) as [[]|?]; cbn;
    rewrite ?Hc; reflexivity.
Qed.

Lemma pw_dispatch_connected w i p : count (is_connected w) (trace (dispatch w i p)) = 0.
Proof.
  apply count_zero. eapply Forall_impl; [apply pw_dispatch_in_try|].
  intros [j [| | |c| |]|j]; simpl; by intros.
Qed.

Lemma pw_processItem_connected w i p :
  count (is_connected w) (trace (processItem w i p))
  = count is_close (trace (processItem w i p))
    + (if connection_left_open w i p then 1 else 0).
Proof.
  unfold connection_left_open. destruct (session_acquired w i p) eqn:H.
  - destruct (pw_processItem_acquired _ _ _ H) as (pre & Hpre & Hacq & Htr & _).
    pose proof (pw_acquire_connected w i (cdpUrl p)) as Hcon. rewrite Hacq in Hcon.
    unfold session_acquired in H. apply andb_prop in H as [Hop Hacquires].
    rewrite Hop, Hacquires, andb_false_r.
    assert (is_resolved (connectOverCDP w i (cdpUrl p)) = true) as Hres.
    { unfold acquires in Hacquires. by apply andb_prop in Hacquires as [[? _]%andb_prop _]. }
    rewrite Hres, count_app, count_cons in Hcon. simpl in Hcon.
    replace (count (is_connected w) []) with 0 in Hcon by reflexivity.
    rewrite Htr, !count_app, !count_cons, !count_app, !count_cons.
    rewrite pw_dispatch_connected. simpl.
    rewrite (count_zero is_close pre), (count_zero is_close (trace (dispatch w i p))).
    + replace (count (is_connected w) []) with 0 by reflexivity.
      replace (count is_close []) with 0 by reflexivity. lia.
    + eapply Forall_impl; [apply pw_dispatch_in_try|].
      intros ev Hev. by destruct (pw_in_try_quiet _ _ Hev).
    + eapply Forall_impl; [exact Hpre|]. by intros ev [_ ?].
  - destruct (pw_processItem_not_acquired _ _ _ H) as [Hquiet Hrest].
    rewrite (count_zero is_close (trace (processItem w i p)))
      by (eapply Forall_impl; [exact Hquiet|]; by intros ev [_ ?]).
    unfold session_acquired in H.
    destruct (String.eqb (operation p) "executablePath") eqn:Hop; simpl in *.
    + by rewrite Hrest.
    + destruct Hrest as (-> & _). rewrite pw_acquire_connected, H.
      by destruct (is_resolved (connectOverCDP w i (cdpUrl p))).
Qed.

Lemma pw_left_open_rejected w i p :
  connection_left_open w i p = true ->
  exists e, completion (processItem w i p) = Rejected e.
Proof.
  unfold connection_left_open. intros [[Hop _]%andb_prop Hacq%negb_true_iff]%andb_prop.
  apply negb_true_iff in Hop.
  assert (session_acquired w i p = false) as H.
  { unfold session_acquired. by rewrite Hacq, andb_false_r. }
  destruct (pw_processItem_not_acquired _ _ _ H) as [_ Hrest].
  rewrite Hop in Hrest. by destruct Hrest as (_ & _ & ?).
Qed.

Lemma pw_serviceable_closed w i p :
  serviceable w i p = true -> connection_left_open w i p = false.
Proof.
  unfold serviceable, connection_left_open.
  destruct (String.eqb (operation p) "executablePath"); [done|]. simpl.
  intros [-> _]%andb_prop. by rewrite andb_false_r.
Qed.

End PlaywrightFacts.

(** * Facts about the Stagehand node *)

Module StagehandFacts.
Import Schema Stagehand.

Lemma sh_in_try_quiet i ev : in_try i ev -> quiet ev.
Proof. destruct ev as [j [| | | |]|j]; simpl; by intros. Qed.

Lemma sh_in_try_item i ev : in_try i ev -> event_item ev = i.
Proof. destruct ev as [j [| | | |]|j]; simpl; by intros. Qed.

(** The switch only calls act, extract and observe. *)
Lemma sh_dispatch_in_try w i p : Forall (in_try i) (trace (dispatch w i p)).
Proof.
  unfold dispatch, resolve_schema, call, eval. case_strings; run; sh_answers;
    repeat constructor.
Qed.

(** The switch pushes one record when it completes, none when it throws. *)
Lemma sh_dispatch_results w i p :
  match completion (dispatch w i p) with
  | Resolved _ =>
      exists r, results (dispatch w i p) = [r] /\ error r = None /\
                j_operation (json r) = Some (operation p)
  | Rejected _ => results (dispatch w i p) = []
  end.
Proof.
  unfold dispatch, resolve_schema, call, eval. case_strings; run; sh_answers.
  all: try reflexivity; eexists; repeat split.
Qed.

(** A turn, spelled out: the session is acquired when init() resolves, the
    switch then runs inside the try, and the finally block closes the
    session; what the switch throws is thrown again after the close. *)
Lemma sh_processItem_acquired w c i p :
  session_acquired w c i p = true ->
  trace (processItem w c i p) =
    Called i (Init (config c p)) :: SessionAcquired i
      :: trace (dispatch w i p) ++ [Called i Close] /\
  results (processItem w c i p) = results (dispatch w i p) /\
  completion (processItem w c i p) =
    match close w i with
    | Resolved _ => completion (dispatch w i p)
    | Rejected e => Rejected e
    end.
Proof.
  unfold session_acquired, processItem, acquire, call. run.
  destruct (init w i (config c p)) as [[]|]; [intros _|done]. cbn.
  by rewrite app_nil_r.
Qed.

Lemma sh_processItem_not_acquired w c i p :
  session_acquired w c i p = false ->
  trace (processItem w c i p) = [Called i (Init (config c p))] /\
  results (processItem w c i p) = [] /\
  exists e, completion (processItem w c i p) = Rejected e.
Proof.
  unfold session_acquired, processItem, acquire, call. run.
  destruct (init w i (config c p)) as [[]|]; [done|intros _]. cbn. eauto.
Qed.

Lemma sh_processItem_lifecycle w c i p : lifecycle w c i p (trace (processItem w c i p)).
Proof.
  unfold lifecycle. destruct (session_acquired w c i p) eqn:H.
  - destruct (sh_processItem_acquired _ _ _ _ H) as (-> & _).
    exists [Called i (Init (config c p))], (trace (dispatch w i p)).
    split; [done|]. split; [by repeat constructor|].
    eapply Forall_impl; [apply sh_dispatch_in_try | apply sh_in_try_quiet].
  - destruct (sh_processItem_not_acquired _ _ _ _ H) as (-> & _). by repeat constructor.
Qed.

Lemma sh_released_once_counts i tr :
  released_once i tr -> count is_acquired tr = 1 /\ count is_close tr = 1.
Proof.
  intros (pre & acts & -> & Hpre & Hacts).
  rewrite !count_app, !count_cons, !count_app, !count_cons. simpl.
  rewrite !(count_zero is_acquired), !(count_zero is_close); [done|..].
  all: try (eapply Forall_impl; [eassumption | by intros ? []]).
  all: constructor.
Qed.

Lemma sh_processItem_counts w c i p :
  count is_acquired (trace (processItem w c i p))
  = count is_close (trace (processItem w c i p)).
Proof.
  pose proof (sh_processItem_lifecycle w c i p) as H. unfold lifecycle in H.
  destruct (session_acquired w c i p).
  - by destruct (sh_released_once_counts _ _ H) as [-> ->].
  - rewrite (count_zero is_acquired), (count_zero is_close); [done|..].
    all: eapply Forall_impl; [eassumption | by intros ? []].
Qed.

Lemma sh_processItem_item w c i p ev :
  ev ∈ trace (processItem w c i p) -> event_item ev = i.
Proof.
  destruct (session_acquired w c i p) eqn:H.
  - destruct (sh_processItem_acquired _ _ _ _ H) as (-> & _).
    rewrite !elem_of_cons, elem_of_app, list_elem_of_singleton.
    intros [->|[->|[Hev| ->]]]; try reflexivity.
    apply sh_in_try_item.
    by apply (proj1 (Forall_forall _ _) (sh_dispatch_in_try w i p)).
  - destruct (sh_processItem_not_acquired _ _ _ _ H) as (-> & _).
    by intros ->%list_elem_of_singleton.
Qed.

Lemma sh_processItem_resolved w c i p :
  completion (processItem w c i p) = Resolved tt <-> serviceable w c i p = true.
Proof.
  unfold serviceable. destruct (session_acquired w c i p) eqn:H.
  - destruct (sh_processItem_acquired _ _ _ _ H) as (_ & _ & ->).
    unfold session_acquired in H. rewrite H. cbn.
    destruct (close w i) as [[]|], (completion (dispatch w i p)) as [[]|]; cbn;
      split; done.
  - destruct (sh_processItem_not_acquired _ _ _ _ H) as (_ & _ & e & ->).
    unfold session_acquired in H. rewrite H. cbn. split; done.
Qed.

Lemma sh_processItem_one_record w c i p :
  completion (processItem w c i p) = Resolved tt ->
  exists r, results (processItem w c i p) = [r]
            /\ error r = None /\ j_operation (json r) = Some (operation p).
Proof.
  intros Hc. destruct (session_acquired w c i p) eqn:H.
  - destruct (sh_processItem_acquired _ _ _ _ H) as (_ & -> & Hcomp).
    rewrite Hcomp in Hc. pose proof (sh_dispatch_results w i p) as Hd.
    destruct (close w i); [|done]. by rewrite Hc in Hd.
  - destruct (sh_processItem_not_acquired _ _ _ _ H) as (_ & _ & e & He). congruence.
Qed.

(** The five asserts pass exactly for a credential as the specification
    describes it; they log nothing and push nothing. *)
Lemma sh_check_model_rejects m :
  has_credential m = false ->
  exists msg, msg ∈ assert_messages /\ check_model m = throw (AssertError msg).
Proof.
  unfold check_model, assert, has_credential, isChatInstance, assert_messages.
  destruct m as [[[ns|] [[s|]|] [[k|]|]]|]; cbn; intros H.
  all: try (rewrite H; cbn).
  all: try (destruct (existsb _ _); cbn).
  all: eexists; (split; [|reflexivity]).
  all: eauto 6 using list_elem_of_here, list_elem_of_further.
Qed.

Lemma sh_check_model_accepts m :
  has_credential m = true ->
  check_model m = mret (credential_of m).
Proof.
  unfold check_model, assert, has_credential, isChatInstance.
  destruct m as [[[ns|] [[s|]|] [[k|]|]]|]; cbn; try discriminate.
  by intros ->.
Qed.

Lemma sh_execute_accepted w m items :
  has_credential m = true ->
  execute w m items =
  return_results (for_items (processItem w (credential_of m)) 0 items).
Proof.
  intros H. unfold execute. rewrite (sh_check_model_accepts _ H).
  unfold return_results. cbn.
  by destruct (completion (for_items _ 0 items)).
Qed.

Lemma sh_execute_rejected w m items :
  has_credential m = false ->
  exists msg, execute w m items = mkExec [] [] (Rejected (AssertError msg)).
Proof.
  intros H. destruct (sh_check_model_rejects _ H) as (msg & _ & Hm). exists msg.
  unfold execute. by rewrite Hm.
Qed.

Lemma sh_execute_one_per_item w m items rss :
  completion (execute w m items) = Resolved rss ->
  has_credential m = true /\
  exists rs, rss = [rs] /\ one_per_item w (credential_of m) items rs.
Proof.
  destruct (has_credential m) eqn:Hm.
  2:{ destruct (sh_execute_rejected w _ items Hm) as [msg ->]. done. }
  rewrite (sh_execute_accepted _ _ _ Hm). unfold return_results. cbn.
  set (c := credential_of m).
  destruct (completion (for_items (processItem w c) 0 items)) as [[]|] eqn:Hc; [|done].
  intros [= <-]. split; [done|]. eexists. split; [reflexivity|].
  rewrite (for_items_results _ _ _ Hc).
  pose proof (proj1 (for_items_resolved _ _ _) Hc) as Hall.
  destruct (singletons_lookup (fun j p => results (processItem w c (0 + j) p)) items)
    as [Hlen Hlk].
  { intros j p Hj. destruct (sh_processItem_one_record w c j p (Hall j p Hj)) as (r & Hr & _).
    eauto. }
  split; [done|]. intros i p Hi. destruct (Hlk i p Hi) as (r & Hr & Hone).
  exists r. split; [done|]. split; [done|].
  destruct (sh_processItem_one_record w c i p (Hall i p Hi)) as (r' & Hr' & Hop).
  cbn in Hone. assert (r' = r) as -> by congruence. done.
Qed.

(** The switch on an operation outside its cases throws at once. *)
Lemma sh_dispatch_unsupported w i p :
  supported (operation p) = false ->
  dispatch w i p
  = throw (ApplicationError (String.append "Unsupported operation: " (operation p))).
Proof.
  unfold supported. cbn. intros H.
  repeat (apply orb_false_elim in H as [? H]).
  unfold dispatch.
  repeat match goal with Hx : String.eqb _ _ = false |- _ => rewrite Hx; clear Hx end.
  reflexivity.
Qed.

End StagehandFacts.

(** * Facts about the field-list schema *)

Module SchemaFacts.
Import Schema Observations.

Lemma shape_get_None shape key : shape_get shape key = None <-> key ∉ map fst shape.
Proof.
  induction shape as [|[k t] rest IH]; simpl.
  - split; [intros _; apply not_elem_of_nil|done].
  - rewrite not_elem_of_cons, <- IH.
    destruct (String.eqb_spec k key) as [->|Hne]; [split; [done|by intros [? _]]|].
    split; [by intros ?; split; [congruence|]|by intros [_ ?]].
Qed.

Lemma shape_get_Some shape key t : shape_get shape key = Some t -> key ∈ map fst shape.
Proof.
  induction shape as [|[k t0] rest IH]; simpl; [done|].
  destruct (String.eqb_spec k key) as [->|Hne]; [intros _; by left|].
  intros H. right. by apply IH.
Qed.

Lemma shape_get_replace shape k t key :
  shape_get (shape_replace shape k t) key
  = if String.eqb k key then (fun _ => t) <$> shape_get shape k else shape_get shape key.
Proof.
  induction shape as [|[k0 t0] rest IH]; simpl.
  - by destruct (String.eqb k key).
  - destruct (String.eqb_spec k0 k) as [->|Hne]; simpl.
    + by destruct (String.eqb k key).
    + rewrite IH. destruct (String.eqb_spec k0 key) as [->|]; [|done].
      by destruct (String.eqb_spec k key) as [->|].
Qed.

Lemma shape_get_insert shape k t key :
  shape_get shape k = None ->
  shape_get (shape_insert shape k t) key
  = if String.eqb k key then Some t else shape_get shape key.
Proof.
  induction shape as [|[k0 t0] rest IH]; simpl.
  - intros _. by destruct (String.eqb k key).
  - destruct (String.eqb_spec k0 k) as [->|Hne]; [done|]. intros Hrest.
    destruct (listed_before k k0); simpl; [done|].
    rewrite (IH Hrest). destruct (String.eqb_spec k0 key) as [->|]; [|done].
    by destruct (String.eqb_spec k key) as [->|].
Qed.

Lemma shape_replace_keys shape k t : map fst (shape_replace shape k t) = map fst shape.
Proof.
  induction shape as [|[k0 t0] rest IH]; simpl; [done|].
  destruct (String.eqb k0 k); simpl; [done|]. by rewrite IH.
Qed.

Lemma shape_insert_keys shape k t : map fst (shape_insert shape k t) ≡ₚ k :: map fst shape.
Proof.
  induction shape as [|[k0 t0] rest IH]; simpl; [done|].
  destruct (listed_before k k0); simpl; [done|]. rewrite IH. apply Permutation_swap.
Qed.

(** A key that is no array index is listed last. *)
Lemma shape_insert_plain shape k t :
  array_index k = None -> shape_insert shape k t = shape ++ [(k, t)].
Proof.
  intros Hk. induction shape as [|[k0 t0] rest IH]; simpl; [done|].
  unfold listed_before. rewrite Hk. by rewrite IH.
Qed.

Lemma inherits_snoc assigned k t :
  inherits (assigned ++ [(k, t)]) = inherits assigned || String.eqb k "__proto__".
Proof. unfold inherits. rewrite existsb_app. simpl. by rewrite orb_false_r. Qed.

(** An assignment keeps the keys apart and never creates the key __proto__. *)
Lemma assign_well_keyed chain shape k t next :
  well_keyed shape -> assign chain shape k t = Resolved next -> well_keyed next.
Proof.
  unfold well_keyed, assign. intros [Hnd Hproto].
  destruct (shape_get (own shape) k) eqn:Hget.
  - intros [= <-]. simpl. by rewrite shape_replace_keys.
  - apply shape_get_None in Hget.
    destruct (String.eqb_spec k "__proto__") as [->|Hk]; [by intros [= <-]|].
    assert (well_keyed (mkShape (shape_insert (own shape) k t)
                          (assigned shape ++ [(k, t)]))) as Hins.
    { unfold well_keyed. simpl. rewrite !shape_insert_keys. split.
      - by apply NoDup_cons.
      - rewrite not_elem_of_cons. split; [congruence|done]. }
    destruct (inherits (assigned shape)); [|by intros [= <-]].
    destruct (chain (assigned shape) k t); intros [= <-]; done.
Qed.

Lemma assign_keys chain shape k t next key :
  assign chain shape k t = Resolved next ->
  key ∈ map fst (own next) -> key ∈ map fst (own shape) \/ key = k.
Proof.
  unfold assign. destruct (shape_get (own shape) k) eqn:Hget.
  - intros [= <-]. simpl. rewrite shape_replace_keys. tauto.
  - assert (key ∈ map fst (shape_insert (own shape) k t) ->
            key ∈ map fst (own shape) \/ key = k) as Hins.
    { rewrite shape_insert_keys, elem_of_cons. tauto. }
    destruct (String.eqb k "__proto__"); [intros [= <-]; tauto|].
    destruct (inherits (assigned shape)); [|by intros [= <-]].
    destruct (chain (assigned shape) k t); intros [= <-]; simpl; tauto.
Qed.

Lemma assign_length chain shape k t next :
  assign chain shape k t = Resolved next -> length (own next) <= S (length (own shape)).
Proof.
  unfold assign. destruct (shape_get (own shape) k) eqn:Hget.
  - intros [= <-]. simpl.
    rewrite <- (length_map fst), shape_replace_keys, length_map. lia.
  - assert (length (shape_insert (own shape) k t) = S (length (own shape))) as Hins.
    { rewrite <- (length_map fst), shape_insert_keys. simpl. by rewrite length_map. }
    destruct (String.eqb k "__proto__"); [intros [= <-]; simpl; lia|].
    destruct (inherits (assigned shape)); [|intros [= <-]; simpl; lia].
    destruct (chain (assigned shape) k t); intros [= <-]; simpl; lia.
Qed.

(** With Object.prototype as the prototype and a key other than __proto__
    nothing stands in the way. *)
Lemma assign_plain chain shape k t :
  inherits (assigned shape) = false -> k <> "__proto__" ->
  exists next,
    assign chain shape k t = Resolved next
    /\ inherits (assigned next) = false
    /\ (forall key, shape_get (own next) key
                    = if String.eqb k key then Some t else shape_get (own shape) key)
    /\ (shape_get (own shape) k = None -> own next = shape_insert (own shape) k t).
Proof.
  intros Hin Hk. unfold assign. rewrite Hin.
  apply String.eqb_neq in Hk as Hkb. rewrite Hkb.
  destruct (shape_get (own shape) k) eqn:Hget; eexists; (split; [reflexivity|]); simpl.
  - rewrite inherits_snoc, Hin, Hkb. split; [done|]. split; [|done].
    intros key. by rewrite shape_get_replace, Hget.
  - rewrite inherits_snoc, Hin, Hkb. split; [done|]. split; [|done].
    intros key. by apply shape_get_insert.
Qed.

Lemma add_fields_well_keyed chain fields shape final :
  well_keyed shape -> add_fields chain fields shape = Resolved final -> well_keyed final.
Proof.
  revert shape. induction fields as [|f rest IH]; intros shape Hw; simpl.
  - by intros [= <-].
  - unfold add_field. destruct (assign chain shape (fieldName f) (field_zod f)) eqn:Ha; [|done].
    apply IH. by eapply assign_well_keyed.
Qed.

Lemma add_fields_keys chain fields shape final key :
  add_fields chain fields shape = Resolved final ->
  key ∈ map fst (own final) ->
  key ∈ map fst (own shape) \/ key ∈ map fieldName fields.
Proof.
  revert shape. induction fields as [|f rest IH]; intros shape; simpl.
  - intros [= <-]. tauto.
  - unfold add_field. destruct (assign chain shape (fieldName f) (field_zod f)) eqn:Ha; [|done].
    intros Hrest Hkey. rewrite elem_of_cons.
    destruct (IH _ Hrest Hkey) as [Hin|Hin]; [|tauto].
    destruct (assign_keys _ _ _ _ _ _ Ha Hin); tauto.
Qed.

Lemma add_fields_length chain fields shape final :
  add_fields chain fields shape = Resolved final ->
  length (own final) <= length (own shape) + length fields.
Proof.
  revert shape. induction fields as [|f rest IH]; intros shape; simpl.
  - intros [= <-]. lia.
  - unfold add_field. destruct (assign chain shape (fieldName f) (field_zod f)) eqn:Ha; [|done].
    intros Hrest. apply IH in Hrest. apply assign_length in Ha. lia.
Qed.

(** A field list that does not name __proto__ is resolved, and the field of
    a key is decided by the last field of that name. *)
Lemma add_fields_plain chain fields shape :
  inherits (assigned shape) = false ->
  "__proto__" ∉ map fieldName fields ->
  exists final,
    add_fields chain fields shape = Resolved final
    /\ forall key,
         shape_get (own final) key
         = match deciding_field fields key with
           | Some f => Some (field_zod f)
           | None => shape_get (own shape) key
           end.
Proof.
  revert shape. induction fields as [|f rest IH]; intros shape Hin Hno; simpl.
  - by exists shape.
  - simpl in Hno. apply not_elem_of_cons in Hno as [Hf Hno].
    destruct (assign_plain chain shape (fieldName f) (field_zod f) Hin)
      as (next & Ha & Hin' & Hget & _); [congruence|].
    unfold add_field. rewrite Ha.
    destruct (IH next Hin' Hno) as (final & Hfinal & Hkeys).
    exists final. split; [done|]. intros key. rewrite Hkeys, Hget.
    destruct (deciding_field rest key); [done|].
    by destruct (String.eqb (fieldName f) key).
Qed.

(** Fresh names that are no array indices are listed in the order of the
    field list. *)
Lemma add_fields_in_order chain fields shape :
  inherits (assigned shape) = false ->
  "__proto__" ∉ map fieldName fields ->
  Forall (fun k => array_index k = None) (map fieldName fields) ->
  NoDup (map fst (own shape) ++ map fieldName fields) ->
  exists final,
    add_fields chain fields shape = Resolved final
    /\ own final = own shape ++ map (fun f => (fieldName f, field_zod f)) fields.
Proof.
  revert shape. induction fields as [|f rest IH]; intros shape Hin Hno Hidx Hnd; simpl.
  - exists shape. by rewrite app_nil_r.
  - simpl in Hno, Hidx, Hnd. apply not_elem_of_cons in Hno as [Hf Hno].
    apply Forall_cons in Hidx as [Hi Hidx].
    destruct (assign_plain chain shape (fieldName f) (field_zod f) Hin)
      as (next & Ha & Hin' & _ & Hown); [congruence|].
    unfold add_field. rewrite Ha.
    assert (fieldName f ∉ map fst (own shape)) as Hfresh.
    { apply NoDup_app in Hnd as (_ & Hdis & _). intros Hx.
      apply (Hdis _ Hx). by left. }
    specialize (Hown (proj2 (shape_get_None _ _) Hfresh)).
    rewrite shape_insert_plain in Hown by done.
    destruct (IH next Hin' Hno Hidx) as (final & Hfinal & Hfo).
    { rewrite Hown, map_app. simpl. by rewrite <- app_assoc. }
    exists final. split; [done|]. by rewrite Hfo, Hown, <- app_assoc.
Qed.

(** The switch on the type's name yields the canonical type of each kind. *)
Lemma zType_of_kind k : zType_of (kind_value k) = canonical_kind k.
Proof. by destruct k. Qed.

Lemma field_zod_entry e : field_zod (to_field e) = canonical e.
Proof. unfold field_zod, to_field, canonical. simpl. by rewrite zType_of_kind. Qed.

Lemma entry_names entries : map fieldName (map to_field entries) = map name entries.
Proof. induction entries as [|e rest IH]; simpl; [done|]. by rewrite IH. Qed.

Lemma deciding_field_entries entries key :
  deciding_field (map to_field entries) key = to_field <$> deciding_entry entries key.
Proof.
  induction entries as [|e rest IH]; simpl; [done|]. rewrite IH.
  destruct (deciding_entry rest key); simpl; [done|].
  by destruct (String.eqb (name e) key).
Qed.

(** Among distinct names every entry decides its own field. *)
Lemma deciding_entry_distinct entries e :
  NoDup (map name entries) -> e ∈ entries -> deciding_entry entries (name e) = Some e.
Proof.
  induction entries as [|e0 rest IH]; simpl; [by intros _ ?%elem_of_nil|].
  intros [Hnotin Hnd]%NoDup_cons [->|Hin]%elem_of_cons.
  - assert (deciding_entry rest (name e0) = None) as ->; [|by rewrite String.eqb_refl].
    clear IH Hnd. induction rest as [|e1 rest IH]; simpl; [done|].
    simpl in Hnotin. apply not_elem_of_cons in Hnotin as [Hne Hnotin].
    rewrite (IH Hnotin). apply String.eqb_neq in Hne.
    by rewrite String.eqb_sym, Hne.
  - by rewrite (IH Hnd Hin).
Qed.

(** The schema of a field list, when there is one. *)
Lemma fieldsToZodSchema_resolved chain fields schema :
  fieldsToZodSchema chain fields = Resolved schema ->
  exists final,
    add_fields chain fields (mkShape [] []) = Resolved final
    /\ schema = ZObject (own final) Strip.
Proof.
  unfold fieldsToZodSchema.
  destruct (add_fields chain fields (mkShape [] [])) as [final|e]; [|done].
  intros [= <-]. by exists final.
Qed.

Lemma empty_well_keyed : well_keyed (mkShape [] []).
Proof. split; [constructor|apply not_elem_of_nil]. Qed.

(** Whatever the field list, a resolved schema lists no key twice, lists
    names of the field list only, and never __proto__. *)
Lemma resolved_keys chain fields schema :
  fieldsToZodSchema chain fields = Resolved schema ->
  NoDup (field_names schema)
  /\ ("__proto__" ∉ field_names schema)
  /\ (forall key, key ∈ field_names schema -> key ∈ map fieldName fields)
  /\ length (field_names schema) <= length fields.
Proof.
  intros (final & Hfinal & ->)%fieldsToZodSchema_resolved. unfold field_names. simpl.
  destruct (add_fields_well_keyed _ _ _ _ empty_well_keyed Hfinal) as [Hnd Hproto].
  split; [done|]. split; [done|]. split.
  - intros key Hkey. destruct (add_fields_keys _ _ _ _ _ Hfinal Hkey) as [Hin|Hin]; [|done].
    by apply elem_of_nil in Hin.
  - rewrite length_map. apply (add_fields_length _ _ _ _ Hfinal).
Qed.

(** A field list that does not name __proto__ has a schema, whose fields
    are decided by the last field of each name. *)
Lemma plain_fields_resolved chain fields :
  "__proto__" ∉ map fieldName fields ->
  exists shape,
    fieldsToZodSchema chain fields = Resolved (ZObject shape Strip)
    /\ (forall key, shape_get shape key = field_zod <$> deciding_field fields key)
    /\ (forall key, key ∈ map fst shape <-> key ∈ map fieldName fields).
Proof.
  intros Hno.
  destruct (add_fields_plain chain fields (mkShape [] []) eq_refl Hno) as (final & Hf & Hget).
  exists (own final). unfold fieldsToZodSchema. rewrite Hf.
  split; [done|]. split.
  - intros key. rewrite Hget. by destruct (deciding_field fields key).
  - intros key. split.
    + intros Hkey. destruct (add_fields_keys _ _ _ _ _ Hf Hkey) as [Hin|Hin]; [|done].
      by apply elem_of_nil in Hin.
    + intros Hkey. destruct (shape_get (own final) key) as [t|] eqn:Hnot;
        [by apply (shape_get_Some _ _ t)|].
      rewrite Hget in Hnot.
      assert (deciding_field fields key <> None) as Hsome; [|by destruct (deciding_field fields key)].
      clear -Hkey. induction fields as [|f rest IH]; simpl in *; [by apply elem_of_nil in Hkey|].
      apply elem_of_cons in Hkey as [->|Hkey].
      * destruct (deciding_field rest (fieldName f)); [done|]. by rewrite String.eqb_refl.
      * specialize (IH Hkey). by destruct (deciding_field rest key).
Qed.

Example duplicate_name_last_wins :
  fieldsToZodSchema plain
    [mkField "id" "string" false; mkField "n" "number" false;
     mkField "id" "boolean" true]
  = Resolved (ZObject [("id", ZOptional ZBoolean); ("n", ZNumber)] Strip).
Proof. reflexivity. Qed.

(** Array indices are listed first, and __proto__ is no key. *)
Example index_names_come_first :
  fieldsToZodSchema plain
    [mkField "b" "string" false; mkField "10" "number" false;
     mkField "__proto__" "string" false; mkField "2" "boolean" false;
     mkField "01" "string" false]
  = Resolved (ZObject [("2", ZBoolean); ("10", ZNumber); ("b", ZString); ("01", ZString)]
                Strip).
Proof. reflexivity. Qed.

End SchemaFacts.

(** * The properties of the specification *)

(** Sessions as the log marks them.  A session is marked acquired once
    browser, context and page are all obtained (Playwright), respectively
    once init() resolved (Stagehand).  The log of a turn that acquires a
    session in that sense reads "...; session acquired; calls of the switch;
    close", whatever the switch did, thrown errors and timeouts included,
    and a turn that acquires none closes none.  The log of a run is the logs
    of its turns one after the other; and in the log of any run as many
    sessions are marked acquired as are closed. *)
Theorem marked_sessions_released_once :
  (forall (w : Playwright.World) (items : list Playwright.Params),
     let tr := trace (Playwright.execute w items) in
     (forall i p, Playwright.lifecycle w i p (trace (Playwright.processItem w i p)))
     /\ (exists k, k <= length items
                   /\ tr = concat (imap (fun i p => trace (Playwright.processItem w i p))
                                     (take k items)))
     /\ count Playwright.is_acquired tr = count Playwright.is_close tr)
  /\ (forall (w : Stagehand.World) (m : option Stagehand.ModelObject)
        (items : list Stagehand.Params),
        let tr := trace (Stagehand.execute w m items) in
        let c := Stagehand.credential_of m in
        (forall i p, Stagehand.lifecycle w c i p (trace (Stagehand.processItem w c i p)))
        /\ (exists k, k <= length items
                      /\ tr = concat (imap (fun i p => trace (Stagehand.processItem w c i p))
                                        (take k items)))
        /\ count Stagehand.is_acquired tr = count Stagehand.is_close tr).
Proof.
  split.
  - intros w items tr. split; [|split].
    + apply PlaywrightFacts.pw_processItem_lifecycle.
    + exists (turns (Playwright.processItem w) 0 items).
      split; [apply turns_le | apply (for_items_trace (Playwright.processItem w) 0)].
    + subst tr. rewrite PlaywrightFacts.pw_execute_trace.
      apply (for_items_trace_ind (Playwright.processItem w)
               (fun t => count Playwright.is_acquired t = count Playwright.is_close t)).
      * done.
      * intros t1 t2 H1 H2. by rewrite !count_app, H1, H2.
      * apply PlaywrightFacts.pw_processItem_counts.
  - intros w m items tr c. split; [|split].
    + apply StagehandFacts.sh_processItem_lifecycle.
    + subst tr. destruct (Stagehand.has_credential m) eqn:Hm.
      * rewrite (StagehandFacts.sh_execute_accepted _ _ _ Hm).
        exists (turns (Stagehand.processItem w c) 0 items).
        split; [apply turns_le | apply (for_items_trace (Stagehand.processItem w c) 0)].
      * destruct (StagehandFacts.sh_execute_rejected w _ items Hm) as [msg ->].
        exists 0. split; [lia | done].
    + subst tr. destruct (Stagehand.has_credential m) eqn:Hm.
      * rewrite (StagehandFacts.sh_execute_accepted _ _ _ Hm).
        apply (for_items_trace_ind (Stagehand.processItem w c)
                 (fun t => count Stagehand.is_acquired t = count Stagehand.is_close t)).
        -- done.
        -- intros t1 t2 H1 H2. by rewrite !count_app, H1, H2.
        -- intros j p. apply StagehandFacts.sh_processItem_counts.
      * by destruct (StagehandFacts.sh_execute_rejected w _ items Hm) as [msg ->].
Qed.

(** C1, as the Playwright node runs it.  A session is acquired when the
    browser is connected, and lines 383 and 384, which get the context and
    the page, stand before the try: when the turn of an item connects a
    browser and then gets no context (or no page), the turn leaves the loop
    without calling close().  So in a run that reaches such a turn one
    browser more is connected than is closed, and [execute] throws.  The
    connections are all closed in the runs that meet no such turn. *)
Theorem connected_browser_left_open_without_context :
  (forall (w : Playwright.World) (items : list Playwright.Params) (k : nat)
      (p : Playwright.Params),
     items !! k = Some p ->
     (forall j q, j < k -> items !! j = Some q -> Playwright.serviceable w j q = true) ->
     Playwright.connection_left_open w k p = true ->
     count (Playwright.is_connected w) (trace (Playwright.execute w items))
     = S (count Playwright.is_close (trace (Playwright.execute w items)))
     /\ ~ Playwright.connections_all_closed w items
     /\ exists e, completion (Playwright.execute w items) = Rejected e)
  /\ (forall (w : Playwright.World) (items : list Playwright.Params),
        (forall i p, items !! i = Some p -> Playwright.connection_left_open w i p = false) ->
        Playwright.connections_all_closed w items).
Proof.
  split.
  - intros w items k p Hk Hbefore Hopen.
    destruct (PlaywrightFacts.pw_left_open_rejected _ _ _ Hopen) as [e He].
    destruct (for_items_count_surplus (Playwright.processItem w)
                (Playwright.is_connected w) Playwright.is_close 0 items k p e Hk)
      as [Hcount Hc].
    + intros j q Hj Hq. cbn [Nat.add]. split.
      * apply PlaywrightFacts.pw_processItem_resolved. by apply (Hbefore j).
      * rewrite PlaywrightFacts.pw_processItem_connected.
        rewrite (PlaywrightFacts.pw_serviceable_closed w j q (Hbefore j q Hj Hq)). lia.
    + exact He.
    + cbn [Nat.add]. rewrite PlaywrightFacts.pw_processItem_connected, Hopen. lia.
    + rewrite !PlaywrightFacts.pw_execute_trace. split; [exact Hcount|]. split.
      * unfold Playwright.connections_all_closed.
        rewrite !PlaywrightFacts.pw_execute_trace. lia.
      * exists e. unfold Playwright.execute, return_results. cbn. by rewrite Hc.
  - intros w items H. unfold Playwright.connections_all_closed.
    rewrite !PlaywrightFacts.pw_execute_trace. apply for_items_count_eq.
    intros j p Hj. cbn [Nat.add].
    rewrite PlaywrightFacts.pw_processItem_connected, (H j p Hj). lia.
Qed.

(** C1 at a browser without context that refuses to create one: the
    connection of a goto request is never closed. *)
Lemma connected_browser_left_open_without_context_witness :
  count (Playwright.is_connected Playwright.barren)
    (trace (Playwright.execute Playwright.barren [Playwright.item "goto"]))
  = 1
  /\ count Playwright.is_close
       (trace (Playwright.execute Playwright.barren [Playwright.item "goto"]))
     = 0
  /\ ~ Playwright.connections_all_closed Playwright.barren [Playwright.item "goto"].
Proof.
  destruct (proj1 connected_browser_left_open_without_context Playwright.barren
              [Playwright.item "goto"] 0 (Playwright.item "goto") eq_refl)
    as (Hcount & Hopen & _).
  - intros j q Hj. lia.
  - reflexivity.
  - split; [reflexivity|]. split; [reflexivity|exact Hopen].
Defined.

(** C2, as the Stagehand node runs it: with a valid chat model attached and
    a batch of two items, a rejected act on the first item closes the
    session and then leaves [execute] as a thrown error; no record is
    returned for the first item and the second item is never started.  The
    Playwright node, on a batch of two failing actions, returns one error
    record for each. *)
Theorem stagehand_action_failure_leaves_the_loop :
  Stagehand.execute Stagehand.stormy (Some Stagehand.chat_model)
    [Stagehand.item "act"; Stagehand.item "observe"]
  = mkExec []
      [Stagehand.Called 0
         (Stagehand.Init
            (Stagehand.config Stagehand.credential (Stagehand.item "act")));
       Stagehand.SessionAcquired 0;
       Stagehand.Called 0 (Stagehand.Act "find the title");
       Stagehand.Called 0 Stagehand.Close]
      (Rejected (RemoteError "Timeout 30000ms exceeded"))
  /\ ~ Stagehand.failure_contained Stagehand.stormy (Some Stagehand.chat_model)
         [Stagehand.item "act"; Stagehand.item "observe"]
  /\ completion (Playwright.execute Playwright.stormy
                   [Playwright.item "click"; Playwright.item "goto"])
     = Resolved [[Playwright.failed (RemoteError "Timeout 30000ms exceeded");
                  Playwright.failed (RemoteError "Timeout 30000ms exceeded")]].
Proof.
  split; [reflexivity|]. split; [|reflexivity].
  intros (rs & H & _). vm_compute in H. discriminate.
Qed.

(** The runs that return.  Whenever [execute] returns, it returns one list
    of records, as long as the input, whose record at index i is the one the
    turn of item i pushed (and names that item's operation unless it is an
    error record); and it returns exactly when every item is serviceable,
    which for the Playwright node leaves every action free to fail. *)
Theorem returned_records_match_the_items :
  (forall (w : Playwright.World) (items : list Playwright.Params),
     (forall rss, completion (Playwright.execute w items) = Resolved rss ->
                  exists rs, rss = [rs] /\ Playwright.one_per_item w items rs)
     /\ ((forall i p, items !! i = Some p -> Playwright.serviceable w i p = true)
         <-> exists rss, completion (Playwright.execute w items) = Resolved rss))
  /\ (forall (w : Stagehand.World) (m : option Stagehand.ModelObject)
        (items : list Stagehand.Params),
        let c := Stagehand.credential_of m in
        (forall rss, completion (Stagehand.execute w m items) = Resolved rss ->
                     exists rs, rss = [rs] /\ Stagehand.one_per_item w c items rs)
        /\ ((Stagehand.has_credential m = true
             /\ forall i p, items !! i = Some p -> Stagehand.serviceable w c i p = true)
            <-> exists rss, completion (Stagehand.execute w m items) = Resolved rss)).
Proof.
  split.
  - intros w items. split; [apply PlaywrightFacts.pw_execute_one_per_item|].
    split.
    + intros H. unfold Playwright.execute, return_results. cbn.
      assert (completion (for_items (Playwright.processItem w) 0 items) = Resolved tt)
        as ->; [|eauto].
      apply for_items_resolved. intros j p Hj.
      apply PlaywrightFacts.pw_processItem_resolved. by apply H.
    + intros [rss [Hc _]%PlaywrightFacts.pw_execute_returns] i p Hi.
      apply PlaywrightFacts.pw_processItem_resolved.
      apply (proj1 (for_items_resolved _ _ _) Hc i p Hi).
  - intros w m items c. subst c. split.
    { intros rss H. by destruct (StagehandFacts.sh_execute_one_per_item _ _ _ _ H). }
    split.
    + intros [Hm H]. rewrite (StagehandFacts.sh_execute_accepted _ _ _ Hm).
      unfold return_results. cbn.
      assert (completion (for_items (Stagehand.processItem w (Stagehand.credential_of m))
                            0 items) = Resolved tt) as ->; [|eauto].
      apply for_items_resolved. intros j p Hj.
      apply StagehandFacts.sh_processItem_resolved. by apply H.
    + intros [rss H].
      destruct (StagehandFacts.sh_execute_one_per_item _ _ _ _ H) as [Hm _].
      split; [done|]. intros i p Hi.
      rewrite (StagehandFacts.sh_execute_accepted _ _ _ Hm) in H.
      unfold return_results in H. cbn in H.
      apply StagehandFacts.sh_processItem_resolved.
      destruct (completion (for_items (Stagehand.processItem w (Stagehand.credential_of m))
                              0 items)) as [[]|] eqn:Hc; [|done].
      apply (proj1 (for_items_resolved _ _ _) Hc i p Hi).
Qed.

(** C3, as the nodes run it.  [execute] of the Stagehand node has no catch
    block: when the action of some item is rejected (here act), [execute]
    throws and returns no record at all, for that item or for any other, so
    the batch does not get one result per item.  The Playwright node turns
    a rejected action into a record, but it too returns nothing when the
    connection of some item is refused, since connectOverCDP is awaited
    before the try. *)
Theorem failed_item_leaves_the_batch_without_results :
  (forall (w : Stagehand.World) (m : option Stagehand.ModelObject)
      (items : list Stagehand.Params) (i : nat) (p : Stagehand.Params) (e : Error),
     items !! i = Some p ->
     Stagehand.operation p = "act" ->
     Stagehand.act w i (Stagehand.instruction p) = Rejected e ->
     ~ Stagehand.one_result_per_request w m items
     /\ exists e', completion (Stagehand.execute w m items) = Rejected e')
  /\ (forall (w : Playwright.World) (items : list Playwright.Params) (i : nat)
         (p : Playwright.Params) (e : Error),
        items !! i = Some p ->
        Playwright.operation p <> "executablePath" ->
        Playwright.connectOverCDP w i (Playwright.cdpUrl p) = Rejected e ->
        ~ Playwright.one_result_per_request w items
        /\ exists e', completion (Playwright.execute w items) = Rejected e').
Proof.
  split.
  - intros w m items i p e Hi Hop Hact.
    assert (forall c, exists e', completion (Stagehand.processItem w c i p) = Rejected e')
      as Hturn.
    { intros c. destruct (Stagehand.session_acquired w c i p) eqn:H.
      - destruct (StagehandFacts.sh_processItem_acquired _ _ _ _ H) as (_ & _ & ->).
        assert (completion (Stagehand.dispatch w i p) = Rejected e) as ->.
        { unfold Stagehand.dispatch, Stagehand.call. rewrite Hop. run. by rewrite Hact. }
        destruct (Stagehand.close w i); eauto.
      - by destruct (StagehandFacts.sh_processItem_not_acquired _ _ _ _ H) as (_ & _ & ?). }
    assert (~ exists rss, completion (Stagehand.execute w m items) = Resolved rss) as Hno.
    { intros [rss Hrss]. destruct (Stagehand.has_credential m) eqn:Hm.
      - rewrite (StagehandFacts.sh_execute_accepted _ _ _ Hm) in Hrss.
        unfold return_results in Hrss. cbn in Hrss.
        destruct (completion (for_items (Stagehand.processItem w (Stagehand.credential_of m))
                                0 items)) as [[]|] eqn:Hc; [|done].
        pose proof (proj1 (for_items_resolved _ _ _) Hc i p Hi) as Hr.
        destruct (Hturn (Stagehand.credential_of m)) as [e' He']. cbn in Hr. congruence.
      - destruct (StagehandFacts.sh_execute_rejected w _ items Hm) as [msg Hex].
        by rewrite Hex in Hrss. }
    split.
    + intros (rs & Hrs & _). apply Hno. eauto.
    + destruct (completion (Stagehand.execute w m items)) as [rss|e'] eqn:Hc; [|eauto].
      destruct Hno. eauto.
  - intros w items i p e Hi Hop Hconnect.
    assert (exists e', completion (Playwright.processItem w i p) = Rejected e') as [e' He'].
    { assert (Playwright.session_acquired w i p = false) as H.
      { unfold Playwright.session_acquired, Playwright.acquires. by rewrite Hconnect, andb_false_r. }
      destruct (PlaywrightFacts.pw_processItem_not_acquired _ _ _ H) as [_ Hrest].
      apply String.eqb_neq in Hop. rewrite Hop in Hrest. by destruct Hrest as (_ & _ & ?). }
    assert (~ exists rss, completion (Playwright.execute w items) = Resolved rss) as Hno.
    { intros [rss [Hc _]%PlaywrightFacts.pw_execute_returns].
      pose proof (proj1 (for_items_resolved _ _ _) Hc i p Hi) as Hr. cbn in Hr. congruence. }
    split.
    + intros (rs & Hrs & _). apply Hno. eauto.
    + destruct (completion (Playwright.execute w items)) as [rss|e''] eqn:Hc; [|eauto].
      destruct Hno. eauto.
Qed.

(** C3 at a batch of two items whose first action times out. *)
Lemma failed_item_leaves_the_batch_without_results_witness :
  ~ Stagehand.one_result_per_request Stagehand.stormy (Some Stagehand.chat_model)
      [Stagehand.item "act"; Stagehand.item "observe"].
Proof.
  apply (proj1 failed_item_leaves_the_batch_without_results Stagehand.stormy
           (Some Stagehand.chat_model) [Stagehand.item "act"; Stagehand.item "observe"]
           0 (Stagehand.item "act") (RemoteError "Timeout 30000ms exceeded")
           eq_refl eq_refl eq_refl).
Defined.

(** C4, as the specification words it, fails: in a calm world the Playwright
    node connects to the browser for an item whose operation is "teleport",
    and the Stagehand node initialises a session for it. *)
Lemma unknown_operation_acquires_session_first :
  ~ Playwright.unknown_operation_before_acquire Playwright.calm
      [Playwright.item "teleport"]
  /\ ~ Stagehand.unknown_operation_before_acquire Stagehand.calm
        (Some Stagehand.chat_model) [Stagehand.item "teleport"].
Proof.
  split.
  - intros H.
    apply (H 0 (Playwright.item "teleport") eq_refl eq_refl "ws://localhost:9222").
    cbn. apply elem_of_cons. by left.
  - intros H.
    apply (H 0 (Stagehand.item "teleport") eq_refl eq_refl
             (Stagehand.config Stagehand.credential (Stagehand.item "teleport"))).
    cbn. apply elem_of_cons. by left.
Qed.

(** C4, amended.  An operation outside the supported set is detected by the
    default case of the switch, which runs after the session is acquired:
    the turn always asks for the connection (respectively calls init());
    when the session is acquired, no action is invoked, the session is
    closed, and the failure is "Unsupported operation: <id>", as the item's
    error record in the Playwright node and as the thrown error of
    [execute] in the Stagehand node. *)
Theorem unknown_operation_fails_after_acquire :
  (forall (w : Playwright.World) (i : nat) (p : Playwright.Params),
     Playwright.supported (Playwright.operation p) = false ->
     let unsupported :=
       ApplicationError
         (String.append "Unsupported operation: " (Playwright.operation p)) in
     (exists rest,
        trace (Playwright.acquire w i (Playwright.cdpUrl p))
        = Playwright.Called i (Playwright.ConnectOverCDP (Playwright.cdpUrl p)) :: rest)
     /\ trace (Playwright.processItem w i p)
        = trace (Playwright.acquire w i (Playwright.cdpUrl p))
          ++ (if Playwright.acquires w i (Playwright.cdpUrl p)
              then [Playwright.Called i Playwright.Close] else [])
     /\ (Playwright.acquires w i (Playwright.cdpUrl p) = true ->
         results (Playwright.processItem w i p) = [Playwright.failed unsupported]
         /\ completion (Playwright.processItem w i p) = Playwright.close w i))
  /\ (forall (w : Stagehand.World) (c : Stagehand.ModelCredential) (i : nat)
        (p : Stagehand.Params),
        Stagehand.supported (Stagehand.operation p) = false ->
        let unsupported :=
          ApplicationError
            (String.append "Unsupported operation: " (Stagehand.operation p)) in
        trace (Stagehand.processItem w c i p)
        = Stagehand.Called i (Stagehand.Init (Stagehand.config c p))
          :: (if Stagehand.session_acquired w c i p
              then [Stagehand.SessionAcquired i; Stagehand.Called i Stagehand.Close]
              else [])
        /\ results (Stagehand.processItem w c i p) = []
        /\ (Stagehand.session_acquired w c i p = true ->
            completion (Stagehand.processItem w c i p)
            = match Stagehand.close w i with
              | Resolved _ => Rejected unsupported
              | Rejected e => Rejected e
              end)).
Proof.
  split.
  - intros w i p [Hop Hd]%(PlaywrightFacts.pw_dispatch_unsupported w i) unsupported.
    split; [apply PlaywrightFacts.pw_acquire_connects|].
    apply (PlaywrightFacts.pw_processItem_throws _ _ _ _ Hop Hd).
  - intros w c i p Hd%(StagehandFacts.sh_dispatch_unsupported w i) unsupported.
    destruct (Stagehand.session_acquired w c i p) eqn:H.
    + destruct (StagehandFacts.sh_processItem_acquired _ _ _ _ H) as (-> & -> & ->).
      rewrite Hd. done.
    + destruct (StagehandFacts.sh_processItem_not_acquired _ _ _ _ H) as (-> & -> & _).
      done.
Qed.

(** C4, amended, at the operation "teleport". *)
Lemma unknown_operation_fails_after_acquire_witness :
  results (Playwright.processItem Playwright.calm 0 (Playwright.item "teleport"))
  = [Playwright.failed (ApplicationError "Unsupported operation: teleport")]
  /\ completion (Stagehand.processItem Stagehand.calm Stagehand.credential 0
                   (Stagehand.item "teleport"))
     = Rejected (ApplicationError "Unsupported operation: teleport").
Proof.
  split.
  - apply (proj1 unknown_operation_fails_after_acquire Playwright.calm 0
             (Playwright.item "teleport") eq_refl). reflexivity.
  - apply (proj2 unknown_operation_fails_after_acquire Stagehand.calm
             Stagehand.credential 0 (Stagehand.item "teleport") eq_refl). reflexivity.
Defined.

(** C5, as the specification words it, fails: of two entries of one name
    only the last is resolved to a field, and an entry named __proto__ is
    resolved to none. *)
Lemma repeated_entry_is_not_resolved :
  ~ Schema.each_entry_resolved Schema.plain
      [Schema.mkEntry "id" Schema.KString false; Schema.mkEntry "id" Schema.KNumber false]
  /\ ~ Schema.each_entry_resolved Schema.plain
         [Schema.mkEntry "__proto__" Schema.KString false].
Proof.
  split; intros (schema & Hs & He); vm_compute in Hs; injection Hs as <-.
  - specialize (He (Schema.mkEntry "id" Schema.KString false)).
    rewrite elem_of_cons in He. specialize (He (or_introl eq_refl)).
    vm_compute in He. discriminate He.
  - specialize (He (Schema.mkEntry "__proto__" Schema.KString false)).
    rewrite elem_of_cons in He. specialize (He (or_introl eq_refl)).
    vm_compute in He. discriminate He.
Qed.

(** C5, amended.  A field list none of whose entries is named __proto__ is
    resolved to an object schema whose field [key] is the canonical type of
    the entry that decides [key], the last of that name; so when the names
    are also pairwise distinct every entry is resolved to its canonical
    field.  [array] is an array of unconstrained elements, [object] an
    object open to further keys, and a field is required exactly when its
    entry is not optional.  The list title: string, tags: optional array
    yields a required string [title] and an optional unconstrained-array
    [tags]. *)
Theorem field_list_resolves_to_canonical_fields :
  (forall (chain : Schema.Chain) (entries : list Schema.Entry),
     "__proto__" ∉ map Schema.name entries ->
     (exists shape,
        Schema.fieldsToZodSchema chain (map Schema.to_field entries)
        = Resolved (Schema.ZObject shape Schema.Strip)
        /\ forall key,
             Schema.shape_get shape key
             = Schema.canonical <$> Schema.deciding_entry entries key)
     /\ (NoDup (map Schema.name entries) -> Schema.each_entry_resolved chain entries))
  /\ Schema.zType_of "array" = Schema.ZArray Schema.ZAny
  /\ Schema.zType_of "object" = Schema.ZObject [] Schema.Passthrough
  /\ (forall e : Schema.Entry,
        Schema.required (Schema.canonical e) = negb (Schema.is_optional e))
  /\ (forall chain : Schema.Chain,
        Schema.fieldsToZodSchema chain
          [Schema.mkField "title" "string" false; Schema.mkField "tags" "array" true]
        = Resolved
            (Schema.ZObject
               [("title", Schema.ZString);
                ("tags", Schema.ZOptional (Schema.ZArray Schema.ZAny))]
               Schema.Strip)).
Proof.
  split; [|repeat split].
  - intros chain entries Hno.
    destruct (SchemaFacts.plain_fields_resolved chain (map Schema.to_field entries))
      as (shape & Hs & Hget & _).
    { by rewrite SchemaFacts.entry_names. }
    assert (forall key,
              Schema.shape_get shape key
              = Schema.canonical <$> Schema.deciding_entry entries key) as Hcan.
    { intros key. rewrite Hget, SchemaFacts.deciding_field_entries.
      destruct (Schema.deciding_entry entries key); simpl; [|done].
      by rewrite SchemaFacts.field_zod_entry. }
    split; [by exists shape|].
    intros Hnd. exists (Schema.ZObject shape Schema.Strip). split; [done|].
    intros e He. simpl. by rewrite Hcan, (SchemaFacts.deciding_entry_distinct _ _ Hnd He).
  - intros [n [] []]; reflexivity.
Qed.

(** C5, amended, at the list of the specification. *)
Lemma field_list_resolves_to_canonical_fields_witness :
  Schema.each_entry_resolved Schema.plain
    [Schema.mkEntry "title" Schema.KString false; Schema.mkEntry "tags" Schema.KArray true].
Proof.
  apply (proj1 field_list_resolves_to_canonical_fields Schema.plain
           [Schema.mkEntry "title" Schema.KString false;
            Schema.mkEntry "tags" Schema.KArray true]).
  - simpl. rewrite !not_elem_of_cons. repeat split; try discriminate. apply not_elem_of_nil.
  - simpl. repeat (apply NoDup_cons; split;
                   [rewrite ?elem_of_cons, elem_of_nil; intuition discriminate|]).
    apply NoDup_nil_2.
Defined.

(** C6.  Without a ModelCredential on the model input (a chat model with a
    string model name and a string API key), [execute] of the Stagehand node
    throws the error of one of its five asserts before the loop: whatever
    the batch, nothing is logged, so no session is initialised, and no
    record is pushed. *)
Theorem missing_credential_rejected_before_acquire
    (w : Stagehand.World) (m : option Stagehand.ModelObject)
    (items : list Stagehand.Params) :
  Stagehand.has_credential m = false ->
  exists msg,
    msg ∈ Stagehand.assert_messages
    /\ Stagehand.execute w m items = mkExec [] [] (Rejected (AssertError msg)).
Proof.
  intros H. destruct (StagehandFacts.sh_check_model_rejects _ H) as (msg & Hin & Hm).
  exists msg. split; [done|]. unfold Stagehand.execute. by rewrite Hm.
Qed.

(** C6 at an empty model input and a batch of the three operations. *)
Lemma missing_credential_rejected_before_acquire_witness :
  exists msg,
    msg ∈ Stagehand.assert_messages
    /\ Stagehand.execute Stagehand.calm None
         [Stagehand.item "act"; Stagehand.item "extract"; Stagehand.item "observe"]
       = mkExec [] [] (Rejected (AssertError msg)).
Proof.
  apply (missing_credential_rejected_before_acquire Stagehand.calm None). reflexivity.
Defined.

(** C7, as the specification words it, fails: for a screenshot request with
    quality 150 the Playwright node does issue remote calls. *)
Lemma screenshot_quality_150_reaches_the_browser :
  ~ Playwright.quality_validated Playwright.calm
      [Playwright.with_quality 150 (Playwright.item "screenshot")].
Proof.
  intros H.
  apply (H 0 (Playwright.with_quality 150 (Playwright.item "screenshot")) eq_refl eq_refl
           (or_intror eq_refl)
           (Playwright.Page (Playwright.Screenshot false 150 30000))).
  cbn. rewrite !elem_of_cons. tauto.
Qed.

(** C7, amended.  [execute] does not check the quality of a screenshot
    request; the bound 0-100 is declared in the node description only.
    Whatever the quality, the turn first asks for the connection and, once
    the session is acquired, calls page.screenshot with that quality
    unchanged; if that call is rejected, the rejection is the item's error
    record, and the session is closed either way. *)
Theorem screenshot_quality_is_passed_through
    (w : Playwright.World) (i : nat) (p : Playwright.Params) :
  Playwright.operation p = "screenshot" ->
  let shot :=
    Playwright.Screenshot (Playwright.fullPage p) (Playwright.quality p)
      (Playwright.timeout p) in
  (exists rest,
     trace (Playwright.processItem w i p)
     = Playwright.Called i (Playwright.ConnectOverCDP (Playwright.cdpUrl p)) :: rest)
  /\ (Playwright.session_acquired w i p = true ->
      (exists pre,
         trace (Playwright.processItem w i p)
         = pre ++ Playwright.SessionAcquired i
               :: Playwright.Called i (Playwright.Page shot)
               :: (if is_resolved (Playwright.page w i shot)
                   then [Playwright.Called i Playwright.PrepareBinaryData] else [])
               ++ [Playwright.Called i Playwright.Close])
      /\ forall e, Playwright.page w i shot = Rejected e ->
                   results (Playwright.processItem w i p) = [Playwright.failed e]).
Proof.
  intros Hop shot.
  assert (String.eqb (Playwright.operation p) "executablePath" = false) as Hx
    by (by rewrite Hop).
  assert (Playwright.dispatch w i p
          = (screenshot ← Playwright.call i (Playwright.Page shot) (Playwright.page w i shot);
             data ← Playwright.call i Playwright.PrepareBinaryData
                      (Playwright.prepareBinaryData w i screenshot);
             push (mkData (mkJson (Some "screenshot") None)
                     (Some ("screenshot", data)) None))) as Hd.
  { unfold Playwright.dispatch. rewrite Hop. reflexivity. }
  split.
  - rewrite (PlaywrightFacts.pw_processItem_connects _ _ _ Hx), bind_trace.
    destruct (PlaywrightFacts.pw_acquire_connects w i (Playwright.cdpUrl p)) as [rest ->].
    eexists. reflexivity.
  - intros H.
    destruct (PlaywrightFacts.pw_processItem_acquired _ _ _ H) as (pre & _ & _ & -> & -> & _).
    rewrite Hd. unfold Playwright.call. run. split.
    + exists pre. destruct (Playwright.page w i shot) as [b|e]; cbn; [|done].
      by destruct (Playwright.prepareBinaryData w i b).
    + intros e ->. reflexivity.
Qed.

(** C7, amended, at quality 150 and a page that rejects the call. *)
Lemma screenshot_quality_is_passed_through_witness :
  exists pre,
    trace (Playwright.processItem Playwright.stormy 0
             (Playwright.with_quality 150 (Playwright.item "screenshot")))
    = pre ++ [Playwright.SessionAcquired 0;
              Playwright.Called 0
                (Playwright.Page (Playwright.Screenshot false 150 30000));
              Playwright.Called 0 Playwright.Close].
Proof.
  apply (screenshot_quality_is_passed_through Playwright.stormy 0
           (Playwright.with_quality 150 (Playwright.item "screenshot")) eq_refl).
  reflexivity.
Defined.

(** C8.  A waitForLoadState request whose state is none of load,
    domcontentloaded and networkidle never reaches page.waitForLoadState:
    no such call is logged for the item in any run; once its session is
    acquired the turn's record is the error record of "Unsupported load
    state: <state>", and that is the record at the item's index whenever
    [execute] returns. *)
Theorem unsupported_load_state_rejected
    (w : Playwright.World) (items : list Playwright.Params) (i : nat)
    (p : Playwright.Params) :
  items !! i = Some p ->
  Playwright.operation p = "waitForLoadState" ->
  Playwright.state p ∉ ["load"; "domcontentloaded"; "networkidle"] ->
  let unsupported :=
    ApplicationError (String.append "Unsupported load state: " (Playwright.state p)) in
  (forall s t,
     Playwright.Called i (Playwright.Page (Playwright.WaitForLoadState s t))
     ∉ trace (Playwright.execute w items))
  /\ (Playwright.session_acquired w i p = true ->
      results (Playwright.processItem w i p) = [Playwright.failed unsupported])
  /\ (forall rs, completion (Playwright.execute w items) = Resolved [rs] ->
                 rs !! i = Some (Playwright.failed unsupported)).
Proof.
  intros Hi Hop Hstate unsupported.
  assert (String.eqb (Playwright.operation p) "executablePath" = false) as Hx
    by (by rewrite Hop).
  assert (Playwright.dispatch w i p = throw unsupported) as Hd.
  { unfold Playwright.dispatch. rewrite Hop. cbn.
    destruct (Playwright.is_load_state (Playwright.state p)) eqn:E; [|done].
    by apply PlaywrightFacts.pw_load_state_enumeration in E. }
  destruct (PlaywrightFacts.pw_processItem_throws _ _ _ _ Hx Hd) as [_ Hres].
  assert (Playwright.session_acquired w i p = true ->
          results (Playwright.processItem w i p) = [Playwright.failed unsupported]) as Hrec.
  { unfold Playwright.session_acquired. rewrite Hx. cbn. intros Hacq.
    by destruct (Hres Hacq). }
  split; [|split; [done|]].
  - intros s t Hin.
    eapply PlaywrightFacts.pw_execute_trace_elem in Hin; [|exact Hi|reflexivity].
    by apply (PlaywrightFacts.pw_processItem_no_page w i p) in Hin; [|rewrite Hd].
  - intros rs Hc.
    destruct (PlaywrightFacts.pw_execute_one_per_item _ _ _ Hc) as (rs' & [= <-] & _ & Hone).
    destruct (Hone i p Hi) as (r & -> & Hr & _). f_equal.
    apply PlaywrightFacts.pw_execute_returns in Hc as [Hc _].
    pose proof (proj1 (for_items_resolved _ _ _) Hc i p Hi) as Hturn. cbn in Hturn.
    apply PlaywrightFacts.pw_processItem_resolved in Hturn.
    unfold Playwright.serviceable in Hturn. rewrite Hx in Hturn. cbn in Hturn.
    apply andb_prop in Hturn as [Hacq _].
    rewrite Hrec in Hr; [congruence|].
    unfold Playwright.session_acquired. by rewrite Hx, Hacq.
Qed.

(** C8 at the state "bogus", second item of a batch. *)
Lemma unsupported_load_state_rejected_witness :
  results (Playwright.processItem Playwright.calm 1
             (Playwright.with_state "bogus" (Playwright.item "waitForLoadState")))
  = [Playwright.failed (ApplicationError "Unsupported load state: bogus")].
Proof.
  apply (unsupported_load_state_rejected Playwright.calm
           [Playwright.item "goto";
            Playwright.with_state "bogus" (Playwright.item "waitForLoadState")]
           1 (Playwright.with_state "bogus" (Playwright.item "waitForLoadState"))
           eq_refl eq_refl).
  - rewrite !elem_of_cons, elem_of_nil. intros [H|[H|[H|[]]]]; discriminate H.
  - reflexivity.
Defined.

(** C9.  The field names of a resolved schema are unique, whatever the field
    list, duplicates included: no name is listed twice, every name listed is
    a name of the field list other than __proto__, and when the list does
    not name __proto__ every name of the list is listed.  Resolution always
    yields a schema for such a list: it can only throw after a field named
    __proto__ has made a zod type the prototype of the shape. *)
Theorem resolved_field_names_unique (chain : Schema.Chain) (fields : list Schema.Field) :
  match Schema.fieldsToZodSchema chain fields with
  | Resolved schema =>
      NoDup (Schema.field_names schema)
      /\ (forall key,
            key ∈ Schema.field_names schema ->
            key ∈ map Schema.fieldName fields /\ key <> "__proto__")
      /\ ("__proto__" ∉ map Schema.fieldName fields ->
          forall key, key ∈ map Schema.fieldName fields -> key ∈ Schema.field_names schema)
  | Rejected _ => "__proto__" ∈ map Schema.fieldName fields
  end.
Proof.
  destruct (Schema.fieldsToZodSchema chain fields) as [schema|e] eqn:Hs.
  - destruct (SchemaFacts.resolved_keys _ _ _ Hs) as (Hnd & Hproto & Hsub & _).
    split; [done|]. split.
    + intros key Hkey. split; [by apply Hsub|]. by intros ->.
    + intros Hno key Hkey.
      destruct (SchemaFacts.plain_fields_resolved chain fields Hno) as (shape & Hs' & _ & Hk).
      rewrite Hs in Hs'. injection Hs' as ->. by apply Hk.
  - destruct (in_dec String.string_dec "__proto__" (map Schema.fieldName fields)) as [Hin|Hno].
    + by apply list_elem_of_In.
    + rewrite <- list_elem_of_In in Hno.
      destruct (SchemaFacts.plain_fields_resolved chain fields Hno) as (shape & Hs' & _).
      congruence.
Qed.

(** C9 at a list that uses the name id twice. *)
Lemma resolved_field_names_unique_witness :
  NoDup (Schema.field_names
           (Schema.ZObject [("id", Schema.ZOptional Schema.ZBoolean); ("n", Schema.ZNumber)]
              Schema.Strip)).
Proof.
  exact (proj1 (resolved_field_names_unique Schema.plain
                  [Schema.mkField "id" "string" false; Schema.mkField "n" "number" false;
                   Schema.mkField "id" "boolean" true])).
Defined.

(** C10, as stated, fails: the record of a type request is not the record
    of the same request sent as fill. *)
Lemma type_record_differs_from_fill :
  ~ Playwright.type_same_as_fill Playwright.calm (Playwright.item "fill").
Proof. unfold Playwright.type_same_as_fill. intros H. vm_compute in H. congruence. Qed.

(** C10, amended.  type and fill are one case of the switch: for the same
    selector, text and timeout both issue the same page.fill call, log the
    same events and complete the same way, and their records are equal but
    for the operation name each record echoes ("type" against "fill"); an
    error record carries no operation name, so failures are equal
    outright. *)
Theorem type_dispatches_like_fill
    (w : Playwright.World) (i : nat) (p : Playwright.Params) :
  let as_type := Playwright.with_operation "type" p in
  let as_fill := Playwright.with_operation "fill" p in
  let fill :=
    Playwright.Called i
      (Playwright.Page
         (Playwright.Fill (Playwright.selector p) (Playwright.text p)
            (Playwright.timeout p))) in
  trace (Playwright.dispatch w i as_type) = [fill]
  /\ trace (Playwright.dispatch w i as_fill) = [fill]
  /\ trace (Playwright.processItem w i as_type) = trace (Playwright.processItem w i as_fill)
  /\ completion (Playwright.processItem w i as_type)
     = completion (Playwright.processItem w i as_fill)
  /\ results (Playwright.processItem w i as_type)
     = map (Playwright.relabel "type") (results (Playwright.processItem w i as_fill))
  /\ trace (Playwright.execute w [as_type]) = trace (Playwright.execute w [as_fill])
  /\ forall e,
       Playwright.page w 0
         (Playwright.Fill (Playwright.selector p) (Playwright.text p)
            (Playwright.timeout p)) = Rejected e ->
       Playwright.execute w [as_type] = Playwright.execute w [as_fill].
Proof.
  intros as_type as_fill fill.
  unfold Playwright.execute, return_results, Playwright.processItem, Playwright.dispatch,
    Playwright.simple, Playwright.acquire, Playwright.on_error, Playwright.call,
    try_catch_finally, try_finally, try_catch.
  run.
  repeat split.
  1-2: by destruct (Playwright.page w i _).
  1-3: pw_acquisitions w i (Playwright.cdpUrl p); try reflexivity;
       destruct (Playwright.page w i _); cbn; try reflexivity;
       destruct (Playwright.close w i) as [[]|]; reflexivity.
  - pw_acquisitions w 0 (Playwright.cdpUrl p); try reflexivity;
      destruct (Playwright.page w 0 _); cbn; try reflexivity;
      destruct (Playwright.close w 0) as [[]|]; reflexivity.
  - intros e ->. cbn.
    pw_acquisitions w 0 (Playwright.cdpUrl p); try reflexivity;
      destruct (Playwright.close w 0) as [[]|]; reflexivity.
Qed.

(** C10, amended, at a page that rejects the fill call. *)
Lemma type_dispatches_like_fill_witness :
  Playwright.execute Playwright.stormy [Playwright.with_operation "type" (Playwright.item "")]
  = Playwright.execute Playwright.stormy [Playwright.with_operation "fill" (Playwright.item "")].
Proof.
  destruct (type_dispatches_like_fill Playwright.stormy 0 (Playwright.item ""))
    as (_ & _ & _ & _ & _ & _ & H).
  apply (H (RemoteError "Timeout 30000ms exceeded")). reflexivity.
Defined.

(** * Further facts about the loop *)

Section LoopOrder.
Context {Ev P : Type} (body : nat -> P -> Exec Ev unit).

(** The loop stops at the first turn that throws: it throws what that turn
    threw, and that turn is the last one started. *)
Lemma for_items_first_failure s items k p e :
  items !! k = Some p ->
  (forall j q, j < k -> items !! j = Some q -> completion (body (s + j) q) = Resolved tt) ->
  completion (body (s + k) p) = Rejected e ->
  completion (for_items body s items) = Rejected e /\ turns body s items = S k.
Proof.
  revert s k. induction items as [|q rest IH]; intros s k Hk Hbefore Hfail.
  - by rewrite lookup_nil in Hk.
  - simpl. rewrite bind_completion. destruct k as [|k]; simpl in Hk.
    + injection Hk as ->. rewrite Nat.add_0_r in Hfail. by rewrite Hfail.
    + pose proof (Hbefore 0 q (Nat.lt_0_succ k) eq_refl) as H0.
      rewrite Nat.add_0_r in H0. rewrite H0.
      destruct (IH (S s) k Hk) as [Hc Ht].
      * intros j r Hj Hr. rewrite Nat.add_succ_l, <- Nat.add_succ_r.
        apply Hbefore; [lia | done].
      * by rewrite Nat.add_succ_l, <- Nat.add_succ_r.
      * by rewrite Hc, Ht.
Qed.

(** Every logged event was logged by one of the turns that were started. *)
Lemma for_items_trace_started s items ev :
  ev ∈ trace (for_items body s items) ->
  exists j p, j < turns body s items /\ items !! j = Some p /\ ev ∈ trace (body (s + j) p).
Proof.
  revert s. induction items as [|p rest IH]; intros s; simpl.
  - intros H. by apply elem_of_nil in H.
  - rewrite bind_trace. intros [H|H]%elem_of_app.
    + exists 0, p. rewrite Nat.add_0_r. split; [|done].
      destruct (completion (body s p)); lia.
    + destruct (completion (body s p)) as [[]|e]; [|by apply elem_of_nil in H].
      destruct (IH _ H) as (j & q & Hlt & Hj & Hev).
      exists (S j), q. rewrite Nat.add_succ_r. split; [lia | done].
Qed.

(** Counting the events of one item: when the turns of the other items log
    none of them, the loop logs at most what the turn of that item does. *)
Lemma for_items_count_at (f : Ev -> bool) (i bound : nat) s items :
  (forall j p, j <> i -> count f (trace (body j p)) = 0) ->
  (forall p, count f (trace (body i p)) <= bound) ->
  count f (trace (for_items body s items)) <= (if decide (s <= i) then bound else 0).
Proof.
  intros Hother Hturn. revert s.
  induction items as [|p rest IH]; intros s; simpl.
  - unfold count. simpl. lia.
  - rewrite bind_trace, count_app.
    assert (count f (match completion (body s p) with
                     | Resolved _ => trace (for_items body (S s) rest)
                     | Rejected _ => []
                     end) <= (if decide (S s <= i) then bound else 0)) as Hrest.
    { destruct (completion (body s p)); [apply IH|]. unfold count. simpl. lia. }
    destruct (decide (s = i)) as [->|Hne].
    + specialize (Hturn p). repeat case_decide; lia.
    + rewrite (Hother s p Hne). repeat case_decide; lia.
Qed.
End LoopOrder.

(** * Further facts about the two nodes *)

Module BatchFacts.
Import Observations.

Lemma pw_count_page_call_other w i j p :
  j <> i -> count (pw_page_call_of i) (trace (Playwright.processItem w j p)) = 0.
Proof.
  intros Hne. apply count_zero, Forall_forall. intros ev Hev.
  apply PlaywrightFacts.pw_processItem_item in Hev.
  destruct ev as [k [| | |c| |]|k]; simpl in *; try done.
  apply Nat.eqb_neq. congruence.
Qed.

(** The switch of the Playwright node calls the page at most once. *)
Lemma pw_dispatch_one_call w i p :
  count (pw_page_call_of i) (trace (Playwright.dispatch w i p)) <= 1.
Proof.
  unfold Playwright.dispatch, Playwright.simple, Playwright.call.
  case_strings; run; pw_answers; unfold count; simpl; rewrite ?Nat.eqb_refl; simpl; lia.
Qed.

Lemma pw_acquire_count_page w i j u :
  count (pw_page_call_of i) (trace (Playwright.acquire w j u)) = 0.
Proof.
  apply count_zero, Forall_forall. intros ev Hev.
  destruct ev as [k [| | |c| |]|k]; simpl; try done.
  by destruct (PlaywrightFacts.pw_acquire_no_page w j u k c).
Qed.

Lemma pw_processItem_one_call w i p :
  count (pw_page_call_of i) (trace (Playwright.processItem w i p)) <= 1.
Proof.
  destruct (Playwright.session_acquired w i p) eqn:H.
  - destruct (PlaywrightFacts.pw_processItem_acquired _ _ _ H) as (pre & _ & Hacq & -> & _).
    pose proof (pw_acquire_count_page w i i (Playwright.cdpUrl p)) as Hz.
    rewrite Hacq, count_app in Hz.
    rewrite count_app, count_cons, count_app, count_cons. simpl.
    pose proof (pw_dispatch_one_call w i p).
    replace (count (pw_page_call_of i) []) with 0 by reflexivity. lia.
  - destruct (PlaywrightFacts.pw_processItem_not_acquired _ _ _ H) as [_ Hrest].
    destruct (String.eqb (Playwright.operation p) "executablePath").
    + rewrite Hrest. unfold count. simpl. lia.
    + destruct Hrest as (-> & _). rewrite pw_acquire_count_page. lia.
Qed.

Lemma sh_count_action_other w c i j p :
  j <> i -> count (sh_action_of i) (trace (Stagehand.processItem w c j p)) = 0.
Proof.
  intros Hne. apply count_zero, Forall_forall. intros ev Hev.
  apply StagehandFacts.sh_processItem_item in Hev.
  destruct ev as [k [| | | |]|k]; simpl in *; try done.
  all: apply Nat.eqb_neq; congruence.
Qed.

(** The switch of the Stagehand node issues at most one action. *)
Lemma sh_dispatch_one_call w i p :
  count (sh_action_of i) (trace (Stagehand.dispatch w i p)) <= 1.
Proof.
  unfold Stagehand.dispatch, Stagehand.resolve_schema, Stagehand.call, Stagehand.eval.
  case_strings; run; sh_answers; unfold count; simpl; rewrite ?Nat.eqb_refl; simpl; lia.
Qed.

Lemma sh_processItem_one_call w c i p :
  count (sh_action_of i) (trace (Stagehand.processItem w c i p)) <= 1.
Proof.
  destruct (Stagehand.session_acquired w c i p) eqn:H.
  - destruct (StagehandFacts.sh_processItem_acquired _ _ _ _ H) as (-> & _).
    rewrite !count_cons, count_app, count_cons. simpl.
    pose proof (sh_dispatch_one_call w i p).
    replace (count (sh_action_of i) []) with 0 by reflexivity. lia.
  - destruct (StagehandFacts.sh_processItem_not_acquired _ _ _ _ H) as (-> & _).
    unfold count. simpl. lia.
Qed.

(** A batch of short-circuited items runs without a single call. *)
Lemma pw_for_items_paths w s items :
  Forall (fun p => Playwright.operation p = "executablePath") items ->
  for_items (Playwright.processItem w) s items
  = mkExec (map (pw_path_record w) items) [] (Resolved tt).
Proof.
  intros H. revert s. induction H as [|p rest Hp _ IH]; intros s; [done|].
  simpl. rewrite IH. unfold Playwright.processItem, pw_path_record. rewrite Hp. reflexivity.
Qed.

End BatchFacts.

Module MoreFacts.
Import Observations.

Lemma prefix_spec sub s :
  String.prefix sub s = true <-> exists post, s = String.append sub post.
Proof.
  revert s. induction sub as [|a sub IH]; intros s; simpl.
  - split; [intros _; by exists s | intros _; by destruct s].
  - destruct s as [|b s]; simpl.
    + split; [done | intros [post H]; discriminate H].
    + destruct (Ascii.ascii_dec a b) as [->|Hne].
      * rewrite IH. split; intros [post H]; exists post; congruence.
      * split; [done | intros [post H]; congruence].
Qed.

Lemma includes_cons a s sub :
  Stagehand.includes (String a s) sub
  = String.prefix sub (String a s) || Stagehand.includes s sub.
Proof. reflexivity. Qed.

(** s.includes(sub) holds exactly when [sub] occurs somewhere in [s]. *)
Lemma includes_spec s sub :
  Stagehand.includes s sub = true
  <-> exists pre post, s = String.append pre (String.append sub post).
Proof.
  induction s as [|a s IH].
  - change (Stagehand.includes "" sub) with (String.prefix sub "" || false).
    rewrite orb_false_r, prefix_spec. split.
    + intros [post H]. by exists EmptyString, post.
    + intros (pre & post & H). destruct pre; [by exists post | discriminate H].
  - rewrite includes_cons, orb_true_iff, prefix_spec, IH. split.
    + intros [[post H]|(pre & post & H)].
      * by exists EmptyString, post.
      * exists (String a pre), post. simpl. by rewrite H.
    + intros (pre & post & H). destruct pre as [|b pre]; simpl in H.
      * left. by exists post.
      * right. exists pre, post. congruence.
Qed.

End MoreFacts.

(** * Further properties of the code *)

(** A batch of "Get Executable Path" items needs no browser: [execute] of
    the Playwright node returns one record per item, each holding the path,
    and issues no call at all (part_000, lines 369-377). *)
Theorem executable_path_batch_needs_no_session
    (w : Playwright.World) (items : list Playwright.Params) :
  Forall (fun p => Playwright.operation p = "executablePath") items ->
  Playwright.execute w items
  = mkExec (map (Observations.pw_path_record w) items) []
      (Resolved [map (Observations.pw_path_record w) items]).
Proof.
  intros H. unfold Playwright.execute. by rewrite (BatchFacts.pw_for_items_paths _ 0 _ H).
Qed.

(** The same in a world whose browser would refuse every connection use. *)
Lemma executable_path_batch_needs_no_session_witness :
  trace (Playwright.execute Playwright.barren
           [Playwright.item "executablePath"; Playwright.item "executablePath"]) = [].
Proof.
  rewrite (executable_path_batch_needs_no_session Playwright.barren
             [Playwright.item "executablePath"; Playwright.item "executablePath"]).
  - reflexivity.
  - repeat constructor.
Defined.

(** Acquisition in the Playwright node (part_000, lines 382-384): the
    connection is asked for first; a context is created only when the
    browser has none, a page only when the context has none, each at most
    once; and each step is reached only when the one before resolved. *)
Theorem acquisition_reuses_context_and_page
    (w : Playwright.World) (i : nat) (cdpUrl : string) :
  trace (Playwright.acquire w i cdpUrl) = Observations.pw_acquisition_log w i cdpUrl
  /\ (Playwright.contexts_0 w i = true ->
      Playwright.Called i Playwright.NewContext ∉ trace (Playwright.acquire w i cdpUrl))
  /\ (Playwright.pages_0 w i = true ->
      Playwright.Called i Playwright.NewPage ∉ trace (Playwright.acquire w i cdpUrl)).
Proof.
  unfold Observations.pw_acquisition_log, Playwright.acquire, Playwright.call. run.
  pw_acquisitions w i cdpUrl; (split; [reflexivity|]).
  all: split; intros H; try discriminate H.
  all: rewrite ?elem_of_cons, elem_of_nil; intuition discriminate.
Qed.

(** With an open context and an open page nothing is created. *)
Lemma acquisition_reuses_context_and_page_witness :
  Playwright.Called 0 Playwright.NewContext
  ∉ trace (Playwright.acquire Playwright.stormy 0 "ws://localhost:9222").
Proof.
  apply (acquisition_reuses_context_and_page Playwright.stormy 0 "ws://localhost:9222").
  reflexivity.
Defined.

(** The catch block of the Playwright node (part_000, lines 543-552): once
    the session is acquired, whatever the switch throws (a rejected page
    call, a rejected prepareBinaryData, an unsupported operation or load
    state) becomes the item's only record, an error record with that error
    as its cause, and a switch that completes leaves its own record; the
    turn itself then completes the way browser.close() does, so a rejected
    close is thrown on although the record was pushed. *)
Theorem switch_error_becomes_the_item_record
    (w : Playwright.World) (i : nat) (p : Playwright.Params) :
  Playwright.session_acquired w i p = true ->
  results (Playwright.processItem w i p)
  = match completion (Playwright.dispatch w i p) with
    | Resolved _ => results (Playwright.dispatch w i p)
    | Rejected e => [Playwright.failed e]
    end
  /\ length (results (Playwright.processItem w i p)) = 1
  /\ completion (Playwright.processItem w i p) = Playwright.close w i.
Proof.
  intros H.
  destruct (PlaywrightFacts.pw_processItem_acquired _ _ _ H) as (pre & _ & _ & _ & -> & ->).
  rewrite try_catch_results. pose proof (PlaywrightFacts.pw_dispatch_results w i p) as Hd.
  destruct (completion (Playwright.dispatch w i p)).
  - destruct Hd as (r & -> & _). done.
  - rewrite Hd. done.
Qed.

(** A rejected click in a world where every page call times out. *)
Lemma switch_error_becomes_the_item_record_witness :
  results (Playwright.processItem Playwright.stormy 3 (Playwright.item "click"))
  = [Playwright.failed (RemoteError "Timeout 30000ms exceeded")].
Proof.
  apply (switch_error_becomes_the_item_record Playwright.stormy 3 (Playwright.item "click")).
  reflexivity.
Defined.

(** Neither node issues more than one action for an item: in the log of any
    run there is at most one call on the page (Playwright), at most one of
    act, extract and observe (Stagehand), with the index of a given item. *)
Theorem at_most_one_action_per_item :
  (forall (w : Playwright.World) (items : list Playwright.Params) (i : nat),
     count (Observations.pw_page_call_of i) (trace (Playwright.execute w items)) <= 1)
  /\ (forall (w : Stagehand.World) (m : option Stagehand.ModelObject)
        (items : list Stagehand.Params) (i : nat),
        count (Observations.sh_action_of i) (trace (Stagehand.execute w m items)) <= 1).
Proof.
  split.
  - intros w items i. rewrite PlaywrightFacts.pw_execute_trace.
    pose proof (for_items_count_at (Playwright.processItem w)
                  (Observations.pw_page_call_of i) i 1 0 items) as H.
    rewrite decide_True in H by lia. apply H.
    + intros j p Hj. by apply BatchFacts.pw_count_page_call_other.
    + intros p. apply BatchFacts.pw_processItem_one_call.
  - intros w m items i. destruct (Stagehand.has_credential m) eqn:Hm.
    + rewrite (StagehandFacts.sh_execute_accepted _ _ _ Hm).
      pose proof (for_items_count_at (Stagehand.processItem w (Stagehand.credential_of m))
                    (Observations.sh_action_of i) i 1 0 items) as H.
      rewrite decide_True in H by lia. apply H.
      * intros j p Hj. by apply BatchFacts.sh_count_action_other.
      * intros p. apply BatchFacts.sh_processItem_one_call.
    + destruct (StagehandFacts.sh_execute_rejected w _ items Hm) as [msg ->].
      unfold count. simpl. lia.
Qed.

(** The first turn that cannot complete ends the run: when the items before
    item k are serviceable and item k is not, [execute] throws what the turn
    of item k threw, and nothing is logged for a later item.  For the
    Playwright node that is a failed acquisition or a rejected close; for
    the Stagehand node it is any failure of the item. *)
Theorem first_failure_ends_the_run :
  (forall (w : Playwright.World) (items : list Playwright.Params) (k : nat)
      (p : Playwright.Params),
     items !! k = Some p ->
     (forall j q, j < k -> items !! j = Some q -> Playwright.serviceable w j q = true) ->
     Playwright.serviceable w k p = false ->
     (exists e, completion (Playwright.processItem w k p) = Rejected e
                /\ completion (Playwright.execute w items) = Rejected e)
     /\ forall ev, ev ∈ trace (Playwright.execute w items) -> Playwright.event_item ev <= k)
  /\ (forall (w : Stagehand.World) (m : option Stagehand.ModelObject)
        (items : list Stagehand.Params) (k : nat) (p : Stagehand.Params),
        let c := Stagehand.credential_of m in
        Stagehand.has_credential m = true ->
        items !! k = Some p ->
        (forall j q, j < k -> items !! j = Some q -> Stagehand.serviceable w c j q = true) ->
        Stagehand.serviceable w c k p = false ->
        (exists e, completion (Stagehand.processItem w c k p) = Rejected e
                   /\ completion (Stagehand.execute w m items) = Rejected e)
        /\ forall ev, ev ∈ trace (Stagehand.execute w m items) -> Stagehand.event_item ev <= k).
Proof.
  split.
  - intros w items k p Hk Hbefore Hfail.
    destruct (completion (Playwright.processItem w k p)) as [[]|e] eqn:He.
    { apply PlaywrightFacts.pw_processItem_resolved in He. congruence. }
    destruct (for_items_first_failure (Playwright.processItem w) 0 items k p e Hk)
      as [Hc Ht]; [|done|].
    { intros j q Hj Hq. apply PlaywrightFacts.pw_processItem_resolved. by apply Hbefore. }
    split.
    + exists e. split; [done|]. unfold Playwright.execute, return_results. cbn.
      by rewrite Hc.
    + intros ev (j & q & Hlt & Hq & Hev)%for_items_trace_started.
      apply PlaywrightFacts.pw_processItem_item in Hev. cbn in Hev. lia.
  - intros w m items k p c Hm Hk Hbefore Hfail. subst c.
    destruct (completion (Stagehand.processItem w (Stagehand.credential_of m) k p))
      as [[]|e] eqn:He.
    { apply StagehandFacts.sh_processItem_resolved in He. congruence. }
    destruct (for_items_first_failure
                (Stagehand.processItem w (Stagehand.credential_of m)) 0 items k p e Hk)
      as [Hc Ht]; [|done|].
    { intros j q Hj Hq. apply StagehandFacts.sh_processItem_resolved. by apply Hbefore. }
    rewrite (StagehandFacts.sh_execute_accepted _ _ _ Hm). split.
    + exists e. split; [done|]. unfold return_results. cbn. by rewrite Hc.
    + intros ev (j & q & Hlt & Hq & Hev)%for_items_trace_started.
      apply StagehandFacts.sh_processItem_item in Hev. cbn in Hev. lia.
Qed.

(** A batch whose second item cannot get a context, and a batch whose
    second action is rejected. *)
Lemma first_failure_ends_the_run_witness :
  (forall ev,
     ev ∈ trace (Playwright.execute Playwright.barren
                   [Playwright.item "executablePath"; Playwright.item "goto";
                    Playwright.item "click"]) ->
     Playwright.event_item ev <= 1)
  /\ exists e,
       completion (Stagehand.execute Stagehand.stormy (Some Stagehand.chat_model)
                     [Stagehand.item "act"; Stagehand.item "observe"])
       = Rejected e.
Proof.
  split.
  - apply (proj1 first_failure_ends_the_run Playwright.barren
             [Playwright.item "executablePath"; Playwright.item "goto";
              Playwright.item "click"] 1 (Playwright.item "goto") eq_refl).
    + intros [|j] q Hj; [|lia]. intros [= <-]. reflexivity.
    + reflexivity.
  - destruct (proj2 first_failure_ends_the_run Stagehand.stormy (Some Stagehand.chat_model)
                [Stagehand.item "act"; Stagehand.item "observe"] 0 (Stagehand.item "act")
                eq_refl eq_refl) as [(e & _ & He) _].
    + intros j q Hj. lia.
    + reflexivity.
    + by exists e.
Defined.

(** An extract request whose schemaSource is none of fieldList, example,
    jsonSchema and manual (Stagehand.node.ts, lines 549-551): the switch
    throws "Unsupported schema source: <value>" without calling extract,
    and the turn, once its session is acquired, logs init, the acquisition
    and the close only, and pushes no record. *)
Theorem unsupported_schema_source_rejected
    (w : Stagehand.World) (c : Stagehand.ModelCredential) (i : nat)
    (p : Stagehand.Params) :
  Stagehand.operation p = "extract" ->
  Stagehand.schemaSource p ∉ Observations.schema_sources ->
  Stagehand.dispatch w i p
  = throw (ApplicationError
             (String.append "Unsupported schema source: " (Stagehand.schemaSource p)))
  /\ (Stagehand.session_acquired w c i p = true ->
      trace (Stagehand.processItem w c i p)
      = [Stagehand.Called i (Stagehand.Init (Stagehand.config c p));
         Stagehand.SessionAcquired i; Stagehand.Called i Stagehand.Close]
      /\ results (Stagehand.processItem w c i p) = []).
Proof.
  intros Hop Hsrc.
  assert (Stagehand.dispatch w i p
          = throw (ApplicationError
                     (String.append "Unsupported schema source: "
                        (Stagehand.schemaSource p)))) as Hd.
  { unfold Observations.schema_sources in Hsrc.
    rewrite !not_elem_of_cons in Hsrc. destruct Hsrc as (H1 & H2 & H3 & H4 & _).
    apply String.eqb_neq in H1, H2, H3, H4.
    unfold Stagehand.dispatch, Stagehand.resolve_schema. rewrite Hop. cbn.
    by rewrite H1, H2, H3, H4. }
  split; [done|]. intros H.
  destruct (StagehandFacts.sh_processItem_acquired _ _ _ _ H) as (-> & -> & _).
  by rewrite Hd.
Qed.

(** The schema source "csv". *)
Lemma unsupported_schema_source_rejected_witness :
  Stagehand.dispatch Stagehand.calm 0
    (Stagehand.mkParams "extract" "ws://localhost:9222" true "title" "csv" [] "" "" "")
  = throw (ApplicationError "Unsupported schema source: csv").
Proof.
  apply (unsupported_schema_source_rejected Stagehand.calm Stagehand.credential 0
           (Stagehand.mkParams "extract" "ws://localhost:9222" true "title" "csv" [] "" "" "")
           eq_refl).
  unfold Observations.schema_sources. rewrite !not_elem_of_cons.
  repeat split; try discriminate. apply not_elem_of_nil.
Defined.

(** Extraction in the Stagehand node (lines 519-564): extract is called only
    once the schema is resolved, and with the resolved schema; when
    resolving the schema throws (JSON.parse, a converter, the evaluated
    code, an assignment of fieldsToZodSchema), the switch throws the same
    error and extract is not called.  For the field list the schema passed
    on is the one fieldsToZodSchema makes of the item's fields, whose keys
    are unique; there is one whenever no field is named __proto__. *)
Theorem extract_called_with_the_resolved_schema
    (w : Stagehand.World) (i : nat) (p : Stagehand.Params) :
  Stagehand.operation p = "extract" ->
  match completion (Stagehand.resolve_schema w i p) with
  | Resolved schema =>
      trace (Stagehand.dispatch w i p)
      = [Stagehand.Called i (Stagehand.Extract (Stagehand.instruction p) schema)]
  | Rejected e => Stagehand.dispatch w i p = throw e
  end
  /\ (Stagehand.schemaSource p = "fieldList" ->
      completion (Stagehand.resolve_schema w i p)
      = Schema.fieldsToZodSchema (Stagehand.zod_chain w) (Stagehand.fields p)
      /\ (forall schema,
            Schema.fieldsToZodSchema (Stagehand.zod_chain w) (Stagehand.fields p)
            = Resolved schema ->
            NoDup (Schema.field_names schema))
      /\ ("__proto__" ∉ map Schema.fieldName (Stagehand.fields p) ->
          exists schema,
            completion (Stagehand.resolve_schema w i p) = Resolved schema
            /\ NoDup (Schema.field_names schema))).
Proof.
  intros Hop. split.
  - unfold Stagehand.dispatch. rewrite Hop. cbn.
    unfold Stagehand.resolve_schema, Stagehand.call, Stagehand.eval.
    case_strings; run; sh_answers; reflexivity.
  - intros Hsrc. unfold Stagehand.resolve_schema. rewrite Hsrc. cbn.
    split; [done|]. split.
    + intros schema Hs. by destruct (SchemaFacts.resolved_keys _ _ _ Hs).
    + intros Hno.
      destruct (SchemaFacts.plain_fields_resolved (Stagehand.zod_chain w)
                  (Stagehand.fields p) Hno) as (shape & Hs & _).
      exists (Schema.ZObject shape Schema.Strip). split; [done|].
      by destruct (SchemaFacts.resolved_keys _ _ _ Hs).
Qed.

(** The field list of the sample item. *)
Lemma extract_called_with_the_resolved_schema_witness :
  completion (Stagehand.resolve_schema Stagehand.stormy 0 (Stagehand.item "extract"))
  = Resolved (Schema.ZObject [("title", Schema.ZString)] Schema.Strip).
Proof.
  exact (proj1 (proj2 (extract_called_with_the_resolved_schema Stagehand.stormy 0
                         (Stagehand.item "extract") eq_refl) eq_refl)).
Defined.

(** The model name handed to the engine (lines 491-495) is always
    "<provider>/<model>": the provider is "deepseek" exactly when the text
    deepseek occurs somewhere in the model's name, and otherwise the third
    entry of the model's lc_namespace ("undefined" when the namespace is
    shorter). *)
Theorem provider_is_deepseek_or_the_namespace
    (c : Stagehand.ModelCredential) (p : Stagehand.Params) :
  ((exists pre post,
      Stagehand.modelName c = String.append pre (String.append "deepseek" post)) ->
   Stagehand.cfg_modelName (Stagehand.config c p)
   = String.append "deepseek/" (Stagehand.modelName c))
  /\ (~ (exists pre post,
           Stagehand.modelName c = String.append pre (String.append "deepseek" post)) ->
      Stagehand.cfg_modelName (Stagehand.config c p)
      = String.append (nth 2 (Stagehand.providerNamespace c) "undefined")
          (String.append "/" (Stagehand.modelName c))).
Proof.
  unfold Stagehand.config. simpl.
  pose proof (MoreFacts.includes_spec (Stagehand.modelName c) "deepseek") as H.
  destruct (Stagehand.includes (Stagehand.modelName c) "deepseek").
  - split; [done|]. intros Hn. destruct Hn. by apply H.
  - split; [|done]. intros Hy. apply H in Hy. discriminate Hy.
Qed.

(** A DeepSeek model served through an OpenAI-compatible chat class. *)
Lemma provider_is_deepseek_or_the_namespace_witness :
  Stagehand.cfg_modelName
    (Stagehand.config
       (Stagehand.mkCredential ["langchain"; "chat_models"; "openai"]
          "accounts/deepseek-chat" "sk")
       (Stagehand.item "act"))
  = "deepseek/accounts/deepseek-chat".
Proof.
  apply (provider_is_deepseek_or_the_namespace
           (Stagehand.mkCredential ["langchain"; "chat_models"; "openai"]
              "accounts/deepseek-chat" "sk") (Stagehand.item "act")).
  by exists "accounts/", "-chat".
Defined.

(** fieldsToZodSchema on a field list that does not name __proto__,
    whatever the type names (lines 598-628): there is a schema, the field
    resolved for a name is the one of the last field of that name, and a
    name no field uses is absent.  On any field list the resolved schema
    has no field __proto__; and a type name outside string, number, boolean,
    array and object resolves to z.any(), which is the only way to get
    z.any(). *)
Theorem field_lookup_returns_the_last_field :
  (forall (chain : Schema.Chain) (fields : list Schema.Field),
     "__proto__" ∉ map Schema.fieldName fields ->
     exists schema,
       Schema.fieldsToZodSchema chain fields = Resolved schema
       /\ forall key,
            Schema.shape_get (Schema.fields_of schema) key
            = Schema.field_zod <$> Observations.deciding_field fields key)
  /\ (forall (chain : Schema.Chain) (fields : list Schema.Field) (schema : Schema.ZodType),
        Schema.fieldsToZodSchema chain fields = Resolved schema ->
        Schema.shape_get (Schema.fields_of schema) "__proto__" = None)
  /\ forall fieldType,
       Schema.zType_of fieldType = Schema.ZAny <-> fieldType ∉ Observations.field_kinds.
Proof.
  split; [|split].
  - intros chain fields Hno.
    destruct (SchemaFacts.plain_fields_resolved chain fields Hno) as (shape & Hs & Hget & _).
    by exists (Schema.ZObject shape Schema.Strip).
  - intros chain fields schema Hs.
    destruct (SchemaFacts.resolved_keys _ _ _ Hs) as (_ & Hproto & _).
    by apply SchemaFacts.shape_get_None.
  - intros t. unfold Schema.zType_of, Observations.field_kinds.
    rewrite !not_elem_of_cons.
    destruct (String.eqb_spec t "string") as [->|]; [split; [done|tauto]|].
    destruct (String.eqb_spec t "number") as [->|]; [split; [done|tauto]|].
    destruct (String.eqb_spec t "boolean") as [->|]; [split; [done|tauto]|].
    destruct (String.eqb_spec t "array") as [->|]; [split; [done|tauto]|].
    destruct (String.eqb_spec t "object") as [->|]; [split; [done|tauto]|].
    split; [|done]. intros _. repeat split; try done. apply not_elem_of_nil.
Qed.

(** Two fields of one name: the later one decides. *)
Lemma field_lookup_returns_the_last_field_witness :
  exists schema,
    Schema.fieldsToZodSchema Schema.plain
      [Schema.mkField "id" "string" false; Schema.mkField "id" "date" true]
    = Resolved schema
    /\ Schema.shape_get (Schema.fields_of schema) "id" = Some (Schema.ZOptional Schema.ZAny).
Proof.
  destruct (proj1 field_lookup_returns_the_last_field Schema.plain
              [Schema.mkField "id" "string" false; Schema.mkField "id" "date" true])
    as (schema & Hs & Hget).
  - simpl. rewrite !not_elem_of_cons. repeat split; try discriminate. apply not_elem_of_nil.
  - exists schema. split; [exact Hs|]. rewrite Hget. reflexivity.
Defined.

(** Field names that are pairwise distinct, none of them __proto__, give one
    key each: there is a schema, its keys are the names of the list and as
    many as there are fields; they are listed in the order of the list when
    no name is an array index (the text of a number, which an object lists
    first).  In general a resolved schema has at most as many keys as the
    list has fields. *)
Theorem distinct_field_names_give_one_key_each :
  (forall (chain : Schema.Chain) (fields : list Schema.Field),
     NoDup (map Schema.fieldName fields) ->
     "__proto__" ∉ map Schema.fieldName fields ->
     exists schema,
       Schema.fieldsToZodSchema chain fields = Resolved schema
       /\ Schema.field_names schema ≡ₚ map Schema.fieldName fields
       /\ length (Schema.field_names schema) = length fields
       /\ (Forall (fun k => Schema.array_index k = None) (map Schema.fieldName fields) ->
           Schema.field_names schema = map Schema.fieldName fields))
  /\ (forall (chain : Schema.Chain) (fields : list Schema.Field) (schema : Schema.ZodType),
        Schema.fieldsToZodSchema chain fields = Resolved schema ->
        length (Schema.field_names schema) <= length fields).
Proof.
  split.
  - intros chain fields Hnd Hno.
    destruct (SchemaFacts.plain_fields_resolved chain fields Hno) as (shape & Hs & _ & Hk).
    destruct (SchemaFacts.resolved_keys _ _ _ Hs) as (Hnd' & _).
    exists (Schema.ZObject shape Schema.Strip). split; [done|].
    assert (Schema.field_names (Schema.ZObject shape Schema.Strip)
            ≡ₚ map Schema.fieldName fields) as Hperm.
    { by apply NoDup_Permutation. }
    split; [done|]. split.
    + by rewrite Hperm, length_map.
    + intros Hidx.
      destruct (SchemaFacts.add_fields_in_order chain fields (Schema.mkShape [] [])
                  eq_refl Hno Hidx Hnd) as (final & Hf & Hown).
      unfold Schema.fieldsToZodSchema in Hs. rewrite Hf in Hs. injection Hs as <-.
      unfold Schema.field_names. simpl. rewrite Hown. simpl.
      rewrite map_map. by apply map_ext.
  - intros chain fields schema Hs. by destruct (SchemaFacts.resolved_keys _ _ _ Hs) as (_ & _ & _ & ?).
Qed.

(** Three fields with three names. *)
Lemma distinct_field_names_give_one_key_each_witness :
  exists schema,
    Schema.fieldsToZodSchema Schema.plain
      [Schema.mkField "b" "number" false; Schema.mkField "a" "string" true;
       Schema.mkField "c" "date" false]
    = Resolved schema
    /\ length (Schema.field_names schema) = 3.
Proof.
  destruct (proj1 distinct_field_names_give_one_key_each Schema.plain
              [Schema.mkField "b" "number" false; Schema.mkField "a" "string" true;
               Schema.mkField "c" "date" false])
    as (schema & Hs & _ & Hlen & _).
  - simpl. repeat (apply NoDup_cons; split;
                   [rewrite ?elem_of_cons, elem_of_nil; intuition discriminate|]).
    apply NoDup_nil_2.
  - simpl. rewrite !not_elem_of_cons. repeat split; try discriminate. apply not_elem_of_nil.
  - by exists schema.
Defined.

(** * Facts about the labels of the CDP Tools node *)

Module LabelFacts.
Import Text Labels.

Lemma take_drop_while f s : take_while f s ++ drop_while f s = s.
Proof. induction s as [|c s IH]; simpl; [done|]. destruct (f c); simpl; congruence. Qed.

Lemma take_while_all f s : Forall (fun c => f c = true) (take_while f s).
Proof.
  induction s as [|c s IH]; simpl; [constructor|].
  destruct (f c) eqn:E; by constructor.
Qed.

(** A run that is followed by a code unit outside it is found whole. *)
Lemma while_app_stop f a c r :
  Forall (fun x => f x = true) a -> f c = false ->
  take_while f (a ++ c :: r) = a /\ drop_while f (a ++ c :: r) = c :: r.
Proof.
  intros Ha Hc. induction Ha as [|x a Hx _ [IH1 IH2]]; simpl.
  - by rewrite Hc.
  - by rewrite Hx, IH1, IH2.
Qed.

Lemma starts_with_spec p s : starts_with p s = true <-> exists t, s = p ++ t.
Proof.
  revert s. induction p as [|a p IH]; intros s; simpl.
  - split; [by exists s|done].
  - destruct s as [|b s]; [split; [done|by intros [t Ht]]|].
    rewrite andb_true_iff, IH, N.eqb_eq. split.
    + intros [-> [t ->]]. by exists t.
    + intros [t [= -> ->]]. split; [done|by exists t].
Qed.

Lemma match_here_sound s id :
  match_here s = Some id -> is_id id /\ exists rest, s = bracketed id ++ rest.
Proof.
  unfold match_here, bracketed.
  destruct s as [|c r]; [done|].
  destruct (N.eqb_spec c 91) as [->|Hc]; [|done].
  pose proof (take_drop_while is_digit r) as Hr.
  pose proof (take_while_all is_digit r) as Hd1.
  destruct (take_while is_digit r) as [|x d1] eqn:E1; [done|].
  destruct (starts_with [93%N; 32%N] (drop_while is_digit r)) eqn:Hclose.
  - apply starts_with_spec in Hclose as [t Ht]. intros [= <-].
    split; [by left|]. exists t. rewrite <- Hr, Ht.
    cbn [app]. by rewrite <- app_assoc.
  - destruct (drop_while is_digit r) as [|h r2] eqn:E2; [done|].
    destruct (N.eqb_spec h 45) as [->|Hh]; [|done].
    pose proof (take_drop_while is_digit r2) as Hr2.
    pose proof (take_while_all is_digit r2) as Hd2.
    destruct (take_while is_digit r2) as [|x2 d2] eqn:E3; [done|].
    destruct (starts_with [93%N; 32%N] (drop_while is_digit r2)) eqn:Hclose2; [|done].
    apply starts_with_spec in Hclose2 as [t Ht]. intros [= <-]. split.
    + right. exists (x :: d1), (x2 :: d2). by repeat split.
    + exists t. rewrite <- Hr, <- Hr2, Ht. cbn [app].
      by rewrite <- ?app_assoc, <- ?app_comm_cons, <- ?app_assoc.
Qed.

Lemma match_here_complete id rest :
  is_id id -> match_here (bracketed id ++ rest) = Some id.
Proof.
  unfold bracketed. rewrite <- app_comm_cons, <- app_assoc. cbn [app].
  unfold match_here. rewrite N.eqb_refl.
  intros [[Hne Hd]|(a & b & -> & [Ha Hda] & [Hb Hdb])].
  - destruct (while_app_stop is_digit id 93 (32%N :: rest) Hd eq_refl) as [-> ->].
    destruct id; [done|]. reflexivity.
  - rewrite <- app_assoc, <- app_comm_cons.
    destruct (while_app_stop is_digit a 45 (b ++ 93%N :: 32%N :: rest) Hda eq_refl)
      as [-> ->].
    destruct (while_app_stop is_digit b 93 (32%N :: rest) Hdb eq_refl) as [-> ->].
    destruct a; [done|]. destruct b; [done|]. reflexivity.
Qed.

Lemma bracketed_length id : length (bracketed id) = length id + 3.
Proof. unfold bracketed. simpl. rewrite length_app. simpl. lia. Qed.

(** Skipping code units is dropping them. *)
Lemma scan_skip s pos skip : scan s pos skip = scan (drop skip s) (pos + skip) 0.
Proof.
  revert pos skip. induction s as [|c s IH]; intros pos skip.
  - by destruct skip.
  - destruct skip as [|skip]; simpl.
    + by rewrite Nat.add_0_r.
    + rewrite IH. f_equal. lia.
Qed.

Lemma relabel_skip s k skip : relabel s k skip = relabel (drop skip s) k 0.
Proof.
  revert skip. induction s as [|c s IH]; intros skip.
  - by destruct skip.
  - destruct skip as [|skip]; simpl; [done|]. by rewrite IH.
Qed.

(** A match at the head: what the scan and the one-pass copy do with it. *)
Lemma scan_match id rest pos :
  is_id id ->
  scan (bracketed id ++ rest) pos 0
  = mkMatch pos (bracketed id) id :: scan rest (pos + length (bracketed id)) 0.
Proof.
  intros Hid. pose proof (match_here_complete id rest Hid) as Hm.
  unfold bracketed in *. simpl in *. rewrite Hm. f_equal.
  rewrite scan_skip. f_equal.
  - rewrite drop_app_length'; [done|]. rewrite length_app. simpl. lia.
  - rewrite length_app. simpl. lia.
Qed.

Lemma relabel_match id rest k :
  is_id id ->
  relabel (bracketed id ++ rest) k 0 = bracketed (decimal k) ++ relabel rest (S k) 0.
Proof.
  intros Hid. pose proof (match_here_complete id rest Hid) as Hm.
  unfold bracketed in *. simpl in *. rewrite Hm. do 2 f_equal.
  rewrite relabel_skip. f_equal.
  rewrite drop_app_length'; [done|]. rewrite length_app. simpl. lia.
Qed.

Lemma scan_no_match c s pos :
  match_here (c :: s) = None -> scan (c :: s) pos 0 = scan s (S pos) 0.
Proof. intros H. cbn [scan]. by rewrite H. Qed.

Lemma relabel_no_match c s k :
  match_here (c :: s) = None -> relabel (c :: s) k 0 = c :: relabel s k 0.
Proof. intros H. cbn [relabel]. by rewrite H. Qed.

(** Slices at the seam of two texts: no index is clamped. *)
Lemma clamp_length (a b : Text) : clamp (length (a ++ b)) (Z.of_nat (length a)) = length a.
Proof.
  unfold clamp. destruct (Z.ltb_spec (Z.of_nat (length a)) 0); [lia|].
  rewrite Nat2Z.id, length_app. lia.
Qed.

Lemma slice_prefix (a b : Text) : slice (a ++ b) 0 (Z.of_nat (length a)) = a.
Proof.
  unfold slice. rewrite clamp_length.
  assert (clamp (length (a ++ b)) 0 = 0) as -> by reflexivity.
  rewrite Nat.sub_0_r. simpl. apply take_app_length.
Qed.

Lemma slice_from_suffix (a b : Text) : slice_from (a ++ b) (Z.of_nat (length a)) = b.
Proof. unfold slice_from. rewrite clamp_length. apply drop_app_length. Qed.

(** The invariant of the loop: with [done] the text already rewritten and
    [rest] the text still to scan, the tree is [done ++ rest] and the offset
    is the growth so far. *)
Lemma renumber_loop nodesMap rest :
  forall done pos k xs,
    fold_left (step nodesMap) (scan rest pos 0)
      (mkLoop (done ++ rest) (Z.of_nat (length done) - Z.of_nat pos) k xs)
    = mkLoop (done ++ relabel rest k 0)
        (Z.of_nat (length (done ++ relabel rest k 0)) - Z.of_nat (pos + length rest))
        (k + length (scan rest pos 0))
        (xs ++ map (fun m => map_get nodesMap (group m)) (scan rest pos 0)).
Proof.
  induction rest as [rest IH] using (induction_ltof1 _ (@length N)).
  unfold ltof in IH. intros done pos k xs.
  destruct rest as [|c r].
  - simpl. by rewrite !app_nil_r, !Nat.add_0_r.
  - destruct (match_here (c :: r)) as [id|] eqn:Hm.
    + destruct (match_here_sound _ _ Hm) as [Hid [rest' Hrest]].
      assert (length rest' < length (c :: r)) as Hlt.
      { rewrite Hrest, length_app, bracketed_length. lia. }
      rewrite Hrest, (scan_match _ _ _ Hid), (relabel_match _ _ _ Hid).
      cbn [fold_left]. unfold step at 2. cbn [tree offset counter xpaths index whole group].
      replace (Z.of_nat pos + (Z.of_nat (length done) - Z.of_nat pos))%Z
        with (Z.of_nat (length done)) by lia.
      rewrite slice_prefix.
      replace (Z.of_nat pos + Z.of_nat (length (bracketed id))
               + (Z.of_nat (length done) - Z.of_nat pos))%Z
        with (Z.of_nat (length (done ++ bracketed id)))
        by (rewrite length_app; lia).
      rewrite (app_assoc done (bracketed id) rest'), slice_from_suffix.
      rewrite (app_assoc done (bracketed (decimal k)) rest').
      replace (Z.of_nat (length done) - Z.of_nat pos
               + (Z.of_nat (length (bracketed (decimal k)))
                  - Z.of_nat (length (bracketed id))))%Z
        with (Z.of_nat (length (done ++ bracketed (decimal k)))
              - Z.of_nat (pos + length (bracketed id)))%Z
        by (rewrite length_app; lia).
      rewrite (IH rest' Hlt). cbn [length map].
      f_equal.
      * by rewrite <- !app_assoc.
      * rewrite <- !app_assoc, !length_app. lia.
      * lia.
      * by rewrite <- app_assoc.
    + rewrite (scan_no_match _ _ _ Hm), (relabel_no_match _ _ _ Hm).
      replace (done ++ c :: r) with ((done ++ [c]) ++ r) by (by rewrite <- app_assoc).
      replace (Z.of_nat (length done) - Z.of_nat pos)%Z
        with (Z.of_nat (length (done ++ [c])) - Z.of_nat (S pos))%Z
        by (rewrite length_app; simpl; lia).
      rewrite (IH r); [|simpl; lia].
      f_equal.
      * by rewrite <- !app_assoc.
      * rewrite <- !app_assoc. simpl. rewrite !length_app. simpl. lia.
Qed.

Lemma uint_text_digits d : Forall (fun c => is_digit c = true) (uint_text d).
Proof. induction d; simpl; by constructor. Qed.

Lemma uint_text_nil d : uint_text d = [] -> d = Decimal.Nil.
Proof. by destruct d. Qed.

(** `${k}` is a non-empty run of digits. *)
Lemma decimal_digits k : all_digits (decimal k).
Proof.
  unfold decimal. split; [|apply uint_text_digits].
  intros H%uint_text_nil.
  pose proof (DecimalNat.Unsigned.to_of (Nat.to_uint k)) as Hn.
  rewrite DecimalNat.Unsigned.of_to, H in Hn.
  by apply (DecimalFacts.unorm_nonnil Decimal.Nil).
Qed.

Lemma decimal_is_id k : is_id (decimal k).
Proof. left. apply decimal_digits. Qed.

Lemma digit_not_open c : is_digit c = true -> not_open c = true.
Proof.
  unfold not_open. destruct (N.eqb_spec c 91) as [->|]; [|done]. by compute.
Qed.

(** No match contains "[" after its first code unit. *)
Lemma id_not_open id : is_id id -> Forall (fun c => not_open c = true) (id ++ [93%N; 32%N]).
Proof.
  intros [[_ Hd]|(a & b & -> & [_ Ha] & [_ Hb])].
  - apply Forall_app. split; [|by repeat constructor].
    eapply Forall_impl; [exact Hd | apply digit_not_open].
  - rewrite <- app_assoc. apply Forall_app. split.
    + eapply Forall_impl; [exact Ha | apply digit_not_open].
    + constructor; [done|]. apply Forall_app. split; [|by repeat constructor].
      eapply Forall_impl; [exact Hb | apply digit_not_open].
Qed.

(** Up to its first "[" the relabelled text is the text itself. *)
Lemma relabel_agrees r k p :
  Forall (fun c => not_open c = true) p ->
  (exists t, relabel r k 0 = p ++ t) -> exists t, r = p ++ t.
Proof.
  intros Hp. revert r. induction Hp as [|x p Hx Hp IH]; intros r [t Ht].
  - by exists r.
  - destruct r as [|c r]; [done|].
    destruct (match_here (c :: r)) as [id|] eqn:Hm.
    + cbn [relabel] in Ht. rewrite Hm in Ht. unfold bracketed in Ht. simpl in Ht.
      injection Ht as <- _. done.
    + rewrite (relabel_no_match _ _ _ Hm) in Ht. simpl in Ht. injection Ht as -> Ht.
      destruct (IH r (ex_intro _ t Ht)) as [t' ->]. by exists t'.
Qed.

(** Relabelling what follows a code unit creates no match at it. *)
Lemma relabel_keeps_no_match c r k :
  match_here (c :: r) = None -> match_here (c :: relabel r k 0) = None.
Proof.
  intros Hnone. destruct (match_here (c :: relabel r k 0)) as [id|] eqn:Hm; [|done].
  destruct (match_here_sound _ _ Hm) as [Hid [rest Hr]].
  unfold bracketed in Hr. simpl in Hr. injection Hr as -> Hr.
  destruct (relabel_agrees r k (id ++ [93%N; 32%N]) (id_not_open _ Hid)
              (ex_intro _ rest Hr)) as [t ->].
  pose proof (match_here_complete id t Hid) as Hc.
  change (bracketed id ++ t) with (91%N :: (id ++ [93%N; 32%N]) ++ t) in Hc.
  congruence.
Qed.

(** The ids found do not depend on where the scan is said to start. *)
Lemma scan_groups_pos s pos pos' skip :
  map group (scan s pos skip) = map group (scan s pos' skip).
Proof.
  revert pos pos' skip. induction s as [|c s IH]; intros pos pos' skip; [done|].
  cbn [scan]. destruct skip; [|apply IH].
  destruct (match_here (c :: s)); simpl; [f_equal|]; apply IH.
Qed.

Lemma scan_length_pos s pos pos' : length (scan s pos 0) = length (scan s pos' 0).
Proof. by rewrite <- (length_map group), (scan_groups_pos s pos pos'), length_map. Qed.

(** The ids of the relabelled text are the numbers from [k] on. *)
Lemma relabel_groups rest :
  forall k pos,
    map group (scan (relabel rest k 0) pos 0)
    = map decimal (seq k (length (scan rest 0 0))).
Proof.
  induction rest as [rest IH] using (induction_ltof1 _ (@length N)).
  unfold ltof in IH. intros k pos. destruct rest as [|c r]; [done|].
  destruct (match_here (c :: r)) as [id|] eqn:Hm.
  - destruct (match_here_sound _ _ Hm) as [Hid [rest' Hrest]].
    assert (length rest' < length (c :: r)) as Hlt.
    { rewrite Hrest, length_app, bracketed_length. lia. }
    rewrite Hrest, (relabel_match _ _ _ Hid), (scan_match _ _ _ (decimal_is_id k)).
    rewrite (scan_match _ _ _ Hid). cbn [length map seq group]. f_equal.
    rewrite (IH rest' Hlt). do 2 f_equal. apply scan_length_pos.
  - rewrite (relabel_no_match _ _ _ Hm), (scan_no_match _ _ _ Hm).
    rewrite (scan_no_match _ _ _ (relabel_keeps_no_match _ _ k Hm)).
    rewrite (IH r); [|simpl; lia]. do 2 f_equal. apply scan_length_pos.
Qed.

Lemma erase_skip s skip : erase s skip = erase (drop skip s) 0.
Proof.
  revert skip. induction s as [|c s IH]; intros skip.
  - by destruct skip.
  - destruct skip as [|skip]; simpl; [done|]. by rewrite IH.
Qed.

Lemma erase_match id rest : is_id id -> erase (bracketed id ++ rest) 0 = erase rest 0.
Proof.
  intros Hid. pose proof (match_here_complete id rest Hid) as Hm.
  change (bracketed id ++ rest) with (91%N :: (id ++ [93%N; 32%N]) ++ rest) in *.
  cbn [erase]. rewrite Hm.
  rewrite erase_skip. f_equal.
  rewrite drop_app_length'; [done|]. rewrite length_app. simpl. lia.
Qed.

Lemma erase_no_match c s : match_here (c :: s) = None -> erase (c :: s) 0 = c :: erase s 0.
Proof. intros H. cbn [erase]. by rewrite H. Qed.

(** Relabelling changes the matches only. *)
Lemma relabel_erase rest : forall k, erase (relabel rest k 0) 0 = erase rest 0.
Proof.
  induction rest as [rest IH] using (induction_ltof1 _ (@length N)).
  unfold ltof in IH. intros k. destruct rest as [|c r]; [done|].
  destruct (match_here (c :: r)) as [id|] eqn:Hm.
  - destruct (match_here_sound _ _ Hm) as [Hid [rest' Hrest]].
    assert (length rest' < length (c :: r)) as Hlt.
    { rewrite Hrest, length_app, bracketed_length. lia. }
    rewrite Hrest, (relabel_match _ _ _ Hid), (erase_match _ _ (decimal_is_id k)).
    rewrite (erase_match _ _ Hid). by apply IH.
  - rewrite (relabel_no_match _ _ _ Hm), (erase_no_match _ _ Hm).
    rewrite (erase_no_match _ _ (relabel_keeps_no_match _ _ k Hm)).
    f_equal. apply IH. simpl. lia.
Qed.

Lemma renumber_spec nodesMap s :
  renumber nodesMap s
  = mkLoop (relabel s 0 0)
      (Z.of_nat (length (relabel s 0 0)) - Z.of_nat (length s))
      (length (matchAll s))
      (map (fun m => map_get nodesMap (group m)) (matchAll s)).
Proof.
  unfold renumber, matchAll.
  pose proof (renumber_loop nodesMap s [] 0 0 []) as H. simpl in H. exact H.
Qed.

End LabelFacts.

(** * Further properties: the labels of the CDP Tools node *)

(** The pattern of line 52, /\[((?:\d+-)?\d+)\] /, matches at the head of
    a text exactly when the text starts with "[", an id and "] ", the id
    being a run of digits or two runs of digits joined by a hyphen; the id
    is what the pattern captures, and it is unique. *)
Theorem label_pattern_matches_bracketed_ids (s id : Text.Text) :
  Labels.match_here s = Some id
  <-> Labels.is_id id /\ exists rest, s = Labels.bracketed id ++ rest.
Proof.
  split; [apply LabelFacts.match_here_sound|].
  intros [Hid [rest ->]]. by apply LabelFacts.match_here_complete.
Qed.

(** The loop of lines 55-65 rewrites the tree in place, match by match, by
    slicing at match.index + offset.  Its result is the tree copied once
    from left to right with the k-th match replaced by "[k] "; offset ends
    as the growth of the text; i counts the matches; and xpaths holds, match
    by match, what nodesMap has under the id of the match (undefined when it
    has nothing). *)
Theorem renumbering_is_one_pass_relabelling
    (nodesMap : list (Text.Text * Text.Text)) (s : Text.Text) :
  Labels.renumber nodesMap s
  = Labels.mkLoop (Labels.relabel s 0 0)
      (Z.of_nat (length (Labels.relabel s 0 0)) - Z.of_nat (length s))
      (length (Labels.matchAll s))
      (map (fun m => Labels.map_get nodesMap (Labels.group m)) (Labels.matchAll s)).
Proof. apply LabelFacts.renumber_spec. Qed.

(** After the loop the labels of the tree are 0, 1, 2, ... in order, as many
    as there are xpaths: the label k of the rewritten tree stands where the
    k-th id of the original tree stood, and xpaths[k] is what nodesMap has
    under that id. *)
Theorem renumbered_labels_index_the_xpaths
    (nodesMap : list (Text.Text * Text.Text)) (s : Text.Text) :
  let out := Labels.renumber nodesMap s in
  map Labels.group (Labels.matchAll (Labels.tree out))
  = map Text.decimal (seq 0 (length (Labels.matchAll s)))
  /\ length (Labels.xpaths out) = length (Labels.matchAll s)
  /\ forall k m,
       Labels.matchAll s !! k = Some m ->
       Labels.xpaths out !! k = Some (Labels.map_get nodesMap (Labels.group m)).
Proof.
  intros out. subst out. rewrite LabelFacts.renumber_spec. simpl. split; [|split].
  - apply LabelFacts.relabel_groups.
  - by rewrite length_map.
  - intros k m Hk. by rewrite list_lookup_fmap, Hk.
Qed.

(** The loop touches the labels only: with the matches taken out, the tree
    after the loop is the tree before it. *)
Theorem renumbering_changes_labels_only
    (nodesMap : list (Text.Text * Text.Text)) (s : Text.Text) :
  Labels.erase (Labels.tree (Labels.renumber nodesMap s)) 0 = Labels.erase s 0.
Proof. rewrite LabelFacts.renumber_spec. simpl. apply LabelFacts.relabel_erase. Qed.

(** * Facts about the CDP Tools node *)

Module CdpFacts.
Import Text Labels LabelFacts CdpTools.

Lemma eqb_eq (a b : Text) : Text.eqb a b = true <-> a = b.
Proof.
  revert b. induction a as [|x a IH]; intros [|y b]; simpl; try done.
  rewrite andb_true_iff, N.eqb_eq, IH. split; [by intros [-> ->]|by intros [= -> ->]].
Qed.

Lemma map_get_set m k v d :
  map_get (map_set m k v) d = if Text.eqb k d then Some v else map_get m d.
Proof.
  induction m as [|[k' v'] m IH]; simpl.
  - done.
  - destruct (Text.eqb k' k) eqn:Hk; simpl.
    + apply eqb_eq in Hk as ->. by destruct (Text.eqb k d).
    + rewrite IH. destruct (Text.eqb k' d) eqn:Hd; [|done].
      apply eqb_eq in Hd as ->. destruct (Text.eqb k d) eqn:Hkd; [|done].
      apply eqb_eq in Hkd as ->. assert (Text.eqb d d = true) by (by apply eqb_eq).
      congruence.
Qed.

Lemma reduce_snoc rs r : reduce (rs ++ [r]) = assign_selector (reduce rs) r.
Proof. unfold reduce. by rewrite fold_left_app. Qed.

(** An id of the pattern starts with a digit. *)
Lemma is_id_head id : is_id id -> exists c rest, id = c :: rest /\ is_digit c = true.
Proof.
  intros [[Hne Hd]|(a & b & -> & [Hne Hd] & _)].
  - destruct id as [|c rest]; [done|]. exists c, rest. split; [done|].
    by apply Forall_cons in Hd as [? _].
  - destruct a as [|c rest]; [done|]. exists c, (rest ++ 45%N :: b). split; [done|].
    by apply Forall_cons in Hd as [? _].
Qed.

Lemma is_id_not_proto id : is_id id -> Text.eqb (text "__proto__") id = false.
Proof.
  intros (c & rest & -> & Hc)%is_id_head.
  destruct (Text.eqb (text "__proto__") (c :: rest)) eqn:He; [|done].
  apply eqb_eq in He. injection He as <- _. by compute in Hc.
Qed.

(** Every id the scan finds is an id of the pattern. *)
Lemma scan_groups_ids s :
  forall pos m, m ∈ scan s pos 0 -> is_id (group m) /\ whole m = bracketed (group m).
Proof.
  induction s as [s IH] using (induction_ltof1 _ (@length N)).
  unfold ltof in IH. intros pos m. destruct s as [|c r]; [by intros ?%elem_of_nil|].
  destruct (match_here (c :: r)) as [id|] eqn:Hm.
  - destruct (match_here_sound _ _ Hm) as [Hid [rest' Hrest]].
    rewrite Hrest, (scan_match _ _ _ Hid). intros [->|Hin]%elem_of_cons; [done|].
    apply (IH rest') in Hin; [done|].
    rewrite Hrest, length_app, bracketed_length. lia.
  - rewrite (scan_no_match _ _ _ Hm). apply IH. simpl. lia.
Qed.

Lemma digits_no_hyphen s : Forall (fun c => is_digit c = true) s -> includes 45 s = false.
Proof.
  induction 1 as [|c s Hc _ IH]; [done|]. unfold includes in *. cbn [existsb].
  rewrite IH. destruct (N.eqb_spec 45 c) as [<-|]; [by compute in Hc|done].
Qed.

(** With an empty nodesMap every xpath is undefined. *)
Lemma renumber_empty_map tree :
  renumber [] tree
  = mkLoop (relabel tree 0 0)
      (Z.of_nat (length (relabel tree 0 0)) - Z.of_nat (length tree))
      (length (matchAll tree)) (replicate (length (matchAll tree)) None).
Proof.
  rewrite renumber_spec. f_equal.
  induction (matchAll tree) as [|m ms IH]; [done|].
  cbn [map length replicate]. by f_equal.
Qed.

(** The calls and the completion of getAccessibilityTree. *)
Lemma tree_log w i cdpUrl :
  log (getAccessibilityTree w i cdpUrl)
  = Called i TreeSession (Init cdpUrl)
    :: (if is_resolved (tree_init w i cdpUrl)
        then [Called i TreeSession (Observe []); Called i TreeSession Close]
        else []).
Proof.
  unfold getAccessibilityTree.
  destruct (tree_init w i cdpUrl) as [[]|e]; [|done].
  destruct (tree_observe w i) as [[]|e1], (tree_close w i) as [[]|e2];
    (destruct (prompt w i) as [c|]; [destruct (split_1 separator c)|]); reflexivity.
Qed.

Lemma tree_pushed w i cdpUrl : pushed (getAccessibilityTree w i cdpUrl) = [].
Proof.
  unfold getAccessibilityTree.
  destruct (tree_init w i cdpUrl) as [[]|e]; [|done].
  destruct (tree_observe w i) as [[]|e1], (tree_close w i) as [[]|e2];
    (destruct (prompt w i) as [c|]; [destruct (split_1 separator c)|]); reflexivity.
Qed.

Lemma tree_completion w i cdpUrl :
  completion (getAccessibilityTree w i cdpUrl)
  = match tree_init w i cdpUrl with
    | Rejected e => Rejected e
    | Resolved _ =>
        match tree_close w i with
        | Rejected e => Rejected e
        | Resolved _ =>
            match prompt w i with
            | None => Rejected TypeError
            | Some content =>
                match split_1 separator content with
                | None => Rejected TypeError
                | Some piece => Resolved (trim piece)
                end
            end
        end
    end.
Proof.
  unfold getAccessibilityTree.
  destruct (tree_init w i cdpUrl) as [[]|e]; [|done].
  destruct (tree_observe w i) as [[]|e1], (tree_close w i) as [[]|e2];
    (destruct (prompt w i) as [c|]; [destruct (split_1 separator c)|]); reflexivity.
Qed.

(** The calls and the completion of getNodesMap. *)
Lemma map_log w i cdpUrl tree :
  log (getNodesMap w i cdpUrl tree)
  = Called i MapSession (Init cdpUrl)
    :: (if is_resolved (map_init w i cdpUrl)
        then Called i MapSession (Observe (text "x"))
             :: (if is_resolved (map_observe w i (elements tree))
                 then [Called i MapSession Close; Called i MapSession Close]
                 else [Called i MapSession Close])
        else []).
Proof.
  unfold getNodesMap.
  destruct (map_init w i cdpUrl) as [[]|e]; [|done].
  destruct (map_observe w i (elements tree)) as [rs|e1]; cbn.
  - destruct (map_close w i 0) as [[]|e2]; cbn;
      by destruct (map_close w i 1) as [[]|e3].
  - by destruct (map_close w i 0) as [[]|e2].
Qed.

Lemma map_pushed w i cdpUrl tree : pushed (getNodesMap w i cdpUrl tree) = [].
Proof.
  unfold getNodesMap.
  destruct (map_init w i cdpUrl) as [[]|e]; [|done].
  destruct (map_observe w i (elements tree)) as [rs|e1]; cbn.
  - destruct (map_close w i 0) as [[]|e2]; cbn;
      by destruct (map_close w i 1) as [[]|e3].
  - by destruct (map_close w i 0) as [[]|e2].
Qed.

Lemma map_completion w i cdpUrl tree :
  completion (getNodesMap w i cdpUrl tree)
  = match map_init w i cdpUrl with
    | Rejected e => Rejected e
    | Resolved _ =>
        match map_observe w i (elements tree) with
        | Resolved rs =>
            match map_close w i 1 with
            | Rejected e => Rejected e
            | Resolved _ =>
                Resolved (if is_resolved (map_close w i 0) then reduce rs else [])
            end
        | Rejected _ =>
            match map_close w i 0 with
            | Rejected e => Rejected e
            | Resolved _ => Resolved []
            end
        end
    end.
Proof.
  unfold getNodesMap.
  destruct (map_init w i cdpUrl) as [[]|e]; [|done].
  destruct (map_observe w i (elements tree)) as [rs|e1]; cbn.
  - destruct (map_close w i 0) as [[]|e2]; cbn;
      by destruct (map_close w i 1) as [[]|e3].
  - by destruct (map_close w i 0) as [[]|e2].
Qed.

(** The three ways a turn can end. *)
Lemma cdp_processItem_cases w i cdpUrl :
  completion (processItem w i cdpUrl) = Resolved tt
  /\ match completion (getAccessibilityTree w i cdpUrl) with
     | Rejected e =>
         pushed (processItem w i cdpUrl) = [failed e]
         /\ log (processItem w i cdpUrl) = log (getAccessibilityTree w i cdpUrl)
     | Resolved tree =>
         log (processItem w i cdpUrl)
         = log (getAccessibilityTree w i cdpUrl) ++ log (getNodesMap w i cdpUrl tree)
         /\ pushed (processItem w i cdpUrl)
            = match completion (getNodesMap w i cdpUrl tree) with
              | Rejected e => [failed e]
              | Resolved nodesMap => [page_record nodesMap tree]
              end
     end.
Proof.
  unfold processItem.
  pose proof (tree_pushed w i cdpUrl) as Hp.
  destruct (getAccessibilityTree w i cdpUrl) as [p1 l1 [tree|e]]; cbn in *; subst p1.
  - pose proof (map_pushed w i cdpUrl tree) as Hq.
    destruct (getNodesMap w i cdpUrl tree) as [p2 l2 [nodesMap|e]]; cbn in *; subst p2.
    + unfold try_catch. cbn. by rewrite !app_nil_r.
    + unfold try_catch. cbn. by rewrite !app_nil_r.
  - unfold try_catch. cbn. by rewrite !app_nil_r.
Qed.

Lemma cdp_processItem_one w i cdpUrl :
  exists r, pushed (processItem w i cdpUrl) = [r].
Proof.
  destruct (cdp_processItem_cases w i cdpUrl) as [_ H].
  destruct (completion (getAccessibilityTree w i cdpUrl)) as [tree|e].
  - destruct H as [_ ->]. destruct (completion (getNodesMap w i cdpUrl tree)); eauto.
  - destruct H as [-> _]. eauto.
Qed.

(** A loop whose turns all complete and push one record each. *)
Lemma cdp_for_items_records {P} (body : nat -> P -> Job unit) :
  (forall i p, completion (body i p) = Resolved tt) ->
  (forall i p, length (pushed (body i p)) = 1) ->
  forall items k,
    completion (for_items body k items) = Resolved tt
    /\ length (pushed (for_items body k items)) = length items
    /\ forall j p, items !! j = Some p ->
         exists r, pushed (for_items body k items) !! j = Some r
                   /\ pushed (body (k + j) p) = [r].
Proof.
  intros Hc Hp. induction items as [|p items IH]; intros k.
  - split; [done|]. split; [done|]. by intros j p.
  - destruct (IH (S k)) as (IHc & IHl & IHr).
    cbn [for_items]. unfold mbind, job_bind, bind. rewrite (Hc k p). cbn.
    pose proof (Hp k p) as Hlen.
    destruct (pushed (body k p)) as [|r [|]] eqn:Hr; try done.
    split; [done|]. split; [simpl; by rewrite IHl|].
    intros [|j] q Hq.
    + injection Hq as <-. exists r. by rewrite Nat.add_0_r, Hr.
    + destruct (IHr j q Hq) as (r' & H1 & H2). exists r'. split; [done|].
      by replace (k + S j) with (S k + j) by lia.
Qed.

Lemma after_first_none sep s :
  after_first sep s = None <-> forall pre post, s <> pre ++ sep ++ post.
Proof.
  induction s as [|c s IH].
  - simpl. destruct (starts_with sep []) eqn:H.
    + split; [done|]. intros Hno. apply starts_with_spec in H as [t Ht].
      by destruct (Hno [] t).
    + split; [|done]. intros _ pre post Hs.
      assert (starts_with sep [] = true) as Ht; [|congruence].
      apply starts_with_spec. destruct pre; [|done]. by exists post.
  - cbn [after_first]. destruct (starts_with sep (c :: s)) eqn:H.
    + split; [done|]. intros Hno. apply starts_with_spec in H as [t Ht].
      by destruct (Hno [] t).
    + rewrite IH. split.
      * intros Hno [|x pre] post Hs.
        -- assert (starts_with sep (c :: s) = true) as Ht; [|congruence].
           apply starts_with_spec. by exists post.
        -- injection Hs as -> Hs. by apply (Hno pre post).
      * intros Hno pre post ->. by apply (Hno (c :: pre) post).
Qed.

Lemma after_first_some sep s post :
  after_first sep s = Some post -> exists pre, s = pre ++ sep ++ post.
Proof.
  induction s as [|c s IH].
  - simpl. destruct (starts_with sep []) eqn:H; [|done].
    intros [= <-]. apply starts_with_spec in H as [t Ht]. exists [].
    destruct sep; [done|done].
  - cbn [after_first]. destruct (starts_with sep (c :: s)) eqn:H.
    + intros [= <-]. apply starts_with_spec in H as [t Ht]. exists [].
      rewrite Ht, drop_app_length. done.
    + intros [pre ->]%IH. by exists (c :: pre).
Qed.

Lemma split_1_none sep s :
  split_1 sep s = None <-> forall pre post, s <> pre ++ sep ++ post.
Proof.
  unfold split_1. rewrite <- after_first_none.
  destruct (after_first sep s); simpl; split; done.
Qed.

(** execute returns what its turns pushed, one record a turn. *)
Lemma cdp_execute_records w items :
  completion (execute w items) = Resolved [pushed (execute w items)]
  /\ length (pushed (execute w items)) = length items
  /\ forall i cdpUrl, items !! i = Some cdpUrl ->
       exists r, pushed (execute w items) !! i = Some r
                 /\ pushed (processItem w i cdpUrl) = [r].
Proof.
  destruct (cdp_for_items_records (processItem w)) with (items := items) (k := 0)
    as (Hc & Hl & Hr).
  - intros i p. apply cdp_processItem_cases.
  - intros i p. destruct (cdp_processItem_one w i p) as [r ->]. done.
  - unfold execute, return_results. cbn. rewrite Hc. done.
Qed.

(** What a record of a turn can be. *)
Lemma cdp_processItem_record w i cdpUrl r :
  pushed (processItem w i cdpUrl) = [r] ->
  (exists e, r = failed e)
  \/ exists nodesMap tree, tree_of w i cdpUrl = Some tree /\ r = page_record nodesMap tree.
Proof.
  intros Hr. destruct (cdp_processItem_cases w i cdpUrl) as [_ H]. unfold tree_of.
  destruct (completion (getAccessibilityTree w i cdpUrl)) as [tree|e].
  - destruct H as [_ H]. rewrite Hr in H.
    destruct (completion (getNodesMap w i cdpUrl tree)) as [nodesMap|e].
    + injection H as ->. right. by exists nodesMap, tree.
    + injection H as ->. left. by exists e.
  - destruct H as [H _]. rewrite Hr in H. injection H as ->. left. by exists e.
Qed.

Lemma page_record_labels nodesMap tree :
  exists t xs,
    json (page_record nodesMap tree) = PageJson t xs
    /\ map group (matchAll t) = map decimal (seq 0 (length xs)).
Proof.
  unfold page_record. rewrite renumber_spec. cbn.
  eexists _, _. split; [done|]. rewrite length_map. apply relabel_groups.
Qed.

End CdpFacts.

(** * Further properties: execute of the CDP Tools node and its helpers *)

(** execute of the CDP Tools node (lines 42-85) never throws: whatever
    Stagehand does, it returns [results], which holds one record for every
    item, at the item's index.  That record is either the error record of
    the catch block or the record of a tree the first helper returned. *)
Theorem cdp_execute_returns_a_record_for_every_item
    (w : CdpTools.World) (items : list Text.Text) :
  exists rs,
    CdpTools.completion (CdpTools.execute w items) = CdpTools.Resolved [rs]
    /\ length rs = length items
    /\ forall i cdpUrl, items !! i = Some cdpUrl ->
         exists r,
           rs !! i = Some r
           /\ CdpTools.pushed (CdpTools.processItem w i cdpUrl) = [r]
           /\ ((exists e, r = CdpTools.failed e)
               \/ exists nodesMap tree,
                    CdpTools.tree_of w i cdpUrl = Some tree
                    /\ r = CdpTools.page_record nodesMap tree).
Proof.
  destruct (CdpFacts.cdp_execute_records w items) as (Hc & Hl & Hr).
  exists (CdpTools.pushed (CdpTools.execute w items)). split; [done|]. split; [done|].
  intros i cdpUrl Hi. destruct (Hr i cdpUrl Hi) as (r & H1 & H2).
  exists r. split; [done|]. split; [done|]. by apply CdpFacts.cdp_processItem_record.
Qed.

(** getAccessibilityTree (lines 91-120) closes its Stagehand exactly once
    when init() resolved, as its last call, and never when init() was
    rejected; and what observe('') does is of no consequence: the helper
    completes the same way whether that call resolves or is rejected with
    whatever error. *)
Theorem tree_session_closed_once_whatever_observe_does
    (w : CdpTools.World) (i : nat) (cdpUrl : Text.Text) :
  let job := CdpTools.getAccessibilityTree w i cdpUrl in
  CdpTools.closes CdpTools.TreeSession (CdpTools.log job)
  = (if CdpTools.is_resolved (CdpTools.tree_init w i cdpUrl) then 1 else 0)
  /\ (CdpTools.is_resolved (CdpTools.tree_init w i cdpUrl) = true ->
      last (CdpTools.log job)
      = Some (CdpTools.Called i CdpTools.TreeSession CdpTools.Close))
  /\ (forall o,
        CdpTools.completion
          (CdpTools.getAccessibilityTree (CdpTools.with_tree_observe o w) i cdpUrl)
        = CdpTools.completion job).
Proof.
  intros job. subst job. rewrite CdpFacts.tree_log. split; [|split].
  - by destruct (CdpTools.is_resolved (CdpTools.tree_init w i cdpUrl)).
  - by intros ->.
  - intros o. by rewrite !CdpFacts.tree_completion.
Qed.

(** getAccessibilityTree resolves exactly when init() and close() resolve
    and the stand-in model was given a prompt in which 'Accessibility Tree:
    \n' occurs.  With init() and close() resolved and no such prompt (the
    model was never asked, or the text lacks the marker) line 119 reads a
    member of undefined: the helper is rejected with a TypeError, after the
    session was closed. *)
Theorem tree_helper_resolves_iff_marker_found
    (w : CdpTools.World) (i : nat) (cdpUrl : Text.Text) :
  let job := CdpTools.getAccessibilityTree w i cdpUrl in
  let found :=
    exists content pre post,
      CdpTools.prompt w i = Some content
      /\ content = pre ++ CdpTools.separator ++ post in
  ((exists tree, CdpTools.completion job = CdpTools.Resolved tree)
   <-> CdpTools.is_resolved (CdpTools.tree_init w i cdpUrl) = true
       /\ CdpTools.is_resolved (CdpTools.tree_close w i) = true
       /\ found)
  /\ (CdpTools.is_resolved (CdpTools.tree_init w i cdpUrl) = true ->
      CdpTools.is_resolved (CdpTools.tree_close w i) = true ->
      ~ found ->
      CdpTools.completion job = CdpTools.Rejected CdpTools.TypeError
      /\ CdpTools.closes CdpTools.TreeSession (CdpTools.log job) = 1).
Proof.
  intros job found. subst job found.
  rewrite CdpFacts.tree_completion, CdpFacts.tree_log.
  destruct (CdpTools.tree_init w i cdpUrl) as [[]|e1]; cbn [CdpTools.is_resolved].
  2: { split; [|done]. split; [by intros [t Ht]|by intros [? _]]. }
  destruct (CdpTools.tree_close w i) as [[]|e2]; cbn [CdpTools.is_resolved].
  2: { split; [|done]. split; [by intros [t Ht]|by intros (_ & ? & _)]. }
  destruct (CdpTools.prompt w i) as [content|].
  2: { split.
       - split; [by intros [t Ht]|]. by intros (_ & _ & c & pre & post & ? & _).
       - done. }
  destruct (Text.split_1 CdpTools.separator content) as [piece|] eqn:Hs.
  - assert (exists pre post, content = pre ++ CdpTools.separator ++ post) as (pre & post & Hc).
    { unfold Text.split_1 in Hs.
      destruct (Text.after_first CdpTools.separator content) as [post|] eqn:Ha; [|done].
      destruct (CdpFacts.after_first_some _ _ _ Ha) as [pre Hpre]. by exists pre, post. }
    split.
    + split; [|by eexists]. intros _. split; [done|]. split; [done|].
      by exists content, pre, post.
    + intros _ _ []. by exists content, pre, post.
  - split.
    + split; [by intros [t Ht]|]. intros (_ & _ & c & pre & post & [= <-] & Hc).
      by destruct (proj1 (CdpFacts.split_1_none _ _) Hs pre post).
    + done.
Qed.

(** A world whose stand-in model is never asked. *)
Lemma tree_helper_resolves_iff_marker_found_witness :
  CdpTools.completion
    (CdpTools.getAccessibilityTree (CdpTools.with_prompt None CdpTools.calm) 0
       (Text.text "ws://localhost:9222"))
  = CdpTools.Rejected CdpTools.TypeError.
Proof.
  apply (proj2 (tree_helper_resolves_iff_marker_found
                  (CdpTools.with_prompt None CdpTools.calm) 0
                  (Text.text "ws://localhost:9222")) eq_refl eq_refl).
  by intros (c & pre & post & H & _).
Defined.

(** getNodesMap (lines 125-178) calls close() twice when observe('x')
    resolves: on line 164 and again in the finally block.  The helper then
    completes as the second close() does; and when the first close() was
    rejected the empty catch block swallows that, and the helper returns {}
    although observe had answered. *)
Theorem map_session_closed_twice_after_observe
    (w : CdpTools.World) (i : nat) (cdpUrl tree : Text.Text)
    (results : list CdpTools.ObserveResult) :
  CdpTools.is_resolved (CdpTools.map_init w i cdpUrl) = true ->
  CdpTools.map_observe w i (CdpTools.elements tree) = CdpTools.Resolved results ->
  let job := CdpTools.getNodesMap w i cdpUrl tree in
  CdpTools.closes CdpTools.MapSession (CdpTools.log job) = 2
  /\ CdpTools.completion job
     = match CdpTools.map_close w i 1 with
       | CdpTools.Rejected e => CdpTools.Rejected e
       | CdpTools.Resolved _ =>
           CdpTools.Resolved
             (if CdpTools.is_resolved (CdpTools.map_close w i 0)
              then CdpTools.reduce results else [])
       end.
Proof.
  intros Hi Ho job. subst job.
  rewrite CdpFacts.map_log, CdpFacts.map_completion, Ho.
  destruct (CdpTools.map_init w i cdpUrl) as [[]|e]; [|done]. done.
Qed.

(** The calm world: both calls of close() are logged. *)
Lemma map_session_closed_twice_after_observe_witness :
  CdpTools.closes CdpTools.MapSession
    (CdpTools.log
       (CdpTools.getNodesMap CdpTools.calm 0 (Text.text "ws://localhost:9222")
          (Text.text "[0-12] link: Home")))
  = 2.
Proof.
  exact (proj1 (map_session_closed_twice_after_observe CdpTools.calm 0
                  (Text.text "ws://localhost:9222") (Text.text "[0-12] link: Home")
                  _ eq_refl eq_refl)).
Defined.

(** A failure inside getNodesMap that its empty catch block swallows is not
    reported: when the tree was obtained and either observe('x') is
    rejected, or the close() of line 164 is, the item still gets a success
    record, with the renumbered tree and with undefined for every xpath. *)
Theorem swallowed_map_failure_leaves_xpaths_undefined
    (w : CdpTools.World) (i : nat) (cdpUrl tree : Text.Text) :
  CdpTools.tree_of w i cdpUrl = Some tree ->
  CdpTools.is_resolved (CdpTools.map_init w i cdpUrl) = true ->
  (CdpTools.is_resolved (CdpTools.map_observe w i (CdpTools.elements tree)) = false
   /\ CdpTools.is_resolved (CdpTools.map_close w i 0) = true)
  \/ (CdpTools.is_resolved (CdpTools.map_observe w i (CdpTools.elements tree)) = true
      /\ CdpTools.is_resolved (CdpTools.map_close w i 0) = false
      /\ CdpTools.is_resolved (CdpTools.map_close w i 1) = true) ->
  CdpTools.pushed (CdpTools.processItem w i cdpUrl)
  = [CdpTools.mkData
       (CdpTools.PageJson (Labels.relabel tree 0 0)
          (replicate (length (Labels.matchAll tree)) None))
       None].
Proof.
  unfold CdpTools.tree_of. intros Ht Hi Hcase.
  destruct (CdpFacts.cdp_processItem_cases w i cdpUrl) as [_ H].
  destruct (CdpTools.completion (CdpTools.getAccessibilityTree w i cdpUrl))
    as [tree'|e]; [|done].
  injection Ht as ->. destruct H as [_ ->].
  rewrite CdpFacts.map_completion.
  destruct (CdpTools.map_init w i cdpUrl) as [[]|e]; [|done].
  assert (CdpTools.page_record [] tree
          = CdpTools.mkData
              (CdpTools.PageJson (Labels.relabel tree 0 0)
                 (replicate (length (Labels.matchAll tree)) None)) None) as Hrec.
  { unfold CdpTools.page_record. by rewrite CdpFacts.renumber_empty_map. }
  destruct Hcase as [[Ho Hc]|(Ho & Hc0 & Hc1)].
  - destruct (CdpTools.map_observe w i (CdpTools.elements tree)); [done|].
    destruct (CdpTools.map_close w i 0); [|done]. by rewrite Hrec.
  - destruct (CdpTools.map_observe w i (CdpTools.elements tree)); [|done].
    destruct (CdpTools.map_close w i 1); [|done].
    destruct (CdpTools.map_close w i 0); [done|]. cbn. by rewrite Hrec.
Qed.

(** The calm world with observe('x') rejected: two labels, two undefined
    xpaths. *)
Lemma swallowed_map_failure_leaves_xpaths_undefined_witness :
  CdpTools.pushed
    (CdpTools.processItem
       (CdpTools.with_map_observe (CdpTools.Rejected (CdpTools.Rejection "Target closed"))
          CdpTools.calm)
       0 (Text.text "ws://localhost:9222"))
  = [CdpTools.mkData
       (CdpTools.PageJson
          (Text.text "[0] link: Home" ++ [10%N] ++ Text.text "[1] text: x")
          [None; None])
       None].
Proof.
  apply (swallowed_map_failure_leaves_xpaths_undefined
           (CdpTools.with_map_observe
              (CdpTools.Rejected (CdpTools.Rejection "Target closed")) CdpTools.calm)
           0 (Text.text "ws://localhost:9222")
           (Text.text "[0-12] link: Home" ++ [10%N] ++ Text.text "[7] text: x")).
  - reflexivity.
  - reflexivity.
  - left. split; reflexivity.
Defined.

(** A failure that leaves a helper becomes the item's record.  When
    getAccessibilityTree is rejected the record is the error record with
    that error as its cause and nothing is called on a second Stagehand;
    when getNodesMap is rejected (its init() or its last close()) the tree
    already obtained is dropped for the error record. *)
Theorem helper_failure_becomes_the_item_record
    (w : CdpTools.World) (i : nat) (cdpUrl : Text.Text) (e : CdpTools.Thrown) :
  (CdpTools.completion (CdpTools.getAccessibilityTree w i cdpUrl) = CdpTools.Rejected e ->
   CdpTools.pushed (CdpTools.processItem w i cdpUrl) = [CdpTools.failed e]
   /\ forall c, CdpTools.Called i CdpTools.MapSession c
                ∉ CdpTools.log (CdpTools.processItem w i cdpUrl))
  /\ (forall tree,
        CdpTools.tree_of w i cdpUrl = Some tree ->
        CdpTools.completion (CdpTools.getNodesMap w i cdpUrl tree) = CdpTools.Rejected e ->
        CdpTools.pushed (CdpTools.processItem w i cdpUrl) = [CdpTools.failed e]).
Proof.
  destruct (CdpFacts.cdp_processItem_cases w i cdpUrl) as [_ H]. unfold CdpTools.tree_of.
  split.
  - intros He. rewrite He in H. destruct H as [-> ->]. split; [done|].
    intros c Hin. rewrite CdpFacts.tree_log in Hin.
    destruct (CdpTools.is_resolved (CdpTools.tree_init w i cdpUrl));
      repeat (apply elem_of_cons in Hin as [Hin|Hin]; [discriminate Hin|]);
      by apply elem_of_nil in Hin.
  - intros tree Ht He.
    destruct (CdpTools.completion (CdpTools.getAccessibilityTree w i cdpUrl))
      as [tree'|e']; [|done].
    injection Ht as ->. destruct H as [_ ->]. by rewrite He.
Qed.

(** A prompt never stored, and a second Stagehand that cannot start. *)
Lemma helper_failure_becomes_the_item_record_witness :
  CdpTools.pushed
    (CdpTools.processItem (CdpTools.with_prompt None CdpTools.calm) 0
       (Text.text "ws://localhost:9222"))
  = [CdpTools.failed CdpTools.TypeError].
Proof.
  apply (proj1 (helper_failure_becomes_the_item_record
                  (CdpTools.with_prompt None CdpTools.calm) 0
                  (Text.text "ws://localhost:9222") CdpTools.TypeError)).
  reflexivity.
Defined.

(** In the output of execute every record without an error carries a tree
    whose labels are 0, 1, 2, ... in order, and as many xpaths as labels:
    label k of accessibilityTree is the index of its entry in xpaths. *)
Theorem page_record_labels_index_its_xpaths
    (w : CdpTools.World) (items : list Text.Text) (rs : list CdpTools.Data)
    (i : nat) (r : CdpTools.Data) :
  CdpTools.completion (CdpTools.execute w items) = CdpTools.Resolved [rs] ->
  rs !! i = Some r ->
  CdpTools.error r = None ->
  exists t xs,
    CdpTools.json r = CdpTools.PageJson t xs
    /\ map Labels.group (Labels.matchAll t) = map Text.decimal (seq 0 (length xs)).
Proof.
  intros Hc Hi He.
  destruct (CdpFacts.cdp_execute_records w items) as (Hc' & Hl & Hr).
  rewrite Hc' in Hc. injection Hc as Hrs. subst rs.
  assert (i < length items) as Hlt.
  { rewrite <- Hl. by apply lookup_lt_is_Some_1. }
  destruct (lookup_lt_is_Some_2 items i Hlt) as [cdpUrl Hu].
  destruct (Hr i cdpUrl Hu) as (r' & H1 & H2).
  assert (Some r' = Some r) as [= ->] by (rewrite <- H1; exact Hi).
  destruct (CdpFacts.cdp_processItem_record _ _ _ _ H2) as [[e ->]|(nm & tree & _ & ->)];
    [done|].
  apply CdpFacts.page_record_labels.
Qed.

(** The record of the calm world. *)
Lemma page_record_labels_index_its_xpaths_witness :
  exists t xs,
    CdpTools.json
      (CdpTools.page_record [(Text.text "0-12", Text.text "xpath=/html/body/a")]
         (Text.text "[0-12] link: Home" ++ [10%N] ++ Text.text "[7] text: x"))
    = CdpTools.PageJson t xs
    /\ map Labels.group (Labels.matchAll t) = map Text.decimal (seq 0 (length xs)).
Proof.
  apply (page_record_labels_index_its_xpaths CdpTools.calm
           [Text.text "ws://localhost:9222"]
           [CdpTools.page_record [(Text.text "0-12", Text.text "xpath=/html/body/a")]
              (Text.text "[0-12] link: Home" ++ [10%N] ++ Text.text "[7] text: x")]
           0).
  - vm_compute. reflexivity.
  - reflexivity.
  - reflexivity.
Defined.

(** The reduce of lines 165-171, read the way line 63 reads it, under an id
    of the pattern: nodesMap[id] is the selector of the last result whose
    description is that id (a later result overwrites an earlier one), and
    it is undefined when no result has that description.  A result whose
    description is __proto__ leaves the map as it was. *)
Theorem nodes_map_keeps_the_last_selector
    (results : list CdpTools.ObserveResult) (id : Text.Text) :
  Labels.is_id id ->
  Labels.map_get (CdpTools.reduce results) id
  = CdpTools.selector
    <$> last (List.filter (fun r => Text.eqb (CdpTools.description r) id) results).
Proof.
  intros Hid. induction results as [|r results IH] using rev_ind; [done|].
  rewrite CdpFacts.reduce_snoc, List.filter_app. cbn [List.filter].
  unfold CdpTools.assign_selector.
  destruct (Text.eqb (CdpTools.description r) (Text.text "__proto__")) eqn:Hproto.
  - apply CdpFacts.eqb_eq in Hproto. rewrite Hproto.
    by rewrite (CdpFacts.is_id_not_proto _ Hid), app_nil_r.
  - rewrite CdpFacts.map_get_set.
    destruct (Text.eqb (CdpTools.description r) id).
    + by rewrite last_snoc.
    + by rewrite app_nil_r.
Qed.

(** Two results for the id 0-12, and one described as __proto__. *)
Lemma nodes_map_keeps_the_last_selector_witness :
  Labels.map_get
    (CdpTools.reduce
       [CdpTools.mkObserveResult (Text.text "0-12") (Text.text "xpath=/html/body/a");
        CdpTools.mkObserveResult (Text.text "__proto__") (Text.text "xpath=/html");
        CdpTools.mkObserveResult (Text.text "0-12") (Text.text "xpath=/html/body/b")])
    (Text.text "0-12")
  = Some (Text.text "xpath=/html/body/b").
Proof.
  rewrite (nodes_map_keeps_the_last_selector _ (Text.text "0-12")).
  - reflexivity.
  - right. exists (Text.text "0"), (Text.text "12"). split; [reflexivity|].
    split; (split; [discriminate|repeat constructor]).
Defined.

(** The stand-in model of getNodesMap (lines 136-156) offers the ids of the
    tree that include a hyphen, in the order of the tree, each as its own
    description, with an empty method: every id it offers is two runs of
    digits joined by one hyphen, and an id that is a plain number is never
    offered. *)
Theorem stand_in_model_offers_hyphenated_ids (tree : Text.Text) :
  map CdpTools.elementId (CdpTools.elements tree)
  = List.filter (Text.includes 45) (map Labels.group (Labels.matchAll tree))
  /\ Forall (fun e =>
       CdpTools.e_description e = CdpTools.elementId e
       /\ CdpTools.method e = []
       /\ exists a b, CdpTools.elementId e = a ++ 45%N :: b
                      /\ Labels.all_digits a /\ Labels.all_digits b)
      (CdpTools.elements tree).
Proof.
  unfold CdpTools.elements. split.
  - induction (Labels.matchAll tree) as [|m ms IH]; [done|]. cbn [map List.filter].
    destruct (Text.includes 45 (Labels.group m)); cbn [map]; by rewrite IH.
  - apply Forall_forall. intros e (m & -> & Hm)%list_elem_of_fmap.
    apply list_elem_of_In, List.filter_In in Hm as [Hm Hh].
    apply list_elem_of_In in Hm.
    destruct (CdpFacts.scan_groups_ids _ _ _ Hm) as [[[_ Hd]|Hab] _].
    + apply CdpFacts.digits_no_hyphen in Hd. congruence.
    + done.
Qed.

(** * Facts about the records and the arguments of the calls *)

Module ShapeFacts.
Import Observations.

Lemma pw_dispatch_timeout w i p j c :
  Playwright.Called j (Playwright.Page c) ∈ trace (Playwright.dispatch w i p) ->
  pw_timeout_of c = Some (Playwright.timeout p)
  \/ (Playwright.operation p = "waitForTimeout"
      /\ c = Playwright.WaitForTimeout (Playwright.duration p)).
Proof.
  unfold Playwright.dispatch, Playwright.simple, Playwright.call.
  case_strings; run; pw_answers.
  all: rewrite ?elem_of_cons, elem_of_nil; intros H.
  all: repeat match goal with
              | H : _ \/ _ |- _ => destruct H as [H|H]
              | H : False |- _ => destruct H
              | H : Playwright.Called _ _ = Playwright.Called _ _ |- _ =>
                  injection H as -> ->
              end; try discriminate.
  all: try (left; reflexivity).
  all: right; split; [by apply String.eqb_eq|reflexivity].
Qed.

Lemma pw_processItem_page_call w i p j c :
  Playwright.Called j (Playwright.Page c) ∈ trace (Playwright.processItem w i p) ->
  Playwright.Called j (Playwright.Page c) ∈ trace (Playwright.dispatch w i p).
Proof.
  intros Hin. destruct (Playwright.session_acquired w i p) eqn:H.
  - destruct (PlaywrightFacts.pw_processItem_acquired _ _ _ H) as (pre & _ & Hacq & Htr & _).
    rewrite Htr in Hin.
    apply elem_of_app in Hin as [Hin|Hin].
    + destruct (PlaywrightFacts.pw_acquire_no_page w i (Playwright.cdpUrl p) j c).
      rewrite Hacq. apply elem_of_app. by left.
    + apply elem_of_cons in Hin as [Hin|Hin]; [done|].
      apply elem_of_app in Hin as [Hin|Hin]; [done|].
      by apply list_elem_of_singleton in Hin.
  - destruct (PlaywrightFacts.pw_processItem_not_acquired _ _ _ H) as [_ Hrest].
    destruct (String.eqb (Playwright.operation p) "executablePath").
    + rewrite Hrest in Hin. cbn in Hin. by apply elem_of_nil in Hin.
    + destruct Hrest as (Htr & _). rewrite Htr in Hin.
      by destruct (PlaywrightFacts.pw_acquire_no_page w i (Playwright.cdpUrl p) j c).
Qed.

(** The records of the switch of the Playwright node. *)
Lemma pw_dispatch_shape w i p r :
  r ∈ results (Playwright.dispatch w i p) ->
  error r = None /\ j_result (json r) = None
  /\ (is_Some (binary r) <-> Playwright.operation p = "screenshot").
Proof.
  unfold Playwright.dispatch, Playwright.simple, Playwright.call, Playwright.succeeded.
  case_strings; run; pw_answers.
  all: rewrite ?elem_of_cons, elem_of_nil; intros H.
  all: repeat match goal with
              | H : _ \/ _ |- _ => destruct H as [H|H]
              | H : False |- _ => destruct H
              end; subst r; cbn.
  all: repeat match goal with
              | H : String.eqb _ _ = true |- _ => apply String.eqb_eq in H
              | H : String.eqb _ _ = false |- _ => apply String.eqb_neq in H
              end.
  all: split; [done|]; split; [done|].
  all: split; [intros [x Hx]; try discriminate Hx; try done|intros Hs; try done].
  all: try (by eexists); congruence.
Qed.

Lemma pw_processItem_shape w i p r :
  r ∈ results (Playwright.processItem w i p) ->
  (is_Some (binary r) <-> Playwright.operation p = "screenshot" /\ error r = None)
  /\ (is_Some (j_result (json r)) <-> Playwright.operation p = "executablePath")
  /\ (is_Some (error r) -> json r = mkJson None None).
Proof.
  intros Hin. destruct (Playwright.session_acquired w i p) eqn:H.
  - assert (Playwright.operation p <> "executablePath") as Hop.
    { unfold Playwright.session_acquired in H. apply andb_prop in H as [H _].
      apply negb_true_iff in H. by apply String.eqb_neq. }
    destruct (PlaywrightFacts.pw_processItem_acquired _ _ _ H) as (_ & _ & _ & _ & Hr & _).
    rewrite Hr, try_catch_results in Hin.
    pose proof (PlaywrightFacts.pw_dispatch_results w i p) as Hd.
    destruct (completion (Playwright.dispatch w i p)) as [[]|e].
    + rewrite app_nil_r in Hin.
      destruct (pw_dispatch_shape _ _ _ _ Hin) as (He & Hres & Hb).
      rewrite He, Hres. split; [|split].
      * rewrite Hb. tauto.
      * split; [by intros [x Hx]|done].
      * by intros [x Hx].
    + rewrite Hd in Hin. cbn in Hin. apply list_elem_of_singleton in Hin as ->. cbn.
      split; [|split].
      * split; [by intros [x Hx]|by intros [_ ?]].
      * split; [by intros [x Hx]|done].
      * done.
  - destruct (PlaywrightFacts.pw_processItem_not_acquired _ _ _ H) as [_ Hrest].
    destruct (String.eqb (Playwright.operation p) "executablePath") eqn:Hop.
    + apply String.eqb_eq in Hop. rewrite Hrest in Hin. cbn in Hin.
      apply list_elem_of_singleton in Hin as ->. cbn. rewrite Hop.
      split; [|split].
      * split; [by intros [x Hx]|by intros [? _]].
      * split; [done|by eexists].
      * by intros [x Hx].
    + destruct Hrest as (_ & Hr & _). rewrite Hr in Hin. by apply elem_of_nil in Hin.
Qed.

(** The records of the switch of the Stagehand node. *)
Lemma sh_dispatch_shape w i p r :
  r ∈ results (Stagehand.dispatch w i p) ->
  error r = None /\ binary r = None
  /\ j_operation (json r) = Some (Stagehand.operation p)
  /\ is_Some (j_result (json r))
  /\ Stagehand.operation p ∈ sh_operations.
Proof.
  unfold Stagehand.dispatch, Stagehand.resolve_schema, Stagehand.call, Stagehand.eval,
    Stagehand.succeeded, sh_operations.
  case_strings; run; sh_answers.
  all: rewrite ?elem_of_cons, elem_of_nil; intros H.
  all: repeat match goal with
              | H : _ \/ _ |- _ => destruct H as [H|H]
              | H : False |- _ => destruct H
              end; subst r; cbn.
  all: repeat match goal with
              | H : String.eqb _ _ = true |- _ => apply String.eqb_eq in H
              end.
  all: repeat split; try done; try (by eexists).
  all: tauto.
Qed.

Lemma sh_processItem_results w c i p r :
  r ∈ results (Stagehand.processItem w c i p) -> r ∈ results (Stagehand.dispatch w i p).
Proof.
  intros Hin. destruct (Stagehand.session_acquired w c i p) eqn:H.
  - destruct (StagehandFacts.sh_processItem_acquired _ _ _ _ H) as (_ & Hr & _).
    by rewrite Hr in Hin.
  - destruct (StagehandFacts.sh_processItem_not_acquired _ _ _ _ H) as (_ & Hr & _).
    rewrite Hr in Hin. by apply elem_of_nil in Hin.
Qed.

End ShapeFacts.

(** * Further properties: the arguments of the calls and the members of the records *)

(** Every call on the page that a run of the Playwright node issues is
    issued for an item of the batch and carries that item's options.timeout
    unchanged, with one exception: waitForTimeout is called with the
    duration only (part_000, lines 381 and 387-542). *)
Theorem page_calls_carry_the_item_timeout
    (w : Playwright.World) (items : list Playwright.Params) (i : nat)
    (c : Playwright.PageCall) :
  Playwright.Called i (Playwright.Page c) ∈ trace (Playwright.execute w items) ->
  exists p,
    items !! i = Some p
    /\ (Observations.pw_timeout_of c = Some (Playwright.timeout p)
        \/ (Playwright.operation p = "waitForTimeout"
            /\ c = Playwright.WaitForTimeout (Playwright.duration p))).
Proof.
  rewrite PlaywrightFacts.pw_execute_trace.
  intros (j & p & Hj & Hin)%for_items_trace_elem. cbn in Hin.
  apply PlaywrightFacts.pw_processItem_item in Hin as Hitem. cbn in Hitem. subst j.
  exists p. split; [done|].
  by apply (ShapeFacts.pw_dispatch_timeout w i p i c), ShapeFacts.pw_processItem_page_call.
Qed.

(** A click in the calm world: the default timeout of the sample item. *)
Lemma page_calls_carry_the_item_timeout_witness :
  exists p,
    [Playwright.item "executablePath"; Playwright.item "click"] !! 1 = Some p
    /\ (Observations.pw_timeout_of (Playwright.Click "#q" 30000)
        = Some (Playwright.timeout p)
        \/ (Playwright.operation p = "waitForTimeout"
            /\ Playwright.Click "#q" 30000
               = Playwright.WaitForTimeout (Playwright.duration p))).
Proof.
  apply (page_calls_carry_the_item_timeout Playwright.calm
           [Playwright.item "executablePath"; Playwright.item "click"] 1
           (Playwright.Click "#q" 30000)).
  cbn. rewrite !elem_of_cons. tauto.
Defined.

(** The members of a record of the Playwright node follow from the
    operation: a record has binary data exactly when the operation is
    screenshot and the record is no error record; it has a result exactly
    when the operation is executablePath; and the json of an error record is
    empty. *)
Theorem playwright_record_members_follow_the_operation
    (w : Playwright.World) (i : nat) (p : Playwright.Params) (r : INodeExecutionData) :
  r ∈ results (Playwright.processItem w i p) ->
  (is_Some (binary r) <-> Playwright.operation p = "screenshot" /\ error r = None)
  /\ (is_Some (j_result (json r)) <-> Playwright.operation p = "executablePath")
  /\ (is_Some (error r) -> json r = mkJson None None).
Proof. apply ShapeFacts.pw_processItem_shape. Qed.

(** The record of a screenshot in the calm world. *)
Lemma playwright_record_members_follow_the_operation_witness :
  is_Some (binary (mkData (mkJson (Some "screenshot") None)
                     (Some ("screenshot", "screenshot.jpg")) None)).
Proof.
  apply (playwright_record_members_follow_the_operation Playwright.calm 0
           (Playwright.item "screenshot")).
  - cbn. apply list_elem_of_singleton. reflexivity.
  - split; reflexivity.
Defined.

(** The Stagehand node pushes success records only: every record of a turn
    names the operation, which is one of act, extract and observe, and
    carries the result of the action; it has no error and no binary data. *)
Theorem stagehand_records_are_success_records
    (w : Stagehand.World) (c : Stagehand.ModelCredential) (i : nat)
    (p : Stagehand.Params) (r : INodeExecutionData) :
  r ∈ results (Stagehand.processItem w c i p) ->
  error r = None /\ binary r = None
  /\ j_operation (json r) = Some (Stagehand.operation p)
  /\ is_Some (j_result (json r))
  /\ Stagehand.operation p ∈ Observations.sh_operations.
Proof. intros H. by apply (ShapeFacts.sh_dispatch_shape w i p), (ShapeFacts.sh_processItem_results w c). Qed.

(** The record of an observe in the calm world. *)
Lemma stagehand_records_are_success_records_witness :
  is_Some (j_result (json (Stagehand.succeeded "observe" "observed"))).
Proof.
  apply (stagehand_records_are_success_records Stagehand.calm
           (Stagehand.credential_of (Some Stagehand.chat_model)) 0
           (Stagehand.item "observe")).
  cbn. apply list_elem_of_singleton. reflexivity.
Defined.
